(** * PipeliningTool: the diagram model of [py_pipelingtool.py]

    A shallow embedding of the block/connection data model, the channel
    bookkeeping, the connection layout and the JSON codecs of the
    hardware block-diagram editor, together with the properties its
    specification states about them.

    Conventions of the embedding.
    - Python objects are shared and mutable: blocks and connections live
      in two stores ([block_heap], [conn_heap]) and are named by their
      index; [==] on objects (identity, no [__eq__] is defined) is
      equality of references.
    - Canvas coordinates are exact rationals [Q]; channel numbers, depths
      and widths of connections are integers [Z].
    - Dialog answers ([askyesno]) are boolean arguments.
    - Canvas item ids, selection and the status bar belong to the
      rendering layer and are not part of the state. *)

From Stdlib Require Import ZArith QArith Qabs Lqa String DecimalString Sorted.
From stdpp Require Import base option list strings gmap.

Local Open Scope Z_scope.

(** ** Data model *)

(** References into the two object stores. *)
Abbreviation block_ref := nat (only parsing).
Abbreviation conn_ref := nat (only parsing).

(** [class Block], fields of [__init__] that the model reads. *)
Module Block.
Record t := mk {
  x : Q;
  y : Q;
  width : Q;
  height : Q;
  name : string;
  number : option Z;
  connections : list conn_ref
}.

Definition set_connections (l : list conn_ref) (b : t) : t :=
  mk (x b) (y b) (width b) (height b) (name b) (number b) l.
End Block.

(** [class FIFOConnection]. *)
Module FIFOConnection.
Record t := mk {
  source_block : block_ref;
  target_block : block_ref;
  name : string;
  depth : Z;
  width : Z;
  src_ch_num : Z;
  dst_ch_num : Z
}.

Definition set_channels (s d : Z) (c : t) : t :=
  mk (source_block c) (target_block c) (name c) (depth c) (width c) s d.
End FIFOConnection.

(** [class HardwareDesignGUI]: the two object stores and the two lists
    [self.blocks], [self.connections]. *)
Record HardwareDesignGUI := mkGUI {
  block_heap : list Block.t;
  conn_heap : list FIFOConnection.t;
  blocks : list block_ref;
  connections : list conn_ref
}.

Definition set_block_heap (h : list Block.t) (g : HardwareDesignGUI) :=
  mkGUI h (conn_heap g) (blocks g) (connections g).
Definition set_conn_heap (h : list FIFOConnection.t) (g : HardwareDesignGUI) :=
  mkGUI (block_heap g) h (blocks g) (connections g).
Definition set_blocks (l : list block_ref) (g : HardwareDesignGUI) :=
  mkGUI (block_heap g) (conn_heap g) l (connections g).
Definition set_connections (l : list conn_ref) (g : HardwareDesignGUI) :=
  mkGUI (block_heap g) (conn_heap g) (blocks g) l.

(** [HardwareDesignGUI.__init__]. *)
Definition init : HardwareDesignGUI := mkGUI [] [] [] [].

(** ** Channel bookkeeping ([Block]) *)

(** The loop of [get_next_available_src_channel] that fills
    [used_channels]: the [src_ch_num] of every entry of
    [self.connections] whose [source_block] is [self]. *)
Definition used_src_channels (g : HardwareDesignGUI) (self : block_ref) : list Z :=
  match block_heap g !! self with
  | Some blk =>
      omap (fun c => match conn_heap g !! c with
                     | Some conn =>
                         if bool_decide (FIFOConnection.source_block conn = self)
                         then Some (FIFOConnection.src_ch_num conn) else None
                     | None => None
                     end) (Block.connections blk)
  | None => []
  end.

Definition used_dst_channels (g : HardwareDesignGUI) (self : block_ref) : list Z :=
  match block_heap g !! self with
  | Some blk =>
      omap (fun c => match conn_heap g !! c with
                     | Some conn =>
                         if bool_decide (FIFOConnection.target_block conn = self)
                         then Some (FIFOConnection.dst_ch_num conn) else None
                     | None => None
                     end) (Block.connections blk)
  | None => []
  end.

(** [while channel_num in used_channels: channel_num += 1], with the
    number of iterations bounded by [fuel]. *)
Fixpoint lowest_from (fuel : nat) (used : list Z) (channel_num : Z) : Z :=
  match fuel with
  | O => channel_num
  | S fuel' =>
      if bool_decide (channel_num ∈ used)
      then lowest_from fuel' used (channel_num + 1)
      else channel_num
  end.

(** The loop leaves after at most [length used] increments, so this
    fuel is never exhausted (see [lowest_from_not_used]). *)
Definition lowest_available (used : list Z) : Z :=
  lowest_from (S (length used)) used 0.

Definition get_next_available_src_channel (g : HardwareDesignGUI) (self : block_ref) : Z :=
  lowest_available (used_src_channels g self).

Definition get_next_available_dst_channel (g : HardwareDesignGUI) (self : block_ref) : Z :=
  lowest_available (used_dst_channels g self).

(** [Block.can_add_connection]. *)
Definition can_add_connection (g : HardwareDesignGUI) (self : block_ref) : bool :=
  match block_heap g !! self with
  | Some blk => bool_decide (length (Block.connections blk) < 15)%nat
  | None => false
  end.

(** ** Creating a connection object ([FIFOConnection.__init__]) *)

(** [block.connections.append(c)] on the block stored at [b]. *)
Definition attach (b : block_ref) (c : conn_ref) (g : HardwareDesignGUI) : HardwareDesignGUI :=
  set_block_heap
    (alter (fun blk => Block.set_connections (Block.connections blk ++ [c]) blk)
           b (block_heap g)) g.

(** The constructor: channels left at [None] are assigned from the
    blocks' current bookkeeping, then the new object is appended to
    the connection lists of both of its blocks (twice to the same list
    when they coincide).  Returns the new reference. *)
Definition FIFOConnection_init (source_block target_block : block_ref)
    (name : string) (depth width : Z) (src_ch_num dst_ch_num : option Z)
    (g : HardwareDesignGUI) : conn_ref * HardwareDesignGUI :=
  let s := match src_ch_num with
           | None => get_next_available_src_channel g source_block
           | Some n => n
           end in
  let d := match dst_ch_num with
           | None => get_next_available_dst_channel g target_block
           | Some n => n
           end in
  let self := length (conn_heap g) in
  let g1 := set_conn_heap
              (conn_heap g ++
               [FIFOConnection.mk source_block target_block name depth width s d]) g in
  (self, attach target_block self (attach source_block self g1)).

(** ** Geometry ([Block.get_connection_point], [FIFOConnection.draw]) *)

Definition Qltb (a b : Q) : bool := negb (Qle_bool b a).

(** Python's [min(a, b)]: the first argument unless the second is
    strictly smaller. *)
Definition py_min (a b : Q) : Q := if Qltb b a then b else a.

(** [Block.get_connection_point(self, other_block, connection_index,
    total_connections)]. *)
Definition get_connection_point (self other_block : Block.t)
    (connection_index total_connections : Z) : Q * Q :=
  let '(x, y) :=
    if Qltb (Block.x other_block) (Block.x self) then
      (Block.x self, Block.y self + Block.height self / 2)%Q
    else if Qltb (Block.x self + Block.width self) (Block.x other_block) then
      (Block.x self + Block.width self, Block.y self + Block.height self / 2)%Q
    else if Qltb (Block.y other_block) (Block.y self) then
      (Block.x self + Block.width self / 2, Block.y self)%Q
    else
      (Block.x self + Block.width self / 2, Block.y self + Block.height self)%Q in
  if 1 <? total_connections then
    if Qltb (Block.x other_block) (Block.x self)
       || Qltb (Block.x self + Block.width self) (Block.x other_block) then
      let offset_range :=
        py_min (Block.height self * (6 # 10)) (inject_Z (total_connections * 10)) in
      let step := (offset_range / inject_Z (total_connections - 1))%Q in
      let offset := (- offset_range / 2 + inject_Z connection_index * step)%Q in
      (x, (y + offset)%Q)
    else
      let offset_range :=
        py_min (Block.width self * (6 # 10)) (inject_Z (total_connections * 10)) in
      let step := (offset_range / inject_Z (total_connections - 1))%Q in
      let offset := (- offset_range / 2 + inject_Z connection_index * step)%Q in
      ((x + offset)%Q, y)
  else (x, y).

(** The test used throughout the GUI for "a connection between these
    two blocks, in either direction". *)
Definition joins (a b : block_ref) (conn : FIFOConnection.t) : bool :=
  bool_decide (FIFOConnection.source_block conn = a /\ FIFOConnection.target_block conn = b)
  || bool_decide (FIFOConnection.source_block conn = b /\ FIFOConnection.target_block conn = a).

Definition joins_ref (g : HardwareDesignGUI) (a b : block_ref) (c : conn_ref) : bool :=
  match conn_heap g !! c with
  | Some conn => joins a b conn
  | None => false
  end.






(** ** Diagram operations ([HardwareDesignGUI]) *)

(** [str(n)] for a natural number. *)
Definition str (n : nat) : string := NilEmpty.string_of_uint (Nat.to_uint n).

(** [if c in l: l.remove(c)]: drops the first occurrence, if any. *)
Fixpoint py_remove (c : nat) (l : list nat) : list nat :=
  match l with
  | [] => []
  | h :: t => if bool_decide (h = c) then t else h :: py_remove c t
  end.

(** [max(f(b) for b in l)] over a non-empty sequence: the first of the
    largest values. *)
Definition py_max (first : Q) (rest : list Q) : Q :=
  foldl (fun m v => if Qltb m v then v else m) first rest.

(** [add_block], for the name typed in the dialog ([None] when the
    dialog is cancelled). *)
Definition add_block (name : option string) (g : HardwareDesignGUI) : HardwareDesignGUI :=
  match name with
  | None => g
  | Some EmptyString => g
  | Some name =>
      let live := omap (fun b => block_heap g !! b) (blocks g) in
      let '(x, y) :=
        match live with
        | [] => (100 # 1, 100 # 1)
        | b0 :: bs =>
            let max_x := py_max (Block.x b0 + Block.width b0)%Q
                           ((fun b => Block.x b + Block.width b)%Q <$> bs) in
            let x := (max_x + 50)%Q in
            if Qltb 800 x then
              (100 # 1,
               (py_max (Block.y b0 + Block.height b0)%Q
                  ((fun b => Block.y b + Block.height b)%Q <$> bs) + 50)%Q)
            else (x, 100 # 1)
        end in
      let b := length (block_heap g) in
      set_blocks (blocks g ++ [b])
        (set_block_heap (block_heap g ++ [Block.mk x y 150 80 name None []]) g)
  end.

(** Number of entries of [self.connections] joining the two blocks. *)
Definition existing_connections (g : HardwareDesignGUI) (a b : block_ref) : nat :=
  length (filter (fun c => joins_ref g a b c = true) (connections g)).

(** The name chosen by [create_connection_between_blocks]. *)
Definition fifo_name (existing : nat) : string :=
  if (0 <? existing)%nat then "FIFO_" +:+ str (existing + 1) else "FIFO".

(** [create_connection_between_blocks(source_block, target_block)];
    the boolean is the value returned. *)
Definition create_connection_between_blocks (source_block target_block : block_ref)
    (g : HardwareDesignGUI) : HardwareDesignGUI * bool :=
  if bool_decide (source_block <> target_block)
     && can_add_connection g source_block
     && can_add_connection g target_block
  then
    let existing := existing_connections g source_block target_block in
    let '(conn, g1) :=
      FIFOConnection_init source_block target_block (fifo_name existing) 16 32
        None None g in
    (set_connections (connections g1 ++ [conn]) g1, true)
  else (g, false).

(** [if c in b.connections: b.connections.remove(c)]. *)
Definition detach (b : block_ref) (c : conn_ref) (g : HardwareDesignGUI) : HardwareDesignGUI :=
  set_block_heap
    (alter (fun blk => Block.set_connections (py_remove c (Block.connections blk)) blk)
           b (block_heap g)) g.

(** [delete_connection(connection, confirm)]; [answer] is the reply to
    the confirmation dialog, asked only when [confirm] holds. *)
Definition delete_connection (connection : conn_ref) (confirm answer : bool)
    (g : HardwareDesignGUI) : HardwareDesignGUI :=
  if confirm && negb answer then g
  else
    match conn_heap g !! connection with
    | None => g
    | Some conn =>
        let g1 := detach (FIFOConnection.source_block conn) connection g in
        let g2 := detach (FIFOConnection.target_block conn) connection g1 in
        set_connections (py_remove connection (connections g2)) g2
    end.

(** [conn.source_block == block or conn.target_block == block]. *)
Definition touches_ref (g : HardwareDesignGUI) (block : block_ref) (c : conn_ref) : bool :=
  match conn_heap g !! c with
  | Some conn => bool_decide (FIFOConnection.source_block conn = block)
                 || bool_decide (FIFOConnection.target_block conn = block)
  | None => false
  end.

(** [delete_block(block)]. *)
Definition delete_block (block : block_ref) (answer : bool) (g : HardwareDesignGUI)
    : HardwareDesignGUI :=
  if answer then
    let connections_to_remove :=
      filter (fun c => touches_ref g block c = true) (connections g) in
    let g1 := foldl (fun g c => delete_connection c false false g) g
                connections_to_remove in
    set_blocks (py_remove block (blocks g1)) g1
  else g.

(** [apply_changes] of [edit_connection_properties_direct], for a
    form whose numeric fields parse; returns the state unchanged when a
    check rejects the form. *)
Definition apply_changes (connection : conn_ref) (new_name : string)
    (new_depth new_width new_src_ch new_dst_ch : Z) (g : HardwareDesignGUI)
    : HardwareDesignGUI :=
  if bool_decide (new_name = EmptyString) then g
  else if (new_depth <=? 0) || (new_width <=? 0) then g
  else if (new_src_ch <? 0) || (new_dst_ch <? 0) then g
  else
    set_conn_heap
      (alter (fun conn =>
                FIFOConnection.mk (FIFOConnection.source_block conn)
                  (FIFOConnection.target_block conn)
                  new_name new_depth new_width new_src_ch new_dst_ch)
             connection (conn_heap g)) g.

(** The two loops of [reassign_all_channels]. *)
Definition detach_all (g : HardwareDesignGUI) : HardwareDesignGUI :=
  foldl (fun g c =>
           match conn_heap g !! c with
           | Some conn =>
               detach (FIFOConnection.target_block conn) c
                 (detach (FIFOConnection.source_block conn) c g)
           | None => g
           end) g (connections g).

Definition set_src_ch_num (c : conn_ref) (n : Z) (g : HardwareDesignGUI) :=
  set_conn_heap
    (alter (fun conn => FIFOConnection.set_channels n (FIFOConnection.dst_ch_num conn) conn)
           c (conn_heap g)) g.

Definition set_dst_ch_num (c : conn_ref) (n : Z) (g : HardwareDesignGUI) :=
  set_conn_heap
    (alter (fun conn => FIFOConnection.set_channels (FIFOConnection.src_ch_num conn) n conn)
           c (conn_heap g)) g.

Definition reattach (g : HardwareDesignGUI) (c : conn_ref) : HardwareDesignGUI :=
  match conn_heap g !! c with
  | Some conn =>
      let source := FIFOConnection.source_block conn in
      let target := FIFOConnection.target_block conn in
      let g1 := set_src_ch_num c (get_next_available_src_channel g source) g in
      let g2 := set_dst_ch_num c (get_next_available_dst_channel g1 target) g1 in
      attach target c (attach source c g2)
  | None => g
  end.

(** [reassign_all_channels]; [answer] replies to "Continue?". *)
Definition reassign_all_channels (answer : bool) (g : HardwareDesignGUI)
    : HardwareDesignGUI :=
  if bool_decide (connections g = []) then g
  else if answer then foldl reattach (detach_all g) (connections g)
  else g.

(** [new_design]; the dialog is shown only for a non-empty design. *)
Definition new_design (answer : bool) (g : HardwareDesignGUI) : HardwareDesignGUI :=
  if negb (bool_decide (blocks g = []) && bool_decide (connections g = []))
     && negb answer
  then g
  else set_connections [] (set_blocks [] g).

(** ** Files

    What [json.load] returns for the files the tool reads and what
    [json.dump] is given for the files it writes.  A JSON object is a
    record of optional fields, [None] standing for an absent key; the
    values have the types the exporters write.  The [metadata] object
    is informational and never read back. *)

(** An entry of [fifo_infos]. *)
Module FifoInfo.
Record t := mk {
  name : option string;
  src : option string;
  src_ch_num : option Z;
  dst : option string;
  dst_ch_num : option Z;
  qd : option Z;
  width : option Z
}.
End FifoInfo.

(** An entry of the older top-level [connections] array. *)
Module LegacyConnection.
Record t := mk {
  source_block : option string;
  destination_block : option string;
  fifo_name : option string;
  queue_depth : option Z;
  data_width : option Z;
  source_channel : option Z;
  destination_channel : option Z
}.
End LegacyConnection.

(** An entry of the [connections] array nested in a block of an older
    design file. *)
Module NestedConnection.
Record t := mk {
  target : option string;
  name : option string;
  depth : option Z;
  width : option Z;
  src_ch_num : option Z;
  dst_ch_num : option Z
}.
End NestedConnection.

(** An entry of [blocks]. *)
Module BlockData.
Record t := mk {
  x : option Q;
  y : option Q;
  width : option Q;
  height : option Q;
  name : option string;
  number : option Z;
  connections : option (list NestedConnection.t)
}.
End BlockData.

(** The top-level object. *)
Module DesignData.
Record t := mk {
  blocks : option (list BlockData.t);
  fifo_infos : option (list FifoInfo.t);
  connections : option (list LegacyConnection.t)
}.
End DesignData.

(** ** Commands that can raise

    The file commands run inside [try: ... except Exception]: an
    exception stops the command where it is, the mutations made so far
    stay, and [str(e)] goes into a message box. *)

Definition M (A : Type) : Type :=
  HardwareDesignGUI -> HardwareDesignGUI * (string + A).

#[global] Instance M_ret : MRet M := fun A a g => (g, inr a).
#[global] Instance M_bind : MBind M := fun A B f m g =>
  match m g with
  | (g', inr a) => f a g'
  | (g', inl e) => (g', inl e)
  end.

(** Reading the current state. *)
Definition current : M HardwareDesignGUI := fun g => (g, inr g).

(** A mutation that cannot fail. *)
Definition lift (f : HardwareDesignGUI -> HardwareDesignGUI) : M unit :=
  fun g => (f g, inr tt).

(** [d[k]]: [KeyError(k)] when the key is absent; [str] of a
    [KeyError] is the quoted key. *)
Definition key {A} (k : string) (field : option A) : M A :=
  fun g => match field with
           | Some a => (g, inr a)
           | None => (g, inl ("'" +:+ k +:+ "'"))
           end.

(** [for x in l: acc = body(acc, x)]. *)
Fixpoint fold_each {X A} (body : A -> X -> M A) (acc : A) (l : list X) : M A :=
  match l with
  | [] => mret acc
  | x :: l' => acc' ← body acc x; fold_each body acc' l'
  end.

Definition for_each {X} (body : X -> M unit) (l : list X) : M unit :=
  fold_each (fun _ x => body x) tt l.

(** What a file command shows when it ends. *)
Inductive outcome :=
  | Success
  | Error (msg : string).

(** [Block(...)] followed by [self.blocks.append(block)]. *)
Definition append_new_block (blk : Block.t) : M block_ref :=
  fun g =>
    let b := length (block_heap g) in
    (set_blocks (blocks g ++ [b]) (set_block_heap (block_heap g ++ [blk]) g), inr b).

(** [FIFOConnection(...)] followed by [self.connections.append(conn)]. *)
Definition append_new_connection (source target : block_ref) (name : string)
    (depth width : Z) (src_ch_num dst_ch_num : option Z) : M unit :=
  fun g =>
    let '(conn, g1) :=
      FIFOConnection_init source target name depth width src_ch_num dst_ch_num g in
    (set_connections (connections g1 ++ [conn]) g1, inr tt).

(** ** [save_json] *)

Definition block_data (blk : Block.t) : BlockData.t :=
  BlockData.mk (Some (Block.x blk)) (Some (Block.y blk)) (Some (Block.width blk))
    (Some (Block.height blk)) (Some (Block.name blk)) (Block.number blk) None.

(** The record written for a connection by [save_json],
    [export_connections_json] and [export_fifo_format]. *)
Definition conn_data (g : HardwareDesignGUI) (conn : FIFOConnection.t) : option FifoInfo.t :=
  source ← block_heap g !! FIFOConnection.source_block conn;
  target ← block_heap g !! FIFOConnection.target_block conn;
  Some (FifoInfo.mk (Some (FIFOConnection.name conn)) (Some (Block.name source))
          (Some (FIFOConnection.src_ch_num conn)) (Some (Block.name target))
          (Some (FIFOConnection.dst_ch_num conn)) (Some (FIFOConnection.depth conn))
          (Some (FIFOConnection.width conn))).

(** [design_data] as built by [save_json] and handed to
    [write_compact_design_json]. *)
Definition save_json (g : HardwareDesignGUI) : DesignData.t :=
  DesignData.mk
    (Some (omap (fun b => block_data <$> block_heap g !! b) (blocks g)))
    (Some (omap (fun c => conn_heap g !! c ≫= conn_data g) (connections g)))
    None.

(** ** [load_json] *)

Definition load_block (block_map : gmap string block_ref) (bd : BlockData.t)
    : M (gmap string block_ref) :=
  x ← key "x" (BlockData.x bd);
  y ← key "y" (BlockData.y bd);
  width ← key "width" (BlockData.width bd);
  height ← key "height" (BlockData.height bd);
  name ← key "name" (BlockData.name bd);
  b ← append_new_block (Block.mk x y width height name (BlockData.number bd) []);
  mret (<[name := b]> block_map).

Definition load_fifo (block_map : gmap string block_ref) (cd : FifoInfo.t) : M unit :=
  source_name ← key "src" (FifoInfo.src cd);
  target_name ← key "dst" (FifoInfo.dst cd);
  match block_map !! source_name, block_map !! target_name with
  | Some source_block, Some target_block =>
      name ← key "name" (FifoInfo.name cd);
      qd ← key "qd" (FifoInfo.qd cd);
      width ← key "width" (FifoInfo.width cd);
      append_new_connection source_block target_block name qd width
        (Some (default 0 (FifoInfo.src_ch_num cd)))
        (Some (default 0 (FifoInfo.dst_ch_num cd)))
  | _, _ => mret tt
  end.

Definition load_nested (block_map : gmap string block_ref) (source_block : block_ref)
    (cd : NestedConnection.t) : M unit :=
  target_name ← key "target" (NestedConnection.target cd);
  match block_map !! target_name with
  | Some target_block =>
      name ← key "name" (NestedConnection.name cd);
      depth ← key "depth" (NestedConnection.depth cd);
      width ← key "width" (NestedConnection.width cd);
      append_new_connection source_block target_block name depth width
        (Some (default 0 (NestedConnection.src_ch_num cd)))
        (Some (default 0 (NestedConnection.dst_ch_num cd)))
  | None => mret tt
  end.

Definition load_nested_of_block (block_map : gmap string block_ref) (bd : BlockData.t)
    : M unit :=
  name ← key "name" (BlockData.name bd);
  source_block ← key name (block_map !! name);
  for_each (load_nested block_map source_block) (default [] (BlockData.connections bd)).

(** The body of the [try] of [load_json]. *)
Definition load_json_body (answer : bool) (design_data : DesignData.t) : M outcome :=
  _ ← lift (new_design answer);
  match DesignData.blocks design_data with
  | None => mret (Error "Invalid JSON format")
  | Some bds =>
      block_map ← fold_each load_block ∅ bds;
      _ ← match DesignData.fifo_infos design_data with
          | Some infos => for_each (load_fifo block_map) infos
          | None => for_each (load_nested_of_block block_map) bds
          end;
      mret Success
  end.

(** [load_json] on the parsed file; [answer] replies to the dialog of
    [new_design]. *)
Definition load_json (answer : bool) (design_data : DesignData.t)
    (g : HardwareDesignGUI) : HardwareDesignGUI * outcome :=
  match load_json_body answer design_data g with
  | (g', inr o) => (g', o)
  | (g', inl e) => (g', Error ("Failed to load: " +:+ e))
  end.

(** ** [import_connections_json] *)

(** [{block.name: block for block in self.blocks}]: of two blocks with
    one name the later one stays. *)
Definition block_map_of (g : HardwareDesignGUI) : gmap string block_ref :=
  foldl (fun m b => match block_heap g !! b with
                    | Some blk => <[Block.name blk := b]> m
                    | None => m
                    end) ∅ (blocks g).

Record import_report := mkReport {
  imported_count : nat;
  skipped_count : nat;
  error_messages : list string
}.

(** The fields of a record the import reads, whichever format it is
    in: the two names with the keys they are stored under, then name,
    depth, width and channels with their defaults applied. *)
Record import_fields := mkFields {
  if_source_key : string;
  if_source : option string;
  if_dest_key : string;
  if_dest : option string;
  if_name : string;
  if_depth : Z;
  if_width : Z;
  if_source_channel : Z;
  if_dest_channel : Z
}.

Definition fields_of_fifo_info (cd : FifoInfo.t) : import_fields :=
  mkFields "src" (FifoInfo.src cd) "dst" (FifoInfo.dst cd)
    (default "FIFO" (FifoInfo.name cd)) (default 16 (FifoInfo.qd cd))
    (default 32 (FifoInfo.width cd)) (default 0 (FifoInfo.src_ch_num cd))
    (default 0 (FifoInfo.dst_ch_num cd)).

Definition fields_of_legacy (cd : LegacyConnection.t) : import_fields :=
  mkFields "source_block" (LegacyConnection.source_block cd)
    "destination_block" (LegacyConnection.destination_block cd)
    (default "FIFO" (LegacyConnection.fifo_name cd))
    (default 16 (LegacyConnection.queue_depth cd))
    (default 32 (LegacyConnection.data_width cd))
    (default 0 (LegacyConnection.source_channel cd))
    (default 0 (LegacyConnection.destination_channel cd)).

(** The per-record [try] of the import loop: the new state and, when
    the record is skipped, the message appended to [error_messages]. *)
Definition import_record (block_map : gmap string block_ref) (f : import_fields)
    (g : HardwareDesignGUI) : HardwareDesignGUI * option string :=
  match if_source f, if_dest f with
  | None, _ => (g, Some ("Error importing connection: '" +:+ if_source_key f +:+ "'"))
  | Some _, None => (g, Some ("Error importing connection: '" +:+ if_dest_key f +:+ "'"))
  | Some source_name, Some dest_name =>
      match block_map !! source_name with
      | None => (g, Some ("Source block '" +:+ source_name +:+ "' not found"))
      | Some source_block =>
          match block_map !! dest_name with
          | None => (g, Some ("Destination block '" +:+ dest_name +:+ "' not found"))
          | Some dest_block =>
              if negb (can_add_connection g source_block) then
                (g, Some ("Source block '" +:+ source_name
                          +:+ "' has reached connection limit"))
              else if negb (can_add_connection g dest_block) then
                (g, Some ("Destination block '" +:+ dest_name
                          +:+ "' has reached connection limit"))
              else
                ((append_new_connection source_block dest_block (if_name f)
                    (if_depth f) (if_width f) (Some (if_source_channel f))
                    (Some (if_dest_channel f)) g).1, None)
          end
      end
  end.

Definition import_records (block_map : gmap string block_ref) (l : list import_fields)
    (g : HardwareDesignGUI) : HardwareDesignGUI * import_report :=
  foldl (fun '(g, r) f =>
           match import_record block_map f g with
           | (g', None) =>
               (g', mkReport (S (imported_count r)) (skipped_count r) (error_messages r))
           | (g', Some msg) =>
               (g', mkReport (imported_count r) (S (skipped_count r))
                      (error_messages r ++ [msg]))
           end)
        (g, mkReport 0 0 []) l.

(** [import_connections_json] on the parsed file: an error box for a
    file with neither key, the report otherwise. *)
Definition import_connections_json (data : DesignData.t) (g : HardwareDesignGUI)
    : HardwareDesignGUI * (string + import_report) :=
  match DesignData.fifo_infos data, DesignData.connections data with
  | Some l, _ =>
      prod_map id inr (import_records (block_map_of g) (fields_of_fifo_info <$> l) g)
  | None, Some l =>
      prod_map id inr (import_records (block_map_of g) (fields_of_legacy <$> l) g)
  | None, None =>
      (g, inl "Invalid JSON format: neither 'fifo_infos' nor 'connections' key found")
  end.

(** ** [import_fifo_format] *)

(** [math.ceil(math.sqrt(n))]. *)
Definition ceil_sqrt (n : Z) : Z :=
  let r := Z.sqrt n in if r * r =? n then r else r + 1.

(** [sorted(block_names)] for a set of strings: no duplicates, ordered
    by code point. *)
Fixpoint insert_name (s : string) (l : list string) : list string :=
  match l with
  | [] => [s]
  | h :: t => if String.leb s h then s :: l else h :: insert_name s t
  end.

Definition sorted_names (block_names : list string) : list string :=
  foldr insert_name [] (remove_dups block_names).

Definition collect_names (block_names : list string) (fi : FifoInfo.t)
    : M (list string) :=
  src ← key "src" (FifoInfo.src fi);
  dst ← key "dst" (FifoInfo.dst fi);
  mret (block_names ++ [src; dst]).

Definition grid_block (cols : Z) (block_map : gmap string block_ref)
    (entry : nat * string) : M (gmap string block_ref) :=
  let '(i, block_name) := entry in
  let x := 50 + (Z.of_nat i mod cols) * 200 in
  let y := 50 + (Z.of_nat i / cols) * 150 in
  b ← append_new_block
        (Block.mk (inject_Z x) (inject_Z y) 150 80 block_name
           (Some (Z.of_nat i + 1)) []);
  mret (<[block_name := b]> block_map).

Definition import_fifo (block_map : gmap string block_ref) (fi : FifoInfo.t) : M unit :=
  src_name ← key "src" (FifoInfo.src fi);
  dst_name ← key "dst" (FifoInfo.dst fi);
  match block_map !! src_name, block_map !! dst_name with
  | Some source_block, Some target_block =>
      g ← current;
      if can_add_connection g source_block && can_add_connection g target_block
      then
        name ← key "name" (FifoInfo.name fi);
        qd ← key "qd" (FifoInfo.qd fi);
        width ← key "width" (FifoInfo.width fi);
        src_ch_num ← key "src_ch_num" (FifoInfo.src_ch_num fi);
        dst_ch_num ← key "dst_ch_num" (FifoInfo.dst_ch_num fi);
        append_new_connection source_block target_block name qd width
          (Some src_ch_num) (Some dst_ch_num)
      else
        (* the warning box formats [fifo_info['name']] *)
        _ ← key "name" (FifoInfo.name fi); mret tt
  | _, _ => mret tt
  end.

Definition import_fifo_body (answer : bool) (infos : list FifoInfo.t) : M unit :=
  _ ← lift (new_design answer);
  block_names ← fold_each collect_names [] infos;
  let names := sorted_names block_names in
  let cols := ceil_sqrt (Z.of_nat (length names)) in
  block_map ← fold_each (grid_block cols) ∅ (zip (seq 0 (length names)) names);
  for_each (import_fifo block_map) infos.

(** [import_fifo_format] on the parsed file; [answer] replies to the
    dialog of [new_design]. *)
Definition import_fifo_format (answer : bool) (data : DesignData.t)
    (g : HardwareDesignGUI) : HardwareDesignGUI * outcome :=
  match DesignData.fifo_infos data with
  | None => (g, Error "Invalid FIFO format: 'fifo_infos' key not found")
  | Some infos =>
      match import_fifo_body answer infos g with
      | (g', inr _) => (g', Success)
      | (g', inl e) => (g', Error ("Failed to import FIFO format: " +:+ e))
      end
  end.

(** ** Block edits *)

Definition update_block (block : block_ref) (f : Block.t -> Block.t)
    (g : HardwareDesignGUI) : HardwareDesignGUI :=
  set_block_heap (alter f block (block_heap g)) g.

(** [Block.move]. *)
Definition move (dx dy : Q) (blk : Block.t) : Block.t :=
  Block.mk (Block.x blk + dx) (Block.y blk + dy) (Block.width blk) (Block.height blk)
    (Block.name blk) (Block.number blk) (Block.connections blk).

(** [Block.resize]; [max(50, w)] is 50 unless [w] is larger. *)
Definition resize (new_width new_height : Q) (blk : Block.t) : Block.t :=
  Block.mk (Block.x blk) (Block.y blk)
    (if Qltb 50 new_width then new_width else 50)
    (if Qltb 30 new_height then new_height else 30)
    (Block.name blk) (Block.number blk) (Block.connections blk).

(** [apply_changes] of [edit_block_properties], for a form whose
    fields parse. *)
Definition apply_block_changes (block : block_ref) (new_name : string)
    (new_number : option Z) (new_width new_height : Z) (g : HardwareDesignGUI)
    : HardwareDesignGUI :=
  if bool_decide (new_name = EmptyString) then g
  else if match new_number with Some n => n <=? 0 | None => false end then g
  else if (new_width <=? 0) || (new_height <=? 0) then g
  else
    update_block block
      (fun blk =>
         resize (inject_Z new_width) (inject_Z new_height)
           (Block.mk (Block.x blk) (Block.y blk) (Block.width blk) (Block.height blk)
              new_name new_number (Block.connections blk))) g.

(** ** Sessions

    What the user can make the tool do.  The handlers are only ever
    given objects picked on the canvas or in a list of the window, so a
    command naming a block or connection that is not in the diagram
    does nothing. *)

Inductive command :=
  | AddBlock (name : option string)
  | MoveBlock (block : block_ref) (dx dy : Q)
  | ResizeBlock (block : block_ref) (new_width new_height : Q)
  | EditBlock (block : block_ref) (new_name : string) (new_number : option Z)
      (new_width new_height : Z)
  | Connect (source_block target_block : block_ref)
  | DeleteConnection (connection : conn_ref) (answer : bool)
  | DeleteBlock (block : block_ref) (answer : bool)
  | EditConnection (connection : conn_ref) (new_name : string)
      (new_depth new_width new_src_ch new_dst_ch : Z)
  | ReassignAllChannels (answer : bool)
  | NewDesign (answer : bool)
  | LoadJson (answer : bool) (design_data : DesignData.t)
  | ImportConnectionsJson (data : DesignData.t)
  | ImportFifoFormat (answer : bool) (data : DesignData.t).

Definition on_block (block : block_ref) (g : HardwareDesignGUI)
    (f : HardwareDesignGUI -> HardwareDesignGUI) : HardwareDesignGUI :=
  if bool_decide (block ∈ blocks g) then f g else g.

Definition on_connection (connection : conn_ref) (g : HardwareDesignGUI)
    (f : HardwareDesignGUI -> HardwareDesignGUI) : HardwareDesignGUI :=
  if bool_decide (connection ∈ connections g) then f g else g.

Definition run (g : HardwareDesignGUI) (cmd : command) : HardwareDesignGUI :=
  match cmd with
  | AddBlock name => add_block name g
  | MoveBlock b dx dy => on_block b g (update_block b (move dx dy))
  | ResizeBlock b w h => on_block b g (update_block b (resize w h))
  | EditBlock b name number w h => on_block b g (apply_block_changes b name number w h)
  | Connect s t =>
      on_block s g (fun g => on_block t g (fun g =>
        (create_connection_between_blocks s t g).1))
  | DeleteConnection c answer => on_connection c g (delete_connection c true answer)
  | DeleteBlock b answer => on_block b g (delete_block b answer)
  | EditConnection c name depth width src dst =>
      on_connection c g (apply_changes c name depth width src dst)
  | ReassignAllChannels answer => reassign_all_channels answer g
  | NewDesign answer => new_design answer g
  | LoadJson answer data => (load_json answer data g).1
  | ImportConnectionsJson data => (import_connections_json data g).1
  | ImportFifoFormat answer data => (import_fifo_format answer data g).1
  end.

(** The states a session can be in, starting from the empty window. *)
Definition reachable (g : HardwareDesignGUI) : Prop :=
  exists cmds : list command, g = foldl run init cmds.

(** * Vocabulary of the specification

    The definitions below are not taken from the code: they say, in the
    specification's words, what the properties proved afterwards are
    about. *)

(** Channel [n] is used at block [b] as a source (resp. target)
    channel: some entry of the block's connection list has [b] as its
    source (resp. target) and carries [n]. *)
Definition uses_src_channel (g : HardwareDesignGUI) (b : block_ref) (n : Z) : Prop :=
  exists blk c conn,
    block_heap g !! b = Some blk /\ c ∈ Block.connections blk /\
    conn_heap g !! c = Some conn /\
    FIFOConnection.source_block conn = b /\ FIFOConnection.src_ch_num conn = n.

Definition uses_dst_channel (g : HardwareDesignGUI) (b : block_ref) (n : Z) : Prop :=
  exists blk c conn,
    block_heap g !! b = Some blk /\ c ∈ Block.connections blk /\
    conn_heap g !! c = Some conn /\
    FIFOConnection.target_block conn = b /\ FIFOConnection.dst_ch_num conn = n.

(** [r] is the least natural number outside [used]. *)
Definition least_unused (used : Z -> Prop) (r : Z) : Prop :=
  0 <= r /\ ~ used r /\ forall m, 0 <= m < r -> used m.

(** The four edges of a block. *)
Inductive side := Left | Right | Top | Bottom.

(** Where the anchors of [total] parallel connections are spread
    around [centre] along an edge of length [len]: a window of
    [min(0.6 len, 10 total)] centred on it, a single anchor staying at
    the centre. *)
Definition spread (centre len : Q) (index total : Z) : Q :=
  if 1 <? total then
    let window := py_min (len * (6 # 10)) (inject_Z (total * 10)) in
    (centre + (- window / 2 + inject_Z index * (window / inject_Z (total - 1))))%Q
  else centre.

(** The anchor of connection [index] of [total] on edge [s] of [self]. *)
Definition anchor_on (self : Block.t) (s : side) (index total : Z) : Q * Q :=
  match s with
  | Left =>
      (Block.x self,
       spread (Block.y self + Block.height self / 2) (Block.height self) index total)
  | Right =>
      ((Block.x self + Block.width self)%Q,
       spread (Block.y self + Block.height self / 2) (Block.height self) index total)
  | Top =>
      (spread (Block.x self + Block.width self / 2) (Block.width self) index total,
       Block.y self)
  | Bottom =>
      (spread (Block.x self + Block.width self / 2) (Block.width self) index total,
       (Block.y self + Block.height self)%Q)
  end.

(** The point lies on the line carrying edge [s] of [self]. *)
Definition on_side (self : Block.t) (s : side) (p : Q * Q) : Prop :=
  match s with
  | Left => p.1 == Block.x self
  | Right => p.1 == Block.x self + Block.width self
  | Top => p.2 == Block.y self
  | Bottom => p.2 == Block.y self + Block.height self
  end%Q.

(** The horizontal extents [[x, x + width]] of the two blocks meet. *)
Definition horizontally_overlap (a b : Block.t) : Prop :=
  (Block.x a <= Block.x b + Block.width b /\ Block.x b <= Block.x a + Block.width a)%Q.


(** The offset of the control point of the connection at [index]:
    [30 + 15 index] units, positive for an odd index, negative for an
    even one. *)
Definition control_offset (index : nat) : Z :=
  if Nat.odd index then 30 + 15 * Z.of_nat index else - (30 + 15 * Z.of_nat index).



(** The connection objects of the diagram, in list order. *)
Definition diagram_connections (g : HardwareDesignGUI) : list FIFOConnection.t :=
  omap (fun c => conn_heap g !! c) (connections g).

(** The block objects of the diagram, in list order. *)
Definition diagram_blocks (g : HardwareDesignGUI) : list Block.t :=
  omap (fun b => block_heap g !! b) (blocks g).

(** The [src_ch_num] values of the diagram's connections whose source
    is [b], and the [dst_ch_num] values of those whose target is [b]. *)
Definition source_channels (g : HardwareDesignGUI) (b : block_ref) : list Z :=
  FIFOConnection.src_ch_num <$>
    filter (fun conn => FIFOConnection.source_block conn = b) (diagram_connections g).

Definition target_channels (g : HardwareDesignGUI) (b : block_ref) : list Z :=
  FIFOConnection.dst_ch_num <$>
    filter (fun conn => FIFOConnection.target_block conn = b) (diagram_connections g).

(** The channel invariant of the data model: per block, source
    channels pairwise distinct and target channels pairwise distinct. *)
Definition channels_unique (g : HardwareDesignGUI) : Prop :=
  forall b, NoDup (source_channels g b) /\ NoDup (target_channels g b).

(** The names of the diagram's connections joining [a] and [b]. *)
Definition names_between (g : HardwareDesignGUI) (a b : block_ref) : list string :=
  FIFOConnection.name <$> filter (fun conn => joins a b conn = true) (diagram_connections g).

(** The connection list of the block stored at [b]. *)
Definition block_connections (g : HardwareDesignGUI) (b : block_ref) : list conn_ref :=
  from_option Block.connections [] (block_heap g !! b).

(** The entries a connection contributes to the list of block [b]:
    one as its source, one as its target. *)
Definition touching (b : block_ref) (c : conn_ref) (conn : FIFOConnection.t)
    : list conn_ref :=
  (if bool_decide (FIFOConnection.source_block conn = b) then [c] else []) ++
  (if bool_decide (FIFOConnection.target_block conn = b) then [c] else []).

(** What the diagram's connection list says the list of block [b]
    holds. *)
Definition incident_among (g : HardwareDesignGUI) (l : list conn_ref) (b : block_ref)
    : list conn_ref :=
  c ← l; from_option (touching b c) [] (conn_heap g !! c).

Definition incident (g : HardwareDesignGUI) (b : block_ref) : list conn_ref :=
  incident_among g (connections g) b.

(** The structural invariants of the data model: every connection of
    the diagram is an object whose two blocks belong to the diagram,
    every block of the diagram is an object, no connection is listed
    twice, and the connection list of every block holds exactly the
    diagram's connections that touch it. *)
Record well_formed (g : HardwareDesignGUI) : Prop := mkWF {
  wf_connections :
    forall c, c ∈ connections g ->
      exists conn, conn_heap g !! c = Some conn /\
        FIFOConnection.source_block conn ∈ blocks g /\
        FIFOConnection.target_block conn ∈ blocks g;
  wf_blocks : forall b, b ∈ blocks g -> is_Some (block_heap g !! b);
  wf_NoDup : NoDup (connections g);
  wf_incident : forall b, b ∈ blocks g -> block_connections g b ≡ₚ incident g b
}.

(** What a saved design records of a block and of a connection. *)
Definition block_tuple (blk : Block.t) : string * Q * Q * Q * Q * option Z :=
  (Block.name blk, Block.x blk, Block.y blk, Block.width blk, Block.height blk,
   Block.number blk).

Definition block_tuples (g : HardwareDesignGUI) : list (string * Q * Q * Q * Q * option Z) :=
  block_tuple <$> diagram_blocks g.

Definition conn_tuple (g : HardwareDesignGUI) (conn : FIFOConnection.t)
    : option (string * string * string * Z * Z * Z * Z) :=
  source ← block_heap g !! FIFOConnection.source_block conn;
  target ← block_heap g !! FIFOConnection.target_block conn;
  Some (FIFOConnection.name conn, Block.name source, Block.name target,
        FIFOConnection.src_ch_num conn, FIFOConnection.dst_ch_num conn,
        FIFOConnection.depth conn, FIFOConnection.width conn).

Definition conn_tuples (g : HardwareDesignGUI)
    : list (string * string * string * Z * Z * Z * Z) :=
  omap (conn_tuple g) (diagram_connections g).

(** The blocks joined by the diagram's connections, and the channels
    they carry, in list order. *)
Definition endpoints (g : HardwareDesignGUI) : list (block_ref * block_ref) :=
  (fun conn => (FIFOConnection.source_block conn, FIFOConnection.target_block conn))
    <$> diagram_connections g.

Definition channels (g : HardwareDesignGUI) : list (Z * Z) :=
  (fun conn => (FIFOConnection.src_ch_num conn, FIFOConnection.dst_ch_num conn))
    <$> diagram_connections g.

(** Channel assignment in the specification's words: going through
    the connections in list order, each one takes, at its source
    block, the lowest source channel not taken by an earlier-listed
    connection with that source, and likewise at its target block. *)
Fixpoint assign_in_order (earlier : list (block_ref * block_ref * (Z * Z)))
    (ends : list (block_ref * block_ref)) : list (Z * Z) :=
  match ends with
  | [] => []
  | (s, t) :: rest =>
      let sc := lowest_available
                  ((fun e => e.2.1) <$> filter (fun e => e.1.1 = s) earlier) in
      let dc := lowest_available
                  ((fun e => e.2.2) <$> filter (fun e => e.1.2 = t) earlier) in
      (sc, dc) :: assign_in_order (earlier ++ [(s, t, (sc, dc))]) rest
  end.

(** The diagram with its blocks kept and no connection made yet. *)
Definition without_connections (g : HardwareDesignGUI) : HardwareDesignGUI :=
  set_connections []
    (set_block_heap (Block.set_connections [] <$> block_heap g) g).

(** Making the diagram's connections again, in list order, with
    automatic channel assignment. *)
Definition recreate (g : HardwareDesignGUI) : HardwareDesignGUI :=
  foldl (fun g' conn =>
           (append_new_connection (FIFOConnection.source_block conn)
              (FIFOConnection.target_block conn) (FIFOConnection.name conn)
              (FIFOConnection.depth conn) (FIFOConnection.width conn) None None g').1)
        (without_connections g) (diagram_connections g).

(** ** Auxiliary notions used in the proofs *)

(** The [fifo_infos] entry holding the given values. *)
Definition info_of_tuple (t : string * string * string * Z * Z * Z * Z) : FifoInfo.t :=
  let '(name, src, dst, sc, dc, depth, width) := t in
  FifoInfo.mk (Some name) (Some src) (Some sc) (Some dst) (Some dc) (Some depth) (Some width).

(** Every name of the map leads to a block of the diagram that bears it. *)
Definition names_resolve (g : HardwareDesignGUI) (m : gmap string block_ref) : Prop :=
  forall name b, m !! name = Some b ->
    b ∈ blocks g /\ Block.name <$> block_heap g !! b = Some name.


(** The two blocks a connection joins. *)
Definition ends_of (conn : FIFOConnection.t) : block_ref * block_ref :=
  (FIFOConnection.source_block conn, FIFOConnection.target_block conn).

(** Source, target and channels of the listed connections. *)
Definition assigned (g : HardwareDesignGUI) (l : list conn_ref)
    : list (block_ref * block_ref * (Z * Z)) :=
  (fun conn => (FIFOConnection.source_block conn, FIFOConnection.target_block conn,
                (FIFOConnection.src_ch_num conn, FIFOConnection.dst_ch_num conn)))
    <$> omap (fun c => conn_heap g !! c) l.

(** Everything about a connection but its two channel numbers. *)
Definition sans_channels (conn : FIFOConnection.t) : block_ref * block_ref * string * Z * Z :=
  (FIFOConnection.source_block conn, FIFOConnection.target_block conn,
   FIFOConnection.name conn, FIFOConnection.depth conn, FIFOConnection.width conn).

(** The channels of the listed connections. *)
Definition chans (g : HardwareDesignGUI) (l : list conn_ref) : list (Z * Z) :=
  (fun conn => (FIFOConnection.src_ch_num conn, FIFOConnection.dst_ch_num conn))
    <$> omap (fun c => conn_heap g !! c) l.

(** What holds of the outcome of a command that can raise: [Q] of the
    value and state when it returns, [E] of the state when it raises. *)
Definition post {A} (r : HardwareDesignGUI * (string + A))
    (Q : A -> HardwareDesignGUI -> Prop) (E : HardwareDesignGUI -> Prop) : Prop :=
  match r with
  | (g', inr a) => Q a g'
  | (g', inl _) => E g'
  end.

(** Every block the map names is in the diagram. *)
Definition map_live (m : gmap string block_ref) (g : HardwareDesignGUI) : Prop :=
  forall name b, m !! name = Some b -> b ∈ blocks g.

(** The commands that leave channel numbers to the tool: all but the
    property editor of connections, which stores the numbers typed in,
    and the three readers of files, which store the numbers read. *)
Definition automatic_channels (cmd : command) : bool :=
  match cmd with
  | EditConnection _ _ _ _ _ _ | LoadJson _ _
  | ImportConnectionsJson _ | ImportFifoFormat _ _ => false
  | _ => true
  end.

(** The source (resp. target) channels listed for block [b]. *)
Definition srcs_at (b : block_ref) (l : list (block_ref * block_ref * (Z * Z))) : list Z :=
  (fun e => e.2.1) <$> filter (fun e => e.1.1 = b) l.

Definition dsts_at (b : block_ref) (l : list (block_ref * block_ref * (Z * Z))) : list Z :=
  (fun e => e.2.2) <$> filter (fun e => e.1.2 = b) l.

(** The two block names of a record. *)
Definition tuple_ends (t : string * string * string * Z * Z * Z * Z) : string * string :=
  let '(_, src, dst, _, _, _, _) := t in (src, dst).

(** The names the records refer to, as [src] or [dst]. *)
Definition referenced (tl : list (string * string * string * Z * Z * Z * Z)) : list string :=
  t ← tl; [(tuple_ends t).1; (tuple_ends t).2].

(** The block made for the name at position [i] of the sorted names:
    default size, number [i + 1], cell [i] of a grid of [cols] columns
    with pitch 200 by 150 and origin (50, 50). *)
Definition grid_tuple (cols : Z) (i : nat) (name : string)
    : string * Q * Q * Q * Q * option Z :=
  (name, inject_Z (50 + (Z.of_nat i mod cols) * 200),
   inject_Z (50 + (Z.of_nat i / cols) * 150), 150 # 1, 80 # 1, Some (Z.of_nat i + 1)).

Definition grid_tuples (names : list string) : list (string * Q * Q * Q * Q * option Z) :=
  imap (grid_tuple (ceil_sqrt (Z.of_nat (length names)))) names.

(** The records kept by the capacity check, [held] counting for each
    name the connection ends accepted so far at its block. *)
Fixpoint within_capacity (held : string -> nat)
    (tl : list (string * string * string * Z * Z * Z * Z))
    : list (string * string * string * Z * Z * Z * Z) :=
  match tl with
  | [] => []
  | t :: rest =>
      let src := (tuple_ends t).1 in
      let dst := (tuple_ends t).2 in
      if (held src <? 15)%nat && (held dst <? 15)%nat then
        t :: within_capacity
               (fun name => (held name + (if decide (name = src) then 1 else 0)
                             + (if decide (name = dst) then 1 else 0))%nat) rest
      else within_capacity held rest
  end.

(** The block object behind [grid_tuple]. *)
Definition grid_object (cols : Z) (i : nat) (name : string) : Block.t :=
  Block.mk (inject_Z (50 + (Z.of_nat i mod cols) * 200))
    (inject_Z (50 + (Z.of_nat i / cols) * 150)) 150 80 name (Some (Z.of_nat i + 1)) [].

(** The state the import loop keeps: every name of the map leads to
    the block bearing it, which holds as many connections as [held]
    says; different names lead to different blocks. *)
Definition holds (m : gmap string block_ref) (held : string -> nat)
    (g : HardwareDesignGUI) : Prop :=
  (forall name b, m !! name = Some b ->
     Block.name <$> block_heap g !! b = Some name /\
     length (block_connections g b) = held name) /\
  (forall n1 n2 b, m !! n1 = Some b -> m !! n2 = Some b -> n1 = n2) /\
  (forall c, c ∈ connections g -> (c < length (conn_heap g))%nat).

(** ** Example sessions and files *)

Definition three_blocks : list command :=
  [AddBlock (Some "A"); AddBlock (Some "B"); AddBlock (Some "C")].

(** Two connections leaving A, and one coming back from B. *)
Definition small_diagram : HardwareDesignGUI :=
  foldl run init
    (three_blocks ++ [Connect 0%nat 1%nat; Connect 0%nat 2%nat; Connect 1%nat 0%nat]).

(** Three connections from A to B, the second one deleted, then a
    fourth one made. *)
Definition delete_then_connect : list command :=
  three_blocks ++
  [Connect 0%nat 1%nat; Connect 0%nat 1%nat; Connect 0%nat 1%nat;
   DeleteConnection 1%nat true; Connect 0%nat 1%nat].


Definition block_record (name : string) (x : Q) : BlockData.t :=
  BlockData.mk (Some x) (Some (100 # 1)) (Some (150 # 1)) (Some (80 # 1)) (Some name) None None.

Definition fifo_record (name src dst : string) (src_ch dst_ch : Z) : FifoInfo.t :=
  FifoInfo.mk (Some name) (Some src) (Some src_ch) (Some dst) (Some dst_ch)
    (Some 16) (Some 32).

(** A design file with two blocks and sixteen connections between them. *)
Definition sixteen_connections : DesignData.t :=
  DesignData.mk
    (Some [block_record "A" (100 # 1); block_record "B" (300 # 1)])
    (Some ((fun i : nat => fifo_record "FIFO" "A" "B" (Z.of_nat i) (Z.of_nat i)) <$> seq 0 16))
    None.

(** Three connections leaving A, two of them given channel 7 by hand. *)
Definition three_from_one_source : HardwareDesignGUI :=
  foldl run init
    (three_blocks ++
     [Connect 0%nat 1%nat; Connect 0%nat 2%nat; Connect 0%nat 1%nat;
      EditConnection 0%nat "FIFO" 16 32 7 7; EditConnection 1%nat "FIFO" 16 32 7 7]).

(** A JSON object with none of the keys the tool knows. *)
Definition unrecognized_file : DesignData.t := DesignData.mk None None None.

(** A FIFO-format file with one connection. *)
Definition one_fifo_file : DesignData.t :=
  DesignData.mk None (Some [fifo_record "FIFO" "P" "Q" 0 0]) None.

(** * The rest of the editor

    The handlers of [py_pipelingtool.py] that the specification does
    not speak of: pointing at blocks, renumbering, the exporters. *)

(** ** Pointing at a block ([Block.contains_point], [Block.is_resize_handle]) *)

(** [Block.contains_point(x, y)]; the border belongs to the block. *)
Definition Block_contains_point (self : Block.t) (x y : Q) : bool :=
  (Qle_bool (Block.x self) x && Qle_bool x (Block.x self + Block.width self))
  && (Qle_bool (Block.y self) y && Qle_bool y (Block.y self + Block.height self)).

(** [Block.is_resize_handle(x, y)]: the square of side 10 in the
    bottom-right corner. *)
Definition is_resize_handle (self : Block.t) (x y : Q) : bool :=
  let handle_size := 10%Q in
  let handle_x := (Block.x self + Block.width self - handle_size)%Q in
  let handle_y := (Block.y self + Block.height self - handle_size)%Q in
  (Qle_bool handle_x x && Qle_bool x (handle_x + handle_size))
  && (Qle_bool handle_y y && Qle_bool y (handle_y + handle_size)).

(** ** Renumbering ([renumber_blocks] of [show_block_info]) *)

(** [block.number = number]. *)
Definition set_number (number : option Z) (blk : Block.t) : Block.t :=
  Block.mk (Block.x blk) (Block.y blk) (Block.width blk) (Block.height blk)
    (Block.name blk) number (Block.connections blk).

(** [for i, block in enumerate(self.blocks): block.number = i + 1],
    once the dialog is answered yes. *)
Definition renumber_blocks (answer : bool) (g : HardwareDesignGUI) : HardwareDesignGUI :=
  if answer then
    foldl (fun g '(i, block) => update_block block (set_number (Some (Z.of_nat i + 1))) g)
      g (zip (seq 0 (length (blocks g))) (blocks g))
  else g.

(** ** The exporters ([export_connections_json], [export_fifo_format]) *)

(** The [fifo_infos] array both exporters build, one record per entry
    of [self.connections]. *)
Definition export_fifo_infos (g : HardwareDesignGUI) : list FifoInfo.t :=
  omap (fun c => conn_heap g !! c ≫= conn_data g) (connections g).

(** [export_connections_json]: nothing is written for a design without
    connections; otherwise the object handed to [write_compact_json]
    (its [metadata] left out, as everywhere). *)
Definition export_connections_json (g : HardwareDesignGUI) : option DesignData.t :=
  if bool_decide (connections g = []) then None
  else Some (DesignData.mk None (Some (export_fifo_infos g)) None).


(** ** Kinds of commands *)




(** What the editor itself makes of a block: at least 50 by 30, and
    numbered, if at all, from 1 on. *)
Definition valid_block (blk : Block.t) : Prop :=
  (50 <= Block.width blk)%Q /\ (30 <= Block.height blk)%Q /\
  forall n, Block.number blk = Some n -> 1 <= n.
(** ** What the files ask for *)

(** The records [import_connections_json] goes through. *)
Definition import_fields_of (data : DesignData.t) : list import_fields :=
  match DesignData.fifo_infos data, DesignData.connections data with
  | Some l, _ => fields_of_fifo_info <$> l
  | None, Some l => fields_of_legacy <$> l
  | None, None => []
  end.

(** The connection a record of an import asks for, when it names both
    of its blocks: name, source, target, channels, depth and width. *)
Definition fields_tuple (f : import_fields)
    : option (string * string * string * Z * Z * Z * Z) :=
  sn ← if_source f; tn ← if_dest f;
  Some (if_name f, sn, tn, if_source_channel f, if_dest_channel f,
        if_depth f, if_width f).

(** The block an entry of [blocks] asks for, when it has the five keys
    [load_json] reads with [[]]. *)
Definition record_tuple (bd : BlockData.t) : option (string * Q * Q * Q * Q * option Z) :=
  x ← BlockData.x bd; y ← BlockData.y bd;
  width ← BlockData.width bd; height ← BlockData.height bd;
  name ← BlockData.name bd;
  Some (name, x, y, width, height, BlockData.number bd).

(** The first of the five keys that the entry lacks. *)
Definition missing_key (bd : BlockData.t) : string :=
  if BlockData.x bd is None then "x"
  else if BlockData.y bd is None then "y"
  else if BlockData.width bd is None then "width"
  else if BlockData.height bd is None then "height"
  else "name".

(** The connection an entry of [fifo_infos] asks [load_json] for, when
    it has the keys read with [[]]; the channels default to 0. *)
Definition fifo_tuple (fi : FifoInfo.t)
    : option (string * string * string * Z * Z * Z * Z) :=
  name ← FifoInfo.name fi; src ← FifoInfo.src fi; dst ← FifoInfo.dst fi;
  qd ← FifoInfo.qd fi; width ← FifoInfo.width fi;
  Some (name, src, dst, default 0 (FifoInfo.src_ch_num fi),
        default 0 (FifoInfo.dst_ch_num fi), qd, width).




(** Both names of the record are among [names]. *)
Definition known (names : list string) (t : string * string * string * Z * Z * Z * Z)
    : bool :=
  bool_decide ((tuple_ends t).1 ∈ names) && bool_decide ((tuple_ends t).2 ∈ names).
(** ** More example files *)

(** A connections file with one record, from A to B. *)
Definition one_connection_file : DesignData.t :=
  DesignData.mk None (Some [fifo_record "X" "A" "B" 5 6]) None.

(** A design file with two blocks, a connection between them and a
    connection to a block the file does not have. *)
Definition design_with_stray : DesignData.t :=
  DesignData.mk
    (Some [block_record "A" (100 # 1); block_record "B" (300 # 1)])
    (Some [fifo_record "FIFO" "A" "B" 0 0; fifo_record "FIFO" "A" "Z" 1 0])
    None.

(** A design file whose second block has no [y]. *)
Definition design_with_gap : DesignData.t :=
  DesignData.mk
    (Some [block_record "A" (100 # 1);
           BlockData.mk (Some (300 # 1)) None (Some (150 # 1)) (Some (80 # 1))
             (Some "B") None None;
           block_record "C" (500 # 1)])
    (Some [])
    None.


(** ** Properties of the channel search *)

Section lowest.
Implicit Types (used : list Z) (n : Z).

Lemma lowest_from_ge fuel used n : n <= lowest_from fuel used n.
Proof.
  revert n; induction fuel as [|fuel IH]; intros n; simpl; [lia|].
  case_bool_decide; [|lia]. specialize (IH (n + 1)). lia.
Qed.

Lemma lowest_from_below fuel used n m :
  n <= m < lowest_from fuel used n -> m ∈ used.
Proof.
  revert n; induction fuel as [|fuel IH]; intros n; simpl; [lia|].
  case_bool_decide as Hin; [|lia].
  intros Hm. destruct (decide (m = n)) as [->|Hne]; [done|].
  apply (IH (n + 1)). lia.
Qed.

(** Running out of fuel means that [fuel] consecutive integers are
    all in [used]. *)
Lemma lowest_from_exhausted fuel used n :
  lowest_from fuel used n ∈ used ->
  forall k, (k < fuel)%nat -> n + Z.of_nat k ∈ used.
Proof.
  revert n; induction fuel as [|fuel IH]; intros n; simpl; [lia|].
  case_bool_decide as Hin; [|done].
  intros Hres [|k] Hk.
  - by replace (n + Z.of_nat 0) with n by lia.
  - replace (n + Z.of_nat (S k)) with (n + 1 + Z.of_nat k) by lia. apply IH; [done|lia].
Qed.

Lemma lowest_from_not_used used n :
  lowest_from (S (length used)) used n ∉ used.
Proof.
  intros Hres.
  pose proof (lowest_from_exhausted _ _ _ Hres) as Hall.
  set (run := (fun k => n + Z.of_nat k) <$> seq 0 (S (length used))).
  assert (NoDup run) as Hnd.
  { apply NoDup_fmap_2; [|apply NoDup_seq]. intros a b ?; lia. }
  assert (run ⊆ used) as Hsub.
  { intros z [k [-> Hk]]%list_elem_of_fmap.
    apply Hall. apply elem_of_seq in Hk. lia. }
  pose proof (submseteq_length _ _ (NoDup_submseteq _ _ Hnd Hsub)) as Hlen.
  unfold run in Hlen. rewrite length_fmap, length_seq in Hlen. lia.
Qed.

Lemma lowest_available_spec used :
  let r := lowest_available used in
  0 <= r /\ (r ∉ used) /\ forall m, 0 <= m < r -> m ∈ used.
Proof.
  unfold lowest_available; cbv zeta. split; [apply lowest_from_ge|].
  split; [apply lowest_from_not_used|].
  intros m Hm. by apply (lowest_from_below (S (length used)) used 0).
Qed.

(** More fuel than [S (length used)] does not change the result. *)
Lemma lowest_from_fuel fuel used n :
  (length used < fuel)%nat ->
  lowest_from fuel used n = lowest_from (S (length used)) used n.
Proof.
  intros Hf. revert n.
  assert (forall f1 f2 n, lowest_from f1 used n ∉ used ->
            (f1 <= f2)%nat -> lowest_from f2 used n = lowest_from f1 used n) as Hmono.
  { induction f1 as [|f1 IH]; intros f2 n Hout Hle.
    - simpl in *. destruct f2; simpl; [done|]. by rewrite bool_decide_eq_false_2.
    - destruct f2 as [|f2]; [lia|]. simpl in *.
      case_bool_decide; [|done]. apply IH; [done|lia]. }
  intros n. apply Hmono; [apply lowest_from_not_used|lia].
Qed.
End lowest.

(** ** C5: automatic channel assignment *)

Lemma elem_of_used_src_channels g b n :
  n ∈ used_src_channels g b <-> uses_src_channel g b n.
Proof.
  unfold used_src_channels, uses_src_channel. split.
  - destruct (block_heap g !! b) as [blk|] eqn:Hb; [|by intros ?%elem_of_nil].
    intros (c & Hc & Hn)%list_elem_of_omap.
    destruct (conn_heap g !! c) as [conn|] eqn:Hconn; [|done].
    case_bool_decide; [|done]. simplify_eq. by exists blk, c, conn.
  - intros (blk & c & conn & -> & Hc & Hconn & Hs & Hn).
    apply list_elem_of_omap. exists c. split; [done|].
    rewrite Hconn, bool_decide_eq_true_2 by done. by rewrite Hn.
Qed.

Lemma elem_of_used_dst_channels g b n :
  n ∈ used_dst_channels g b <-> uses_dst_channel g b n.
Proof.
  unfold used_dst_channels, uses_dst_channel. split.
  - destruct (block_heap g !! b) as [blk|] eqn:Hb; [|by intros ?%elem_of_nil].
    intros (c & Hc & Hn)%list_elem_of_omap.
    destruct (conn_heap g !! c) as [conn|] eqn:Hconn; [|done].
    case_bool_decide; [|done]. simplify_eq. by exists blk, c, conn.
  - intros (blk & c & conn & -> & Hc & Hconn & Hs & Hn).
    apply list_elem_of_omap. exists c. split; [done|].
    rewrite Hconn, bool_decide_eq_true_2 by done. by rewrite Hn.
Qed.

Lemma lowest_available_least used (P : Z -> Prop) :
  (forall n, n ∈ used <-> P n) -> least_unused P (lowest_available used).
Proof.
  intros HP. destruct (lowest_available_spec used) as (H0 & Hout & Hbelow).
  repeat split; [done| |].
  - by rewrite <- HP.
  - intros m Hm. apply HP. by apply Hbelow.
Qed.

(** C5.  For every block [b], [get_next_available_src_channel]
    returns the least non-negative integer that no connection of
    [b]'s list with source [b] carries as [src_ch_num], and
    [get_next_available_dst_channel] the least one that no connection
    with target [b] carries as [dst_ch_num]. *)
Theorem next_available_channel_least_unused (g : HardwareDesignGUI) (b : block_ref) :
  least_unused (uses_src_channel g b) (get_next_available_src_channel g b) /\
  least_unused (uses_dst_channel g b) (get_next_available_dst_channel g b).
Proof.
  split; apply lowest_available_least; intros n.
  - apply elem_of_used_src_channels.
  - apply elem_of_used_dst_channels.
Qed.

(** The example of the specification: outgoing channels 0, 1 and 3
    yield 2 (and, the roles being independent, incoming channel 0). *)
Example next_available_channel_0_1_3 :
  let blk := Block.mk 0 0 150 80 "A" None [0; 1; 2]%nat in
  let other := Block.mk 300 0 150 80 "B" None [0; 1; 2]%nat in
  let conn n := FIFOConnection.mk 0%nat 1%nat "FIFO" 16 32 n n in
  let g := mkGUI [blk; other] [conn 0; conn 1; conn 3] [0; 1]%nat [0; 1; 2]%nat in
  get_next_available_src_channel g 0%nat = 2 /\
  get_next_available_dst_channel g 0%nat = 0.
Proof. split; reflexivity. Qed.

(** ** C9: the attachment side *)

Lemma Qltb_lt a b : Qltb a b = true <-> (a < b)%Q.
Proof.
  unfold Qltb. rewrite negb_true_iff, <- not_true_iff_false, Qle_bool_iff.
  split; [apply Qnot_le_lt | apply Qlt_not_le].
Qed.

Lemma Qltb_ge a b : Qltb a b = false <-> (b <= a)%Q.
Proof.
  unfold Qltb. rewrite negb_false_iff. apply Qle_bool_iff.
Qed.

(** The code's two-stage computation is [anchor_on] for the side its
    first [if] chain selects. *)
Lemma get_connection_point_anchor self other index total :
  get_connection_point self other index total =
  anchor_on self
    (if Qltb (Block.x other) (Block.x self) then Left
     else if Qltb (Block.x self + Block.width self) (Block.x other) then Right
     else if Qltb (Block.y other) (Block.y self) then Top else Bottom)
    index total.
Proof.
  unfold get_connection_point, anchor_on, spread.
  destruct (Qltb (Block.x other) (Block.x self)); simpl.
  { by destruct (1 <? total). }
  destruct (Qltb (Block.x self + Block.width self) (Block.x other)); simpl.
  { by destruct (1 <? total). }
  destruct (Qltb (Block.y other) (Block.y self)); by destruct (1 <? total).
Qed.

(** C9, as the code has it.  The side is decided by the other block's
    [x] coordinate (its left edge) alone: left when it is strictly
    left of [self.x], right when it is strictly right of
    [self.x + self.width]; only when it lies within
    [[self.x, self.x + self.width]] is the side the top or the bottom
    edge, decided by the other block's [y]. *)
Theorem connection_side_by_left_edge (self other : Block.t) (index total : Z) :
  let p := get_connection_point self other index total in
  ((Block.x other < Block.x self)%Q -> p = anchor_on self Left index total) /\
  ((Block.x self <= Block.x other)%Q ->
   (Block.x self + Block.width self < Block.x other)%Q ->
   p = anchor_on self Right index total) /\
  ((Block.x self <= Block.x other)%Q ->
   (Block.x other <= Block.x self + Block.width self)%Q ->
   p = anchor_on self
         (if Qltb (Block.y other) (Block.y self) then Top else Bottom) index total).
Proof.
  cbv zeta. rewrite get_connection_point_anchor. repeat split.
  - intros Hl%Qltb_lt. by rewrite Hl.
  - intros Hge%Qltb_ge Hr%Qltb_lt. by rewrite Hge, Hr.
  - intros Hge%Qltb_ge Hle%Qltb_ge. by rewrite Hge, Hle.
Qed.

Lemma connection_side_by_left_edge_witness :
  let self := Block.mk 100 100 150 80 "A" None [] in
  let other := Block.mk 120 300 150 80 "B" None [] in
  get_connection_point self other 0 1 = anchor_on self Bottom 0 1.
Proof.
  cbv zeta.
  refine (proj2 (proj2 (connection_side_by_left_edge _ _ 0 1)) _ _);
    unfold Qle; simpl; lia.
Defined.

(** C9, as stated, fails: two blocks whose horizontal extents overlap,
    the other one starting left of [self], are joined on [self]'s left
    edge, not on its top or bottom edge. *)
Lemma overlapping_blocks_attach_left :
  let self := Block.mk 100 100 150 80 "A" None [] in
  let other := Block.mk 50 300 150 80 "B" None [] in
  let p := get_connection_point self other 0 1 in
  horizontally_overlap self other /\
  p = anchor_on self Left 0 1 /\
  ~ on_side self Top p /\ ~ on_side self Bottom p.
Proof.
  cbv zeta. repeat split; try (unfold Qle; simpl; lia); try reflexivity.
  - unfold on_side, Qeq; simpl; lia.
  - unfold on_side, Qeq; simpl; lia.
Qed.

(** ** C7: straight and curved paths *)




Lemma control_offset_sign index :
  (Nat.odd index = true -> 0 < control_offset index) /\
  (Nat.odd index = false -> control_offset index < 0).
Proof. unfold control_offset. split; intros ->; lia. Qed.





(** ** C6: names given to new connections *)

Lemma fifo_name_first_three :
  fifo_name 0 = "FIFO" /\ fifo_name 1 = "FIFO_2" /\ fifo_name 2 = "FIFO_3".
Proof. by vm_compute. Qed.

Lemma FIFOConnection_init_lookup s t name depth width sc dc g :
  let '(c, g') := FIFOConnection_init s t name depth width sc dc g in
  c = length (conn_heap g) /\
  conn_heap g' !! c =
    Some (FIFOConnection.mk s t name depth width
            (from_option id (get_next_available_src_channel g s) sc)
            (from_option id (get_next_available_dst_channel g t) dc)) /\
  (forall c', (c' < c)%nat -> conn_heap g' !! c' = conn_heap g !! c') /\
  blocks g' = blocks g /\ connections g' = connections g.
Proof.
  unfold FIFOConnection_init. simpl. repeat split.
  - rewrite lookup_app_r, Nat.sub_diag by done. simpl. by destruct sc, dc.
  - intros c' Hc'. by rewrite lookup_app_l.
Qed.

(** The part of C6 that holds: a connection made between [s] and [t]
    when [n] connections of the diagram already join the two blocks,
    in either direction, is called [FIFO] for [n = 0] and
    [FIFO_<n+1>] otherwise, whatever else the diagram contains. *)
Lemma create_connection_name s t g g' :
  create_connection_between_blocks s t g = (g', true) ->
  exists c conn,
    connections g' = connections g ++ [c] /\ conn_heap g' !! c = Some conn /\
    FIFOConnection.source_block conn = s /\ FIFOConnection.target_block conn = t /\
    FIFOConnection.name conn = fifo_name (existing_connections g s t).
Proof.
  unfold create_connection_between_blocks.
  destruct (_ && _); [|done].
  pose proof (FIFOConnection_init_lookup s t
                (fifo_name (existing_connections g s t)) 16 32 None None g) as H.
  destruct (FIFOConnection_init _ _ _ _ _ _ _ g) as [c g1].
  destruct H as (_ & Hc & _ & _ & Hconns). intros [= <-].
  eexists c, _. simpl. rewrite Hconns. repeat split; [apply Hc|..]; done.
Qed.

(** C6 on the session [delete_then_connect]: after FIFO, FIFO_2 and
    FIFO_3 were made between A and B and FIFO_2 deleted, the next
    connection between them finds two connections and is called
    FIFO_3 again; the name is not unique among the pair's
    connections. *)
Theorem fifo_name_repeated_after_delete :
  let g := foldl run init delete_then_connect in
  names_between g 0%nat 1%nat = ["FIFO"; "FIFO_3"; "FIFO_3"] /\
  ~ NoDup (names_between g 0%nat 1%nat).
Proof.
  cbv zeta. assert (names_between (foldl run init delete_then_connect) 0%nat 1%nat
                    = ["FIFO"; "FIFO_3"; "FIFO_3"]) as -> by by vm_compute.
  split; [done|]. intros Hnd. apply NoDup_cons in Hnd as [_ Hnd].
  apply NoDup_cons in Hnd as [Hnot _]. apply Hnot. by left.
Qed.

(** ** C3: fifteen connections per block *)

(** The part of C3 about [create_connection_between_blocks]: when
    either block already holds fifteen connections the call fails and
    the state is the one it was given. *)
Lemma create_connection_at_capacity s t g :
  can_add_connection g s = false \/ can_add_connection g t = false ->
  create_connection_between_blocks s t g = (g, false).
Proof.
  unfold create_connection_between_blocks.
  intros [->| ->]; by rewrite ?andb_false_r.
Qed.

(** C3 on the file [sixteen_connections]: [load_json] attaches every
    connection it reads without asking [can_add_connection], as the
    two import commands do, and leaves block A with sixteen
    connections. *)
Theorem load_json_exceeds_capacity :
  let g := (load_json true sixteen_connections init).1 in
  reachable g /\
  blocks g = [0; 1]%nat /\
  (length ∘ Block.connections <$> block_heap g !! 0%nat) = Some 16%nat /\
  (load_json true sixteen_connections init).2 = Success.
Proof.
  cbv zeta. split; [by exists [LoadJson true sixteen_connections]|].
  by vm_compute.
Qed.

(** ** C4: files with no recognized key *)

Lemma import_connections_json_unrecognized data g :
  DesignData.fifo_infos data = None -> DesignData.connections data = None ->
  (import_connections_json data g).1 = g.
Proof. unfold import_connections_json. by intros -> ->. Qed.

Lemma import_fifo_format_unrecognized answer data g :
  DesignData.fifo_infos data = None -> (import_fifo_format answer data g).1 = g.
Proof. unfold import_fifo_format. by intros ->. Qed.

(** [load_json] clears the design before it looks for the [blocks] key. *)
Lemma load_json_unrecognized answer data g :
  DesignData.blocks data = None ->
  load_json answer data g = (new_design answer g, Error "Invalid JSON format").
Proof.
  unfold load_json, load_json_body. intros ->. reflexivity.
Qed.

(** C4 on [unrecognized_file]: loading it over [small_diagram], the
    clearing confirmed, reports the format error with all three blocks
    and all three connections gone, whereas the two import commands
    leave the diagram as it was. *)
Theorem load_json_format_error_clears :
  let g := small_diagram in
  blocks g = [0; 1; 2]%nat /\ connections g = [0; 1; 2]%nat /\
  (load_json true unrecognized_file g).2 = Error "Invalid JSON format" /\
  blocks (load_json true unrecognized_file g).1 = [] /\
  connections (load_json true unrecognized_file g).1 = [] /\
  (import_connections_json unrecognized_file g).1 = g /\
  (import_fifo_format true unrecognized_file g).1 = g.
Proof. cbv zeta. by vm_compute. Qed.

(** ** C2: uniqueness of channel numbers *)


(** ** C10: importing a FIFO-format file *)


(** ** C1: saving and loading a design *)

Lemma omap_omap {A B C} (f : A -> option B) (h : B -> option C) (l : list A) :
  omap h (omap f l) = omap (fun x => f x ≫= h) l.
Proof.
  induction l as [|x l IH]; [done|]. csimpl.
  destruct (f x) as [y|]; csimpl; [|done]. destruct (h y); by rewrite IH.
Qed.

Lemma conn_data_tuple g conn : conn_data g conn = info_of_tuple <$> conn_tuple g conn.
Proof.
  unfold conn_data, conn_tuple.
  destruct (block_heap g !! FIFOConnection.source_block conn); [|done]. simpl.
  by destruct (block_heap g !! FIFOConnection.target_block conn).
Qed.

Lemma save_json_fifo_infos g :
  DesignData.fifo_infos (save_json g) = Some (info_of_tuple <$> conn_tuples g).
Proof.
  unfold save_json, conn_tuples, diagram_connections. simpl. f_equal.
  rewrite omap_omap, list_fmap_omap. apply list_omap_ext, Forall2_same_length_lookup_2; [done|].
  intros i c c' Hc Hc'. simplify_eq.
  destruct (conn_heap g !! c); simpl; [apply conn_data_tuple|done].
Qed.


Lemma M_bind_ok {A B} (m : M A) (f : A -> M B) g g' a :
  m g = (g', inr a) -> (m ≫= f) g = f a g'.
Proof. unfold mbind, M_bind. by intros ->. Qed.

Lemma M_bind_raise {A B} (m : M A) (f : A -> M B) g g' e :
  m g = (g', inl e) -> (m ≫= f) g = (g', inl e).
Proof. unfold mbind, M_bind. by intros ->. Qed.

Lemma fold_each_cons {X A} (body : A -> X -> M A) acc x l g :
  fold_each body acc (x :: l) g =
  match body acc x g with
  | (g', inr acc') => fold_each body acc' l g'
  | (g', inl e) => (g', inl e)
  end.
Proof. reflexivity. Qed.



(** Projections of the setters. *)
Lemma block_heap_set_connections l g : block_heap (set_connections l g) = block_heap g.
Proof. done. Qed.
Lemma block_heap_set_blocks l g : block_heap (set_blocks l g) = block_heap g.
Proof. done. Qed.
Lemma block_heap_set_conn_heap h g : block_heap (set_conn_heap h g) = block_heap g.
Proof. done. Qed.
Lemma block_heap_set_block_heap h g : block_heap (set_block_heap h g) = h.
Proof. done. Qed.
Lemma conn_heap_attach b c g : conn_heap (attach b c g) = conn_heap g.
Proof. done. Qed.
Lemma blocks_attach b c g : blocks (attach b c g) = blocks g.
Proof. done. Qed.
Lemma connections_attach b c g : connections (attach b c g) = connections g.
Proof. done. Qed.
Lemma conn_heap_detach b c g : conn_heap (detach b c g) = conn_heap g.
Proof. done. Qed.
Lemma blocks_detach b c g : blocks (detach b c g) = blocks g.
Proof. done. Qed.
Lemma connections_detach b c g : connections (detach b c g) = connections g.
Proof. done. Qed.

(** Changing connection lists leaves everything else about a block
    as it was. *)
Lemma alter_connections_fmap {A} (f : Block.t -> A) (k : list conn_ref -> list conn_ref)
    (h : list Block.t) b b' :
  (forall l blk, f (Block.set_connections l blk) = f blk) ->
  f <$> alter (fun blk => Block.set_connections (k (Block.connections blk)) blk) b h !! b'
  = f <$> h !! b'.
Proof.
  intros Hf. destruct (decide (b = b')) as [->|Hne].
  - rewrite list_lookup_alter_eq. destruct (h !! b'); simpl; [|done]. f_equal. apply Hf.
  - by rewrite list_lookup_alter_ne.
Qed.

Lemma attach_lookup_fmap {A} (f : Block.t -> A) b c g b' :
  (forall l blk, f (Block.set_connections l blk) = f blk) ->
  f <$> block_heap (attach b c g) !! b' = f <$> block_heap g !! b'.
Proof.
  intros Hf. unfold attach. simpl.
  by apply (alter_connections_fmap f (fun l => l ++ [c])).
Qed.

Lemma conn_tuple_names g conn :
  conn_tuple g conn =
  sn ← Block.name <$> block_heap g !! FIFOConnection.source_block conn;
  tn ← Block.name <$> block_heap g !! FIFOConnection.target_block conn;
  Some (FIFOConnection.name conn, sn, tn,
        FIFOConnection.src_ch_num conn, FIFOConnection.dst_ch_num conn,
        FIFOConnection.depth conn, FIFOConnection.width conn).
Proof.
  unfold conn_tuple.
  destruct (block_heap g !! FIFOConnection.source_block conn); [|done]. simpl.
  by destruct (block_heap g !! FIFOConnection.target_block conn).
Qed.

Lemma conn_tuple_ext g g' conn :
  (forall b, Block.name <$> block_heap g' !! b = Block.name <$> block_heap g !! b) ->
  conn_tuple g' conn = conn_tuple g conn.
Proof. intros Hn. by rewrite !conn_tuple_names, !Hn. Qed.

Lemma block_tuples_ext g g' :
  blocks g' = blocks g ->
  (forall b, block_tuple <$> block_heap g' !! b = block_tuple <$> block_heap g !! b) ->
  block_tuples g' = block_tuples g.
Proof.
  intros Hb Hi. unfold block_tuples, diagram_blocks.
  rewrite !list_fmap_omap, Hb. apply list_omap_ext, Forall2_same_length_lookup_2; [done|].
  intros i b b' ? ?. simplify_eq. apply Hi.
Qed.

Lemma append_new_connection_given s t name depth width sc dc g :
  append_new_connection s t name depth width (Some sc) (Some dc) g =
  (set_connections (connections g ++ [length (conn_heap g)])
     (attach t (length (conn_heap g)) (attach s (length (conn_heap g))
        (set_conn_heap
           (conn_heap g ++ [FIFOConnection.mk s t name depth width sc dc]) g))),
   inr tt).
Proof. reflexivity. Qed.

Lemma append_new_connection_tuples s t name depth width sc dc g sn tn :
  (forall c, c ∈ connections g -> (c < length (conn_heap g))%nat) ->
  Block.name <$> block_heap g !! s = Some sn ->
  Block.name <$> block_heap g !! t = Some tn ->
  let g' := (append_new_connection s t name depth width (Some sc) (Some dc) g).1 in
  conn_tuples g' = conn_tuples g ++ [(name, sn, tn, sc, dc, depth, width)] /\
  block_tuples g' = block_tuples g /\
  blocks g' = blocks g /\
  (forall b, Block.name <$> block_heap g' !! b = Block.name <$> block_heap g !! b) /\
  (forall c, c ∈ connections g' -> (c < length (conn_heap g'))%nat).
Proof.
  intros Hvalid Hs Ht. rewrite append_new_connection_given. cbv zeta. cbn [fst].
  set (n := length (conn_heap g)).
  set (conn := FIFOConnection.mk s t name depth width sc dc).
  set (g' := set_connections _ _).
  assert (forall A (f : Block.t -> A),
            (forall l blk, f (Block.set_connections l blk) = f blk) ->
            forall b, f <$> block_heap g' !! b = f <$> block_heap g !! b) as Hframe.
  { intros A f Hf b. unfold g'.
    by rewrite block_heap_set_connections, !attach_lookup_fmap. }
  assert (forall b, Block.name <$> block_heap g' !! b = Block.name <$> block_heap g !! b)
    as Hnames by by apply Hframe.
  split_and!; try done.
  - assert (connections g' = connections g ++ [n]) as Hconns by done.
    assert (conn_heap g' = conn_heap g ++ [conn]) as Hch by done.
    unfold conn_tuples, diagram_connections. rewrite Hconns, Hch, !omap_app. f_equal.
    + rewrite !omap_omap. apply list_omap_ext, Forall2_same_length_lookup_2; [done|].
      intros i c c' Hc ?. simplify_eq.
      rewrite lookup_app_l by (apply Hvalid; eapply list_elem_of_lookup_2; done).
      assert (forall o : option FIFOConnection.t,
                o ≫= conn_tuple g' = o ≫= conn_tuple g) as Hbind.
      { intros [x|]; csimpl; [by apply conn_tuple_ext|done]. }
      apply Hbind.
    + csimpl. rewrite lookup_app_r, Nat.sub_diag by done. csimpl.
      rewrite (conn_tuple_ext g) by done. rewrite conn_tuple_names. simpl.
      by rewrite Hs, Ht.
  - apply block_tuples_ext; [done|]. by apply Hframe.
  - assert (connections g' = connections g ++ [n]) as -> by done.
    assert (conn_heap g' = conn_heap g ++ [conn]) as -> by done.
    intros c [Hc| ->%list_elem_of_singleton]%elem_of_app;
      rewrite length_app; simpl; [|fold n; lia].
    specialize (Hvalid _ Hc). lia.
Qed.

Lemma load_fifo_tuple m name sn tn sc dc depth width bs bt g :
  m !! sn = Some bs -> m !! tn = Some bt ->
  load_fifo m (info_of_tuple (name, sn, tn, sc, dc, depth, width)) g =
  append_new_connection bs bt name depth width (Some sc) (Some dc) g.
Proof.
  intros Hs Ht. unfold load_fifo, info_of_tuple, mbind, M_bind, key. simpl.
  by rewrite Hs, Ht.
Qed.


Lemma omap_lookup_fresh {A} (h new : list A) :
  omap (fun b => (h ++ new) !! b) (seq (length h) (length new)) = new.
Proof.
  revert h. induction new as [|x new IH]; intros h; [done|].
  csimpl. rewrite lookup_app_r, Nat.sub_diag by done. csimpl. f_equal.
  specialize (IH (h ++ [x])). rewrite length_app, Nat.add_1_r, <- app_assoc in IH.
  done.
Qed.


(** ** Structural invariants *)

Lemma py_remove_not_in c l : c ∉ l -> py_remove c l = l.
Proof.
  induction l as [|h t IH]; [done|]. intros [Hne Hnin]%not_elem_of_cons. simpl.
  rewrite bool_decide_eq_false_2 by done. by rewrite IH.
Qed.

Lemma py_remove_Permutation c l : c ∈ l -> l ≡ₚ c :: py_remove c l.
Proof.
  induction l as [|h t IH]; [by intros ?%elem_of_nil|]. simpl.
  case_bool_decide as Hh; [by subst|].
  intros [?|Hin]%elem_of_cons; [done|]. rewrite (IH Hin) at 1. apply Permutation_swap.
Qed.

Lemma py_remove_cons_inv c l l' : l ≡ₚ c :: l' -> py_remove c l ≡ₚ l'.
Proof.
  intros Hp. apply (Permutation_cons_inv (a := c)).
  rewrite <- py_remove_Permutation; [done|]. rewrite Hp. by left.
Qed.

Lemma py_remove_elem_of c l x : x ∈ py_remove c l -> x ∈ l.
Proof.
  induction l as [|h t IH]; [done|]. simpl. case_bool_decide.
  - by right.
  - intros [->|?]%elem_of_cons; [by left|]. right. by apply IH.
Qed.

Lemma py_remove_NoDup c l : NoDup l -> NoDup (py_remove c l).
Proof.
  induction 1 as [|h t Hnin Hnd IH]; simpl; [constructor|].
  case_bool_decide; [done|]. constructor; [|done].
  intros Hin. by apply Hnin, (py_remove_elem_of c).
Qed.

Lemma py_remove_NoDup_elem_of c l x :
  NoDup l -> x ∈ py_remove c l <-> x ∈ l /\ x <> c.
Proof.
  induction 1 as [|h t Hnin Hnd IH]; simpl.
  - split; [by intros ?%elem_of_nil|by intros [?%elem_of_nil _]].
  - case_bool_decide as Hh.
    + subst h. split.
      * intros Hx. split; [by right|]. by intros ->.
      * intros [[->|?]%elem_of_cons Hne]; done.
    + rewrite !elem_of_cons, IH. split.
      * intros [->|[? ?]]; split; auto.
      * intros [[->|?] ?]; auto.
Qed.

(** The connection list of a block after [attach] and [detach]. *)
Lemma block_connections_attach b c g b' :
  is_Some (block_heap g !! b) ->
  block_connections (attach b c g) b' =
  block_connections g b' ++ (if bool_decide (b = b') then [c] else []).
Proof.
  intros [blk Hb]. unfold block_connections, attach. rewrite block_heap_set_block_heap.
  case_bool_decide as Hbb.
  - subst b'. rewrite list_lookup_alter_eq, Hb. reflexivity.
  - rewrite list_lookup_alter_ne by done. by rewrite app_nil_r.
Qed.

Lemma block_connections_detach b c g b' :
  block_connections (detach b c g) b' =
  if bool_decide (b = b') then py_remove c (block_connections g b')
  else block_connections g b'.
Proof.
  unfold block_connections, detach. rewrite block_heap_set_block_heap.
  case_bool_decide as Hbb.
  - subst b'. rewrite list_lookup_alter_eq. by destruct (block_heap g !! b).
  - by rewrite list_lookup_alter_ne.
Qed.

Lemma block_heap_attach_is_Some b c g b' :
  is_Some (block_heap (attach b c g) !! b') <-> is_Some (block_heap g !! b').
Proof.
  unfold attach. rewrite block_heap_set_block_heap, !lookup_lt_is_Some, length_alter. done.
Qed.

Lemma block_heap_detach_is_Some b c g b' :
  is_Some (block_heap (detach b c g) !! b') <-> is_Some (block_heap g !! b').
Proof.
  unfold detach. rewrite block_heap_set_block_heap, !lookup_lt_is_Some, length_alter. done.
Qed.

(** [incident_among] along the list. *)
Lemma incident_among_nil g b : incident_among g [] b = [].
Proof. done. Qed.

Lemma incident_among_cons g c l b :
  incident_among g (c :: l) b =
  from_option (touching b c) [] (conn_heap g !! c) ++ incident_among g l b.
Proof. done. Qed.

Lemma incident_among_app g l1 l2 b :
  incident_among g (l1 ++ l2) b = incident_among g l1 b ++ incident_among g l2 b.
Proof. unfold incident_among. apply bind_app. Qed.

Lemma elem_of_touching b c conn x : x ∈ touching b c conn -> x = c.
Proof.
  unfold touching. intros [Hx|Hx]%elem_of_app; case_bool_decide;
    by first [apply elem_of_nil in Hx|apply list_elem_of_singleton in Hx].
Qed.

Lemma elem_of_incident_among g l b x : x ∈ incident_among g l b -> x ∈ l.
Proof.
  unfold incident_among. intros (c & Hx & Hc)%list_elem_of_bind.
  destruct (conn_heap g !! c) as [conn|]; simpl in Hx; [|by apply elem_of_nil in Hx].
  by apply elem_of_touching in Hx as ->.
Qed.

Lemma touching_ends b c conn conn' :
  ends_of conn = ends_of conn' -> touching b c conn = touching b c conn'.
Proof. unfold ends_of, touching. by intros [= -> ->]. Qed.

Lemma incident_among_ext g g' l b :
  (forall c, c ∈ l -> ends_of <$> conn_heap g' !! c = ends_of <$> conn_heap g !! c) ->
  incident_among g' l b = incident_among g l b.
Proof.
  induction l as [|c l IH]; intros Hext; [done|].
  rewrite !incident_among_cons. rewrite IH by (intros; apply Hext; by right). f_equal.
  specialize (Hext c ltac:(by left)).
  destruct (conn_heap g' !! c) as [x'|], (conn_heap g !! c) as [x|];
    simpl in Hext; try done.
  apply touching_ends. congruence.
Qed.

Lemma incident_among_Permutation g l l' b :
  l ≡ₚ l' -> incident_among g l b ≡ₚ incident_among g l' b.
Proof. unfold incident_among. by intros ->. Qed.

Lemma block_connections_fmap g b :
  block_connections g b = default [] (Block.connections <$> block_heap g !! b).
Proof. unfold block_connections. by destruct (block_heap g !! b). Qed.

Lemma incident_among_untouched g l b :
  (forall c conn, c ∈ l -> conn_heap g !! c = Some conn ->
     FIFOConnection.source_block conn <> b /\ FIFOConnection.target_block conn <> b) ->
  incident_among g l b = [].
Proof.
  induction l as [|c l IH]; intros Hno; [done|].
  rewrite incident_among_cons, IH by (intros; eapply Hno; [by right|done]).
  rewrite app_nil_r. destruct (conn_heap g !! c) as [conn|] eqn:Hc; [|done].
  destruct (Hno c conn) as [Hs Ht]; [by left|done|].
  unfold touching. simpl. by rewrite !bool_decide_eq_false_2.
Qed.

Lemma well_formed_init : well_formed init.
Proof.
  split; simpl.
  - by intros c ?%elem_of_nil.
  - by intros b ?%elem_of_nil.
  - constructor.
  - by intros b ?%elem_of_nil.
Qed.

Lemma well_formed_valid_connection g c :
  well_formed g -> c ∈ connections g -> (c < length (conn_heap g))%nat.
Proof.
  intros Hwf Hc. destruct (wf_connections g Hwf c Hc) as (conn & Hconn & _).
  by apply lookup_lt_Some in Hconn.
Qed.

Lemma well_formed_valid_block g b :
  well_formed g -> b ∈ blocks g -> (b < length (block_heap g))%nat.
Proof. intros Hwf Hb. by apply lookup_lt_is_Some, (wf_blocks g Hwf). Qed.

(** States that agree on the two lists, on the connection list of
    every block and on the end points of every connection are
    well-formed together. *)
Lemma well_formed_ext g g' :
  blocks g' = blocks g -> connections g' = connections g ->
  (forall b, Block.connections <$> block_heap g' !! b
             = Block.connections <$> block_heap g !! b) ->
  (forall c, ends_of <$> conn_heap g' !! c = ends_of <$> conn_heap g !! c) ->
  well_formed g -> well_formed g'.
Proof.
  intros Hb Hc Hlists Hends Hwf. split.
  - rewrite Hc, Hb. intros c Hin.
    destruct (wf_connections g Hwf c Hin) as (conn & Hconn & Hs & Ht).
    specialize (Hends c). rewrite Hconn in Hends.
    destruct (conn_heap g' !! c) as [conn'|]; [|done].
    injection Hends as Hs' Ht'. exists conn'. by rewrite Hs', Ht'.
  - rewrite Hb. intros b Hin. destruct (wf_blocks g Hwf b Hin) as [blk Hblk].
    specialize (Hlists b). rewrite Hblk in Hlists.
    by destruct (block_heap g' !! b).
  - rewrite Hc. apply Hwf.
  - rewrite Hb. intros b Hin. rewrite !block_connections_fmap, Hlists.
    rewrite <- block_connections_fmap, (wf_incident g Hwf b Hin).
    unfold incident. rewrite Hc. by rewrite (incident_among_ext g g').
Qed.

Lemma well_formed_update_block b f g :
  (forall blk, Block.connections (f blk) = Block.connections blk) ->
  well_formed g -> well_formed (update_block b f g).
Proof.
  intros Hf. apply well_formed_ext; try done.
  intros b'. unfold update_block. rewrite block_heap_set_block_heap.
  destruct (decide (b = b')) as [->|Hne].
  - rewrite list_lookup_alter_eq. destruct (block_heap g !! b'); simpl; [|done].
    by rewrite Hf.
  - by rewrite list_lookup_alter_ne.
Qed.

Lemma well_formed_apply_changes c name depth width sc dc g :
  well_formed g -> well_formed (apply_changes c name depth width sc dc g).
Proof.
  unfold apply_changes. repeat case_match; try done.
  apply well_formed_ext; try done.
  intros c'. simpl. destruct (decide (c = c')) as [->|Hne].
  - rewrite list_lookup_alter_eq. by destruct (conn_heap g !! c').
  - by rewrite list_lookup_alter_ne.
Qed.

Lemma well_formed_new_design answer g :
  well_formed g -> well_formed (new_design answer g).
Proof.
  intros Hwf. unfold new_design. case_match; [done|]. split; simpl.
  - by intros c ?%elem_of_nil.
  - by intros b ?%elem_of_nil.
  - constructor.
  - by intros b ?%elem_of_nil.
Qed.

Lemma well_formed_append_block blk g :
  Block.connections blk = [] ->
  well_formed g ->
  well_formed (set_blocks (blocks g ++ [length (block_heap g)])
                 (set_block_heap (block_heap g ++ [blk]) g)).
Proof.
  intros Hblk Hwf. split; simpl.
  - intros c Hc. destruct (wf_connections g Hwf c Hc) as (conn & Hconn & Hs & Ht).
    exists conn. rewrite !elem_of_app. auto.
  - intros b [Hb| ->%list_elem_of_singleton]%elem_of_app.
    + rewrite lookup_app_l by by apply well_formed_valid_block.
      by apply (wf_blocks g Hwf).
    + rewrite lookup_app_r, Nat.sub_diag by done. by eexists.
  - apply Hwf.
  - intros b [Hb| ->%list_elem_of_singleton]%elem_of_app.
    + unfold block_connections. simpl.
      rewrite lookup_app_l by by apply well_formed_valid_block.
      apply (wf_incident g Hwf b Hb).
    + unfold block_connections, incident. simpl.
      rewrite lookup_app_r, Nat.sub_diag by done. simpl. rewrite Hblk.
      rewrite incident_among_untouched; [done|].
      intros c conn Hc Hconn. simpl in Hconn.
      destruct (wf_connections g Hwf c Hc) as (conn' & Hconn' & Hs & Ht).
      simplify_eq. apply (well_formed_valid_block g _ Hwf) in Hs, Ht. lia.
Qed.

(** The state after [FIFOConnection(...)] and
    [self.connections.append(conn)], whatever channels are given or
    chosen. *)
Lemma append_new_connection_state s t name depth width sc dc g :
  exists sc' dc',
    sc' = from_option id (get_next_available_src_channel g s) sc /\
    dc' = from_option id (get_next_available_dst_channel g t) dc /\
    append_new_connection s t name depth width sc dc g =
    (set_connections (connections g ++ [length (conn_heap g)])
       (attach t (length (conn_heap g)) (attach s (length (conn_heap g))
          (set_conn_heap
             (conn_heap g ++ [FIFOConnection.mk s t name depth width sc' dc']) g))),
     inr tt).
Proof. eexists _, _. split; [done|]. split; [done|]. by destruct sc, dc. Qed.

Lemma well_formed_link conn g :
  well_formed g ->
  FIFOConnection.source_block conn ∈ blocks g ->
  FIFOConnection.target_block conn ∈ blocks g ->
  well_formed
    (set_connections (connections g ++ [length (conn_heap g)])
       (attach (FIFOConnection.target_block conn) (length (conn_heap g))
          (attach (FIFOConnection.source_block conn) (length (conn_heap g))
             (set_conn_heap (conn_heap g ++ [conn]) g)))).
Proof.
  intros Hwf Hs Ht. set (n := length (conn_heap g)).
  set (g1 := set_conn_heap (conn_heap g ++ [conn]) g).
  set (s := FIFOConnection.source_block conn) in *.
  set (t := FIFOConnection.target_block conn) in *.
  assert (forall c, c ∈ connections g -> conn_heap g1 !! c = conn_heap g !! c) as Hold.
  { intros c Hc. unfold g1. simpl.
    by rewrite lookup_app_l by by apply well_formed_valid_connection. }
  assert (conn_heap g1 !! n = Some conn) as Hnew.
  { unfold g1, n. simpl. by rewrite lookup_app_r, Nat.sub_diag. }
  split.
  - intros c [Hc| ->%list_elem_of_singleton]%elem_of_app.
    + destruct (wf_connections g Hwf c Hc) as (conn' & Hconn' & ? & ?).
      exists conn'. split; [|done]. by rewrite <- Hold in Hconn'.
    + by exists conn.
  - intros b Hb. apply block_heap_attach_is_Some, block_heap_attach_is_Some.
    by apply (wf_blocks g Hwf).
  - apply NoDup_app. split; [apply Hwf|]. split; [|apply NoDup_singleton].
    intros c Hc ->%list_elem_of_singleton.
    apply (well_formed_valid_connection g _ Hwf) in Hc. unfold n in Hc. lia.
  - intros b Hb.
    change (block_connections (attach t n (attach s n g1)) b ≡ₚ
            incident_among g1 (connections g ++ [n]) b).
    rewrite block_connections_attach
      by by apply block_heap_attach_is_Some, (wf_blocks g Hwf).
    rewrite block_connections_attach by by apply (wf_blocks g Hwf).
    rewrite incident_among_app, incident_among_cons, incident_among_nil, Hnew.
    rewrite app_nil_r, <- app_assoc. simpl.
    apply Permutation_app; [|done].
    change (block_connections g1 b) with (block_connections g b).
    rewrite (wf_incident g Hwf b Hb). unfold incident.
    rewrite (incident_among_ext g g1); [done|].
    intros c Hc. by rewrite Hold.
Qed.

Lemma well_formed_append_connection s t name depth width sc dc g :
  well_formed g -> s ∈ blocks g -> t ∈ blocks g ->
  well_formed (append_new_connection s t name depth width sc dc g).1 /\
  blocks (append_new_connection s t name depth width sc dc g).1 = blocks g.
Proof.
  intros Hwf Hs Ht.
  destruct (append_new_connection_state s t name depth width sc dc g)
    as (sc' & dc' & _ & _ & ->).
  split; [|done]. by apply (well_formed_link (FIFOConnection.mk s t _ _ _ _ _)).
Qed.

(** Taking one connection out of the lists of its two blocks. *)
Lemma detach_both_incident g c conn b (rest : list conn_ref) :
  block_connections g b ≡ₚ touching b c conn ++ rest ->
  block_connections
    (detach (FIFOConnection.target_block conn) c
       (detach (FIFOConnection.source_block conn) c g)) b ≡ₚ rest.
Proof.
  rewrite !block_connections_detach. unfold touching.
  repeat case_bool_decide; simpl; intros Hp.
  - by do 2 apply py_remove_cons_inv.
  - by apply py_remove_cons_inv.
  - by apply py_remove_cons_inv.
  - done.
Qed.

Lemma well_formed_delete_connection c confirm answer g :
  well_formed g -> well_formed (delete_connection c confirm answer g).
Proof.
  intros Hwf. unfold delete_connection. case_match; [done|].
  destruct (conn_heap g !! c) as [conn|] eqn:Hconn; [|done].
  set (s := FIFOConnection.source_block conn).
  set (t := FIFOConnection.target_block conn).
  split.
  - intros c' Hc'%py_remove_elem_of. apply (wf_connections g Hwf c' Hc').
  - intros b Hb. apply block_heap_detach_is_Some, block_heap_detach_is_Some.
    by apply (wf_blocks g Hwf).
  - apply py_remove_NoDup, Hwf.
  - intros b Hb.
    change (block_connections (detach t c (detach s c g)) b ≡ₚ
            incident_among g (py_remove c (connections g)) b).
    destruct (decide (c ∈ connections g)) as [Hin|Hnin].
    + apply (detach_both_incident g c conn b).
      rewrite (wf_incident g Hwf b Hb). unfold incident.
      rewrite (incident_among_Permutation g _ _ b (py_remove_Permutation c _ Hin)).
      by rewrite incident_among_cons, Hconn.
    + rewrite py_remove_not_in by done.
      rewrite !block_connections_detach.
      assert (c ∉ block_connections g b) as Hnotin.
      { rewrite (wf_incident g Hwf b Hb). by intros ?%elem_of_incident_among. }
      repeat case_bool_decide;
        rewrite ?(py_remove_not_in c (block_connections g b)) by done;
        by apply (wf_incident g Hwf).
Qed.

Lemma foldl_delete_connection l g :
  well_formed g ->
  let g' := foldl (fun g c => delete_connection c false false g) g l in
  well_formed g' /\ blocks g' = blocks g /\ conn_heap g' = conn_heap g /\
  (forall c, c ∈ connections g' <-> c ∈ connections g /\ c ∉ l).
Proof.
  revert g. induction l as [|c l IH]; intros g Hwf; simpl.
  - split; [done|]. split; [done|]. split; [done|]. intros c.
    split; [|by intros [? _]]. intros ?. split; [done|]. by intros ?%elem_of_nil.
  - pose proof (well_formed_delete_connection c false false g Hwf) as Hwf1.
    destruct (IH _ Hwf1) as (Hwf' & Hb & Hh & Hc). split; [done|].
    assert (blocks (delete_connection c false false g) = blocks g /\
            conn_heap (delete_connection c false false g) = conn_heap g /\
            connections (delete_connection c false false g)
            = match conn_heap g !! c with
              | Some _ => py_remove c (connections g)
              | None => connections g
              end) as (Hb1 & Hh1 & Hc1).
    { unfold delete_connection. simpl. by destruct (conn_heap g !! c). }
    rewrite Hb, Hh, Hb1, Hh1. split; [done|]. split; [done|].
    intros c'. rewrite Hc, Hc1, not_elem_of_cons.
    destruct (conn_heap g !! c) as [conn|] eqn:Hconn.
    + rewrite py_remove_NoDup_elem_of by apply Hwf. split.
      * by intros [[? ?] ?].
      * by intros [? [? ?]].
    + split.
      * intros [Hin ?]. split; [done|]. split; [|done]. intros ->.
        destruct (wf_connections g Hwf c Hin) as (? & ? & _). congruence.
      * by intros [? [? ?]].
Qed.

Lemma well_formed_delete_block block answer g :
  well_formed g -> well_formed (delete_block block answer g).
Proof.
  intros Hwf. unfold delete_block. destruct answer; [|done].
  set (l := filter _ _).
  destruct (foldl_delete_connection l g Hwf) as (Hwf' & Hb & Hh & Hc).
  set (g' := foldl _ _ _) in *.
  assert (forall c conn, c ∈ connections g' -> conn_heap g' !! c = Some conn ->
            FIFOConnection.source_block conn <> block /\
            FIFOConnection.target_block conn <> block) as Hno.
  { intros c conn [Hin Hnl]%Hc Hconn. rewrite Hh in Hconn.
    split; intros Heq; apply Hnl, list_elem_of_filter; (split; [|done]);
      unfold touches_ref; rewrite Hconn; apply orb_true_iff;
      rewrite !bool_decide_eq_true; auto. }
  split.
  - intros c Hin. change (c ∈ connections g') in Hin.
    destruct (wf_connections g' Hwf' c Hin) as (conn & Hconn & Hs & Ht).
    destruct (Hno c conn Hin Hconn) as [Hns Hnt].
    exists conn. split; [done|]. simpl.
    assert (forall x, x ∈ blocks g' -> x <> block -> x ∈ py_remove block (blocks g'))
      as Hkeep.
    { intros x. generalize (blocks g'). intros bl. induction bl as [|h bl IH]; simpl.
      - by intros ?%elem_of_nil.
      - case_bool_decide as Hh'.
        + intros [->|?]%elem_of_cons ?; done.
        + intros [->|?]%elem_of_cons ?; [by left|]. right. by apply IH. }
    split; by apply Hkeep.
  - intros b Hin%py_remove_elem_of. by apply (wf_blocks g' Hwf').
  - apply Hwf'.
  - intros b Hin%py_remove_elem_of. apply (wf_incident g' Hwf' b Hin).
Qed.

(** ** C8: reassigning all channels *)

Lemma least_unused_unique (used : Z -> Prop) r1 r2 :
  least_unused used r1 -> least_unused used r2 -> r1 = r2.
Proof.
  intros (H1 & Hn1 & Hb1) (H2 & Hn2 & Hb2).
  destruct (Z.lt_trichotomy r1 r2) as [Hlt|[?|Hlt]]; [|done|].
  - destruct Hn1. apply Hb2. lia.
  - destruct Hn2. apply Hb1. lia.
Qed.

Lemma lowest_available_ext l1 l2 :
  (forall n, n ∈ l1 <-> n ∈ l2) -> lowest_available l1 = lowest_available l2.
Proof.
  intros Heq. apply (least_unused_unique (fun n => n ∈ l2)).
  - by apply lowest_available_least.
  - by apply lowest_available_least.
Qed.

Lemma elem_of_incident_among_iff g l b x :
  x ∈ incident_among g l b <->
  x ∈ l /\ exists conn, conn_heap g !! x = Some conn /\
             (FIFOConnection.source_block conn = b \/ FIFOConnection.target_block conn = b).
Proof.
  unfold incident_among. rewrite list_elem_of_bind. split.
  - intros (c & Hx & Hc).
    destruct (conn_heap g !! c) as [conn|] eqn:Hconn; simpl in Hx;
      [|by apply elem_of_nil in Hx].
    assert (x = c) as -> by by eapply elem_of_touching.
    split; [done|]. exists conn. split; [done|].
    unfold touching in Hx. apply elem_of_app in Hx as [Hx|Hx];
      case_bool_decide; try (by apply elem_of_nil in Hx); auto.
  - intros (Hx & conn & Hconn & Hends). exists x. split; [|done].
    rewrite Hconn. simpl. unfold touching. apply elem_of_app.
    destruct Hends as [Hs|Ht]; [left|right];
      rewrite bool_decide_eq_true_2 by done; by left.
Qed.

Lemma used_src_channels_block_connections g s :
  used_src_channels g s =
  omap (fun c => match conn_heap g !! c with
                 | Some conn =>
                     if bool_decide (FIFOConnection.source_block conn = s)
                     then Some (FIFOConnection.src_ch_num conn) else None
                 | None => None
                 end) (block_connections g s).
Proof. unfold used_src_channels, block_connections. by destruct (block_heap g !! s). Qed.

Lemma used_dst_channels_block_connections g t :
  used_dst_channels g t =
  omap (fun c => match conn_heap g !! c with
                 | Some conn =>
                     if bool_decide (FIFOConnection.target_block conn = t)
                     then Some (FIFOConnection.dst_ch_num conn) else None
                 | None => None
                 end) (block_connections g t).
Proof. unfold used_dst_channels, block_connections. by destruct (block_heap g !! t). Qed.

(** When the list of a block holds the connections made so far that
    touch it, the channels in use at the block are those of the
    connections made so far in that role. *)
Lemma used_src_channels_assigned g made s n :
  block_connections g s ≡ₚ incident_among g made s ->
  n ∈ used_src_channels g s <->
  n ∈ ((fun e => e.2.1) <$> filter (fun e => e.1.1 = s) (assigned g made)).
Proof.
  intros Hlist. rewrite used_src_channels_block_connections, list_elem_of_omap.
  rewrite list_elem_of_fmap. unfold assigned. split.
  - intros (c & Hc & Hn). rewrite Hlist in Hc.
    apply elem_of_incident_among_iff in Hc as (Hmade & conn & Hconn & _).
    rewrite Hconn in Hn. case_bool_decide as Hs; [|done]. simplify_eq.
    eexists (_, _, (_, _)). split; [done|].
    apply list_elem_of_filter. split; [done|].
    apply list_elem_of_fmap. exists conn. split; [done|].
    apply list_elem_of_omap. eauto.
  - intros ([[s' t'] [sc dc]] & -> & [Hs (conn & Heq & Hin)%list_elem_of_fmap]%list_elem_of_filter).
    apply list_elem_of_omap in Hin as (c & Hc & Hconn). simpl in *. simplify_eq.
    exists c. split.
    + rewrite Hlist. apply elem_of_incident_among_iff. eauto.
    + by rewrite Hconn, bool_decide_eq_true_2.
Qed.

Lemma used_dst_channels_assigned g made t n :
  block_connections g t ≡ₚ incident_among g made t ->
  n ∈ used_dst_channels g t <->
  n ∈ ((fun e => e.2.2) <$> filter (fun e => e.1.2 = t) (assigned g made)).
Proof.
  intros Hlist. rewrite used_dst_channels_block_connections, list_elem_of_omap.
  rewrite list_elem_of_fmap. unfold assigned. split.
  - intros (c & Hc & Hn). rewrite Hlist in Hc.
    apply elem_of_incident_among_iff in Hc as (Hmade & conn & Hconn & _).
    rewrite Hconn in Hn. case_bool_decide as Hs; [|done]. simplify_eq.
    eexists (_, _, (_, _)). split; [done|].
    apply list_elem_of_filter. split; [done|].
    apply list_elem_of_fmap. exists conn. split; [done|].
    apply list_elem_of_omap. eauto.
  - intros ([[s' t'] [sc dc]] & -> & [Hs (conn & Heq & Hin)%list_elem_of_fmap]%list_elem_of_filter).
    apply list_elem_of_omap in Hin as (c & Hc & Hconn). simpl in *. simplify_eq.
    exists c. split.
    + rewrite Hlist. apply elem_of_incident_among_iff. eauto.
    + by rewrite Hconn, bool_decide_eq_true_2.
Qed.

Lemma detach_all_loop (bl : list block_ref) l : forall g0 g,
  conn_heap g = conn_heap g0 ->
  (forall b, b ∈ bl -> block_connections g b ≡ₚ incident_among g0 l b) ->
  let g' := foldl (fun g c =>
                     match conn_heap g !! c with
                     | Some conn =>
                         detach (FIFOConnection.target_block conn) c
                           (detach (FIFOConnection.source_block conn) c g)
                     | None => g
                     end) g l in
  conn_heap g' = conn_heap g /\ blocks g' = blocks g /\
  connections g' = connections g /\
  (forall b, is_Some (block_heap g' !! b) <-> is_Some (block_heap g !! b)) /\
  (forall b, b ∈ bl -> block_connections g' b = []).
Proof.
  induction l as [|c l IH]; intros g0 g Hh Hinc; simpl.
  - split_and!; try done. intros b Hb. by apply Permutation_nil_r, Hinc.
  - destruct (conn_heap g !! c) as [conn|] eqn:Hconn.
    + edestruct (IH g0 (detach (FIFOConnection.target_block conn) c
                     (detach (FIFOConnection.source_block conn) c g)))
        as (H1 & H2 & H3 & H4 & H5); [done| |].
      { intros b Hb. apply detach_both_incident. rewrite (Hinc b Hb).
        by rewrite incident_among_cons, <- Hh, Hconn. }
      split_and!; try done. intros b. rewrite H4.
      by rewrite !block_heap_detach_is_Some.
    + apply (IH g0); [done|]. intros b Hb. rewrite (Hinc b Hb).
      by rewrite incident_among_cons, <- Hh, Hconn.
Qed.

Lemma detach_all_empties g :
  well_formed g ->
  conn_heap (detach_all g) = conn_heap g /\ blocks (detach_all g) = blocks g /\
  connections (detach_all g) = connections g /\
  (forall b, is_Some (block_heap (detach_all g) !! b) <-> is_Some (block_heap g !! b)) /\
  (forall b, b ∈ blocks g -> block_connections (detach_all g) b = []).
Proof.
  intros Hwf. apply (detach_all_loop (blocks g) (connections g) g g); [done|].
  apply Hwf.
Qed.

Lemma sans_channels_ends (o o' : option FIFOConnection.t) :
  sans_channels <$> o = sans_channels <$> o' -> ends_of <$> o = ends_of <$> o'.
Proof.
  destruct o as [c|], o' as [c'|]; simpl; try done.
  unfold sans_channels, ends_of. intros [=]. by f_equal; f_equal.
Qed.

Lemma assigned_ext g g' l :
  (forall c, c ∈ l -> conn_heap g' !! c = conn_heap g !! c) ->
  assigned g' l = assigned g l.
Proof.
  intros Hext. unfold assigned. f_equal.
  apply list_omap_ext, Forall2_same_length_lookup_2; [done|].
  intros i c c' Hc ?. simplify_eq. apply Hext. by eapply list_elem_of_lookup_2.
Qed.

Lemma assigned_snoc g l c conn :
  conn_heap g !! c = Some conn ->
  assigned g (l ++ [c]) =
  assigned g l ++ [(FIFOConnection.source_block conn, FIFOConnection.target_block conn,
                    (FIFOConnection.src_ch_num conn, FIFOConnection.dst_ch_num conn))].
Proof.
  intros Hc. unfold assigned. rewrite omap_app, fmap_app. f_equal.
  csimpl. by rewrite Hc.
Qed.

(** One round of the second loop of [reassign_all_channels]. *)
Lemma reattach_state g c conn :
  conn_heap g !! c = Some conn ->
  is_Some (block_heap g !! FIFOConnection.source_block conn) ->
  is_Some (block_heap g !! FIFOConnection.target_block conn) ->
  let sc := get_next_available_src_channel g (FIFOConnection.source_block conn) in
  let dc := get_next_available_dst_channel (set_src_ch_num c sc g)
              (FIFOConnection.target_block conn) in
  blocks (reattach g c) = blocks g /\ connections (reattach g c) = connections g /\
  conn_heap (reattach g c) !! c = Some (FIFOConnection.set_channels sc dc conn) /\
  (forall c', c' <> c -> conn_heap (reattach g c) !! c' = conn_heap g !! c') /\
  (forall b, is_Some (block_heap (reattach g c) !! b) <-> is_Some (block_heap g !! b)) /\
  (forall b, block_connections (reattach g c) b
             = block_connections g b ++ touching b c conn).
Proof.
  intros Hc Hs Ht. cbv zeta. unfold reattach. rewrite Hc.
  set (s := FIFOConnection.source_block conn) in *.
  set (t := FIFOConnection.target_block conn) in *.
  set (sc := get_next_available_src_channel g s).
  set (g1 := set_src_ch_num c sc g).
  set (dc := get_next_available_dst_channel g1 t).
  set (g2 := set_dst_ch_num c dc g1).
  split_and!; try done.
  - change (conn_heap g2 !! c = Some (FIFOConnection.set_channels sc dc conn)).
    unfold g2, g1, set_dst_ch_num, set_src_ch_num. simpl.
    rewrite !list_lookup_alter_eq, Hc. done.
  - intros c' Hne. change (conn_heap g2 !! c' = conn_heap g !! c').
    unfold g2, g1, set_dst_ch_num, set_src_ch_num. simpl.
    by rewrite !list_lookup_alter_ne.
  - intros b. by rewrite !block_heap_attach_is_Some.
  - intros b. rewrite block_connections_attach
      by by apply block_heap_attach_is_Some.
    rewrite block_connections_attach by done.
    by rewrite <- app_assoc.
Qed.

Lemma omap_lookup_ext {A} (h h' : list A) (l : list nat) :
  (forall c, c ∈ l -> h' !! c = h !! c) ->
  omap (fun c => h' !! c) l = omap (fun c => h !! c) l.
Proof.
  intros Hext. apply list_omap_ext, Forall2_same_length_lookup_2; [done|].
  intros i c c' Hc ?. simplify_eq. apply Hext. by eapply list_elem_of_lookup_2.
Qed.

Lemma reattach_loop (bl : list block_ref) todo : forall made g,
  NoDup (made ++ todo) ->
  (forall c, c ∈ todo ->
     exists conn, conn_heap g !! c = Some conn /\
       FIFOConnection.source_block conn ∈ bl /\ FIFOConnection.target_block conn ∈ bl) ->
  (forall b, b ∈ bl -> is_Some (block_heap g !! b)) ->
  (forall b, b ∈ bl -> block_connections g b = incident_among g made b) ->
  let g' := foldl reattach g todo in
  blocks g' = blocks g /\ connections g' = connections g /\
  (forall c, sans_channels <$> conn_heap g' !! c = sans_channels <$> conn_heap g !! c) /\
  (forall c, c ∉ todo -> conn_heap g' !! c = conn_heap g !! c) /\
  (forall b, is_Some (block_heap g' !! b) <-> is_Some (block_heap g !! b)) /\
  (forall b, b ∈ bl -> block_connections g' b = incident_among g (made ++ todo) b) /\
  chans g' todo =
    assign_in_order (assigned g made) (ends_of <$> omap (fun c => conn_heap g !! c) todo).
Proof.
  induction todo as [|c todo IH]; intros made g Hnd Hconns Hvalid Hlists; simpl.
  - rewrite app_nil_r. split_and!; done.
  - destruct (Hconns c) as (conn & Hc & Hs & Ht); [by left|].
    assert ((c ∉ made) /\ (c ∉ todo) /\ NoDup ((made ++ [c]) ++ todo))
      as (Hcm & Hct & Hnd').
    { rewrite <- app_assoc. split_and!; [| |done].
      - apply NoDup_app in Hnd as (_ & Hdisj & _). intros Hin.
        apply (Hdisj c Hin). by left.
      - apply NoDup_app in Hnd as (_ & _ & Hnd). by apply NoDup_cons in Hnd as [? _]. }
    destruct (reattach_state g c conn Hc) as (Hb3 & Hc3 & Hnew & Hold & Hval3 & Hl3);
      [by apply Hvalid|by apply Hvalid|].
    set (s := FIFOConnection.source_block conn) in *.
    set (t := FIFOConnection.target_block conn) in *.
    set (sc := get_next_available_src_channel g s) in *.
    set (g1 := set_src_ch_num c sc g) in *.
    set (dc := get_next_available_dst_channel g1 t) in *.
    set (g3 := reattach g c) in *.
    (* the two channels are the ones the specification assigns *)
    assert (sc = lowest_available
                   ((fun e => e.2.1) <$> filter (fun e => e.1.1 = s) (assigned g made)))
      as Hsc.
    { apply lowest_available_ext. intros n. apply used_src_channels_assigned.
      by rewrite (Hlists s Hs). }
    assert (forall x, x <> c -> conn_heap g1 !! x = conn_heap g !! x) as Hold1.
    { intros x Hx. unfold g1, set_src_ch_num. simpl. by rewrite list_lookup_alter_ne. }
    assert (forall x, ends_of <$> conn_heap g1 !! x = ends_of <$> conn_heap g !! x)
      as Hends1.
    { intros x. destruct (decide (x = c)) as [->|Hx]; [|by rewrite Hold1].
      unfold g1, set_src_ch_num. simpl. rewrite list_lookup_alter_eq.
      by destruct (conn_heap g !! c). }
    assert (dc = lowest_available
                   ((fun e => e.2.2) <$> filter (fun e => e.1.2 = t) (assigned g made)))
      as Hdc.
    { rewrite <- (assigned_ext g g1 made) by (intros x Hx; apply Hold1; by intros ->).
      apply lowest_available_ext. intros n. apply used_dst_channels_assigned.
      change (block_connections g1 t) with (block_connections g t).
      rewrite (Hlists t Ht). by rewrite (incident_among_ext g g1). }
    assert (forall x, ends_of <$> conn_heap g3 !! x = ends_of <$> conn_heap g !! x)
      as Hends3.
    { intros x. destruct (decide (x = c)) as [->|Hx]; [|by rewrite Hold].
      by rewrite Hnew, Hc. }
    destruct (IH (made ++ [c]) g3) as (Hb' & Hc' & Hsans' & Hkeep' & Hval' & Hl' & Hch');
      [done| | | |].
    { intros x Hx. destruct (Hconns x) as (conn' & Hx' & ? & ?); [by right|].
      exists conn'. split; [|done]. rewrite Hold; [done|]. by intros ->. }
    { intros b Hb. by apply Hval3, Hvalid. }
    { intros b Hb. rewrite Hl3, (Hlists b Hb), incident_among_app.
      rewrite incident_among_cons, incident_among_nil, app_nil_r, Hnew.
      rewrite (incident_among_ext g g3 made b) by (intros x Hx; by rewrite Hends3).
      done. }
    fold g3. set (g' := foldl reattach g3 todo) in *.
    split_and!.
    + by rewrite Hb'.
    + by rewrite Hc'.
    + intros x. rewrite Hsans'. destruct (decide (x = c)) as [->|Hx]; [|by rewrite Hold].
      by rewrite Hnew, Hc.
    + intros x [Hxc Hxt]%not_elem_of_cons. by rewrite Hkeep', Hold.
    + intros b. by rewrite Hval', Hval3.
    + intros b Hb. rewrite (Hl' b Hb), <- app_assoc. simpl.
      apply incident_among_ext. intros x _. apply Hends3.
    + unfold chans in *. csimpl. rewrite (Hkeep' c Hct), Hnew, Hc. csimpl.
      fold s t. rewrite <- Hsc, <- Hdc. f_equal.
      rewrite Hch'. f_equal.
      * rewrite (assigned_snoc g3 made c _ Hnew). simpl. f_equal.
        apply assigned_ext. intros x Hx. apply Hold. by intros ->.
      * f_equal. apply omap_lookup_ext. intros x Hx. apply Hold. by intros ->.
Qed.

Lemma chans_snoc g l c conn :
  conn_heap g !! c = Some conn ->
  chans g (l ++ [c]) =
  chans g l ++ [(FIFOConnection.src_ch_num conn, FIFOConnection.dst_ch_num conn)].
Proof.
  intros Hc. unfold chans. rewrite omap_app, fmap_app. f_equal. csimpl. by rewrite Hc.
Qed.

Lemma recreate_loop conns : forall g,
  (forall c, c ∈ connections g -> (c < length (conn_heap g))%nat) ->
  (forall conn, conn ∈ conns ->
     is_Some (block_heap g !! FIFOConnection.source_block conn) /\
     is_Some (block_heap g !! FIFOConnection.target_block conn)) ->
  (forall b, is_Some (block_heap g !! b) ->
     block_connections g b ≡ₚ incident_among g (connections g) b) ->
  let g' := foldl (fun g' conn =>
                     (append_new_connection (FIFOConnection.source_block conn)
                        (FIFOConnection.target_block conn) (FIFOConnection.name conn)
                        (FIFOConnection.depth conn) (FIFOConnection.width conn)
                        None None g').1) g conns in
  chans g' (connections g') =
  chans g (connections g) ++
  assign_in_order (assigned g (connections g)) (ends_of <$> conns).
Proof.
  induction conns as [|conn conns IH]; intros g Hvalid Hends Hlists.
  - simpl. by rewrite app_nil_r.
  - cbn [foldl]. rewrite fmap_cons.
    destruct (Hends conn) as [Hs Ht]; [by left|].
    set (s := FIFOConnection.source_block conn) in *.
    set (t := FIFOConnection.target_block conn) in *.
    destruct (append_new_connection_state s t (FIFOConnection.name conn)
                (FIFOConnection.depth conn) (FIFOConnection.width conn) None None g)
      as (sc & dc & Hsc & Hdc & ->).
    simpl in Hsc, Hdc. cbn [fst].
    set (n := length (conn_heap g)).
    set (conn' := FIFOConnection.mk s t _ _ _ sc dc).
    set (g1 := set_conn_heap (conn_heap g ++ [conn']) g).
    set (g3 := set_connections _ _).
    assert (forall c, c ∈ connections g -> conn_heap g3 !! c = conn_heap g !! c) as Hold.
    { intros c Hc. unfold g3, g1. simpl. by rewrite lookup_app_l by by apply Hvalid. }
    assert (conn_heap g3 !! n = Some conn') as Hnew.
    { unfold g3, g1, n. simpl. by rewrite lookup_app_r, Nat.sub_diag. }
    assert (connections g3 = connections g ++ [n]) as Hconns by done.
    assert (sc = lowest_available
                   ((fun e => e.2.1) <$>
                      filter (fun e => e.1.1 = s) (assigned g (connections g))))
      as Hsc'.
    { rewrite Hsc. apply lowest_available_ext. intros k.
      apply used_src_channels_assigned. by apply Hlists. }
    assert (dc = lowest_available
                   ((fun e => e.2.2) <$>
                      filter (fun e => e.1.2 = t) (assigned g (connections g))))
      as Hdc'.
    { rewrite Hdc. apply lowest_available_ext. intros k.
      apply used_dst_channels_assigned. by apply Hlists. }
    rewrite IH.
    + rewrite Hconns, (chans_snoc g3 _ n conn' Hnew), (assigned_snoc g3 _ n conn' Hnew).
      rewrite <- app_assoc. simpl. unfold chans.
      rewrite (omap_lookup_ext (conn_heap g) (conn_heap g3)) by done.
      rewrite (assigned_ext g g3) by done.
      f_equal. fold s t. by rewrite <- Hsc', <- Hdc'.
    + rewrite Hconns. intros c [Hc| ->%list_elem_of_singleton]%elem_of_app.
      * apply lookup_lt_is_Some. rewrite Hold by done.
        apply lookup_lt_is_Some. by apply Hvalid.
      * apply lookup_lt_is_Some. by rewrite Hnew.
    + intros conn2 Hin. unfold g3. rewrite block_heap_set_connections.
      rewrite !block_heap_attach_is_Some. apply Hends. by right.
    + intros b. unfold g3 at 1. rewrite block_heap_set_connections.
      rewrite !block_heap_attach_is_Some. intros Hb.
      change (block_connections g3 b)
        with (block_connections (attach t n (attach s n g1)) b).
      rewrite block_connections_attach by by apply block_heap_attach_is_Some.
      rewrite block_connections_attach by done.
      rewrite Hconns, incident_among_app, incident_among_cons, incident_among_nil, Hnew.
      rewrite app_nil_r, <- app_assoc. simpl.
      apply Permutation_app; [|done].
      change (block_connections g1 b) with (block_connections g b).
      rewrite (Hlists b Hb). rewrite (incident_among_ext g g3); [done|].
      intros c Hc. by rewrite Hold.
Qed.

Lemma channels_chans g : channels g = chans g (connections g).
Proof. done. Qed.

Lemma recreate_channels g :
  well_formed g -> channels (recreate g) = assign_in_order [] (endpoints g).
Proof.
  intros Hwf. rewrite channels_chans. unfold recreate.
  rewrite (recreate_loop (diagram_connections g) (without_connections g)).
  - done.
  - by intros c ?%elem_of_nil.
  - intros conn (c & Hc & Hconn)%list_elem_of_omap.
    destruct (wf_connections g Hwf c Hc) as (conn' & Hconn' & Hs & Ht). simplify_eq.
    unfold without_connections. simpl.
    rewrite !lookup_lt_is_Some, !length_fmap, <- !lookup_lt_is_Some.
    split; by apply (wf_blocks g Hwf).
  - intros b _. unfold without_connections, block_connections. simpl.
    rewrite list_lookup_fmap. by destruct (block_heap g !! b).
Qed.

Lemma fmap_omap_lookup_ext {A B} (f : A -> B) (h h' : list A) (l : list nat) :
  (forall c, f <$> h' !! c = f <$> h !! c) ->
  f <$> omap (fun c => h' !! c) l = f <$> omap (fun c => h !! c) l.
Proof.
  intros Hext. rewrite !list_fmap_omap.
  apply list_omap_ext, Forall2_same_length_lookup_2; [done|].
  intros i c c' Hc ?. simplify_eq. apply Hext.
Qed.

Lemma reassign_all_channels_state g :
  well_formed g ->
  let g' := reassign_all_channels true g in
  blocks g' = blocks g /\ connections g' = connections g /\
  (forall c, sans_channels <$> conn_heap g' !! c = sans_channels <$> conn_heap g !! c) /\
  (forall b, is_Some (block_heap g' !! b) <-> is_Some (block_heap g !! b)) /\
  (forall b, b ∈ blocks g -> block_connections g' b ≡ₚ incident g b) /\
  channels g' = assign_in_order [] (endpoints g).
Proof.
  intros Hwf. cbv zeta. unfold reassign_all_channels. case_bool_decide as Hnil.
  - split_and!; try done; [apply Hwf|].
    unfold channels, endpoints, diagram_connections. by rewrite Hnil.
  - destruct (detach_all_empties g Hwf) as (Hh1 & Hb1 & Hc1 & Hv1 & Hl1).
    destruct (reattach_loop (blocks g) (connections g) [] (detach_all g))
      as (Hb' & Hc' & Hsans & _ & Hv' & Hl' & Hch).
    { apply Hwf. }
    { intros c Hc. rewrite Hh1. by apply (wf_connections g Hwf). }
    { intros b Hb. by apply Hv1, (wf_blocks g Hwf). }
    { intros b Hb. by rewrite Hl1. }
    set (g' := foldl reattach (detach_all g) (connections g)) in *.
    rewrite Hh1 in Hsans, Hch. split_and!.
    + by rewrite Hb', Hb1.
    + by rewrite Hc', Hc1.
    + done.
    + intros b. by rewrite Hv', Hv1.
    + intros b Hb. rewrite (Hl' b Hb). simpl. unfold incident.
      by rewrite (incident_among_ext g (detach_all g)) by (intros; by rewrite Hh1).
    + rewrite channels_chans, Hc', Hc1. done.
Qed.

Lemma well_formed_reassign_all_channels answer g :
  well_formed g -> well_formed (reassign_all_channels answer g).
Proof.
  intros Hwf. destruct answer.
  - destruct (reassign_all_channels_state g Hwf) as (Hb & Hc & Hsans & Hv & Hl & _).
    set (g' := reassign_all_channels true g) in *.
    assert (forall c, ends_of <$> conn_heap g' !! c = ends_of <$> conn_heap g !! c)
      as Hends by (intros c; apply sans_channels_ends, Hsans).
    split.
    + rewrite Hc, Hb. intros c Hin.
      destruct (wf_connections g Hwf c Hin) as (conn & Hconn & Hs & Ht).
      specialize (Hends c). rewrite Hconn in Hends.
      destruct (conn_heap g' !! c) as [conn'|]; [|done].
      injection Hends as Hs' Ht'. exists conn'. by rewrite Hs', Ht'.
    + rewrite Hb. intros b Hin. by apply Hv, (wf_blocks g Hwf).
    + rewrite Hc. apply Hwf.
    + rewrite Hb. intros b Hin. rewrite (Hl b Hin). unfold incident. rewrite Hc.
      by rewrite (incident_among_ext g g').
  - unfold reassign_all_channels. by case_bool_decide.
Qed.

(** C8.  In a well-formed diagram, [reassign_all_channels] keeps the
    connection list and the end points and gives the connections, in
    list order, the channels [assign_in_order] describes: each one the
    lowest source channel not taken by an earlier-listed connection
    with the same source block, and the lowest target channel not
    taken by an earlier-listed one with the same target block.  These
    are the channels the connections get when they are made anew, in
    that order, on blocks without connections; they depend on nothing
    but the end points, not on the channels held before; and three
    connections with one source block end with source channels 0, 1
    and 2. *)
Theorem reassign_all_channels_in_order (g : HardwareDesignGUI) :
  well_formed g ->
  let g' := reassign_all_channels true g in
  connections g' = connections g /\
  endpoints g' = endpoints g /\
  channels g' = assign_in_order [] (endpoints g) /\
  channels g' = channels (recreate g) /\
  (forall g2, well_formed g2 -> endpoints g2 = endpoints g ->
              channels (reassign_all_channels true g2) = channels g') /\
  (forall a t1 t2 t3, endpoints g = [(a, t1); (a, t2); (a, t3)] ->
                      fst <$> channels g' = [0; 1; 2]).
Proof.
  intros Hwf. cbv zeta.
  destruct (reassign_all_channels_state g Hwf) as (Hb & Hc & Hsans & Hv & Hl & Hch).
  split_and!.
  - done.
  - unfold endpoints, diagram_connections. rewrite Hc.
    apply (fmap_omap_lookup_ext (fun conn => (FIFOConnection.source_block conn,
                                              FIFOConnection.target_block conn))).
    intros c. apply sans_channels_ends, Hsans.
  - done.
  - by rewrite Hch, recreate_channels.
  - intros g2 Hwf2 Hends.
    destruct (reassign_all_channels_state g2 Hwf2) as (_ & _ & _ & _ & _ & ->).
    by rewrite Hch, Hends.
  - intros a t1 t2 t3 Hends. rewrite Hch, Hends. simpl.
    rewrite !filter_cons, !filter_nil. simpl.
    rewrite !decide_True by done. reflexivity.
Qed.

(** ** The file commands keep the diagram well-formed *)

Lemma post_bind {A B} (m : M A) (f : A -> M B) g Q R E :
  post (m g) Q E -> (forall a g', Q a g' -> post (f a g') R E) ->
  post ((m ≫= f) g) R E.
Proof.
  unfold post, mbind, M_bind. destruct (m g) as [g' [e|a]]; [done|].
  intros HQ Hf. by apply Hf.
Qed.

Lemma post_key_bind {A B} k (field : option A) (f : A -> M B) g R E :
  E g -> (forall a, field = Some a -> post (f a g) R E) ->
  post ((key k field ≫= f) g) R E.
Proof.
  intros HE Hf. unfold mbind, M_bind, key. destruct field as [a|]; [|done].
  by apply Hf.
Qed.

Lemma post_fold_each {X A} (body : A -> X -> M A) (I : A -> HardwareDesignGUI -> Prop)
    (E : HardwareDesignGUI -> Prop) l :
  (forall acc x g, I acc g -> post (body acc x g) I E) ->
  forall acc g, I acc g -> post (fold_each body acc l g) I E.
Proof.
  intros Hbody. induction l as [|x l IH]; intros acc g HI; [done|].
  rewrite fold_each_cons. specialize (Hbody acc x g HI). unfold post in Hbody.
  destruct (body acc x g) as [g' [e|acc']]; [done|]. by apply IH.
Qed.

Lemma post_for_each {X} (body : X -> M unit) (I E : HardwareDesignGUI -> Prop) l :
  (forall x g, I g -> post (body x g) (fun _ => I) E) ->
  forall g, I g -> post (for_each body l g) (fun _ => I) E.
Proof.
  intros Hbody g HI. unfold for_each.
  apply (post_fold_each _ (fun _ => I)); [|done]. intros _ x g'. apply Hbody.
Qed.

Lemma post_append_new_connection s t name depth width sc dc m g :
  well_formed g /\ map_live m g -> s ∈ blocks g -> t ∈ blocks g ->
  post (append_new_connection s t name depth width sc dc g)
    (fun _ g' => well_formed g' /\ map_live m g') well_formed.
Proof.
  intros [Hwf Hm] Hs Ht.
  destruct (well_formed_append_connection s t name depth width sc dc g Hwf Hs Ht)
    as [Hwf' Hb].
  destruct (append_new_connection_state s t name depth width sc dc g)
    as (? & ? & _ & _ & Heq).
  rewrite Heq in *. simpl in *. split; [done|]. intros nm b Hnm. by apply Hm in Hnm.
Qed.

Lemma post_append_new_block blk m name g :
  Block.connections blk = [] ->
  well_formed g /\ map_live m g ->
  post (append_new_block blk g)
    (fun b g' => well_formed g' /\ map_live (<[name := b]> m) g') well_formed.
Proof.
  intros Hblk [Hwf Hm]. unfold append_new_block, post.
  split; [by apply well_formed_append_block|].
  intros nm b. rewrite lookup_insert. simpl. case_decide.
  - intros [= <-]. apply elem_of_app. right. by left.
  - intros Hb. apply elem_of_app. left. by apply (Hm nm).
Qed.

Lemma post_load_block m bd g :
  well_formed g /\ map_live m g ->
  post (load_block m bd g) (fun m' g' => well_formed g' /\ map_live m' g') well_formed.
Proof.
  intros HI. unfold load_block.
  repeat (apply post_key_bind; [apply HI|]; intros ? _).
  eapply post_bind; [by apply post_append_new_block|].
  intros b g' HI'. exact HI'.
Qed.

Lemma post_load_fifo m cd g :
  well_formed g /\ map_live m g ->
  post (load_fifo m cd g) (fun _ g' => well_formed g' /\ map_live m g') well_formed.
Proof.
  intros HI. unfold load_fifo.
  apply post_key_bind; [apply HI|]; intros sn _.
  apply post_key_bind; [apply HI|]; intros tn _.
  destruct (m !! sn) as [s|] eqn:Hs; [|done].
  destruct (m !! tn) as [t|] eqn:Ht; [|done].
  repeat (apply post_key_bind; [apply HI|]; intros ? _).
  apply post_append_new_connection; [done|by eapply (proj2 HI)..].
Qed.

Lemma post_load_nested m s cd g :
  s ∈ blocks g ->
  well_formed g /\ map_live m g ->
  post (load_nested m s cd g) (fun _ g' => well_formed g' /\ map_live m g') well_formed.
Proof.
  intros Hin HI. unfold load_nested.
  apply post_key_bind; [apply HI|]; intros tn _.
  destruct (m !! tn) as [t|] eqn:Ht; [|done].
  repeat (apply post_key_bind; [apply HI|]; intros ? _).
  apply post_append_new_connection; [done|done|by eapply (proj2 HI)].
Qed.

Lemma post_load_nested_of_block m bd g :
  well_formed g /\ map_live m g ->
  post (load_nested_of_block m bd g)
    (fun _ g' => well_formed g' /\ map_live m g') well_formed.
Proof.
  intros HI. unfold load_nested_of_block.
  apply post_key_bind; [apply HI|]; intros name _.
  apply post_key_bind; [apply HI|]; intros s Hs.
  apply (post_for_each _ (fun g' => well_formed g' /\ map_live m g')); [|done].
  intros cd g' HI'. apply post_load_nested; [|done]. by eapply (proj2 HI').
Qed.

Lemma post_mono {A} (r : HardwareDesignGUI * (string + A)) (Q Q' : A -> _ -> Prop)
    (E E' : HardwareDesignGUI -> Prop) :
  post r Q E -> (forall a g, Q a g -> Q' a g) -> (forall g, E g -> E' g) ->
  post r Q' E'.
Proof. destruct r as [g [e|a]]; simpl; auto. Qed.

Lemma post_well_formed {A} (r : HardwareDesignGUI * (string + A)) :
  post r (fun _ => well_formed) well_formed -> well_formed r.1.
Proof. by destruct r as [g [e|a]]. Qed.

Lemma well_formed_load_json answer design_data g :
  well_formed g -> well_formed (load_json answer design_data g).1.
Proof.
  intros Hwf.
  assert (post (load_json_body answer design_data g) (fun _ => well_formed) well_formed)
    as Hpost.
  { unfold load_json_body.
    eapply (post_bind _ _ _ (fun _ => well_formed)).
    { unfold lift, post. by apply well_formed_new_design. }
    intros _ g1 Hwf1. destruct (DesignData.blocks design_data) as [bds|]; [|done].
    eapply post_bind.
    { apply (post_fold_each _ (fun m g' => well_formed g' /\ map_live m g')).
      - intros m bd g'. apply post_load_block.
      - split; [done|]. intros name b. by rewrite lookup_empty. }
    intros m g2 HI2. simpl in HI2.
    eapply (post_bind _ _ _ (fun _ g' => well_formed g' /\ map_live m g')).
    - destruct (DesignData.fifo_infos design_data) as [infos|].
      + apply (post_for_each _ (fun g' => well_formed g' /\ map_live m g')); [|done].
        intros cd g'. apply post_load_fifo.
      + apply (post_for_each _ (fun g' => well_formed g' /\ map_live m g')); [|done].
        intros bd g'. apply post_load_nested_of_block.
    - intros _ g3 [Hwf3 _]. exact Hwf3. }
  apply post_well_formed in Hpost. unfold load_json.
  by destruct (load_json_body answer design_data g) as [g' [e|o]].
Qed.

Lemma map_live_block_map_of g : map_live (block_map_of g) g.
Proof.
  unfold block_map_of.
  assert (forall l (m : gmap string nat),
            (forall name b, m !! name = Some b -> b ∈ blocks g) ->
            (forall b, b ∈ l -> b ∈ blocks g) ->
            forall name b,
              foldl (fun m b => match block_heap g !! b with
                                | Some blk => <[Block.name blk := b]> m
                                | None => m
                                end) m l !! name = Some b -> b ∈ blocks g) as Hgen.
  { induction l as [|b0 l IH]; intros m Hm Hl; [done|]. simpl. apply IH.
    - destruct (block_heap g !! b0) as [blk|]; [|done].
      intros name b. rewrite lookup_insert. case_decide.
      + intros [= <-]. apply Hl. by left.
      + apply Hm.
    - intros b Hb. apply Hl. by right. }
  intros name b. apply Hgen; [|done]. intros name' b'. by rewrite lookup_empty.
Qed.

Lemma well_formed_import_record m f g :
  well_formed g /\ map_live m g ->
  well_formed (import_record m f g).1 /\ map_live m (import_record m f g).1.
Proof.
  intros HI. unfold import_record.
  destruct (if_source f) as [sn|]; [|done].
  destruct (if_dest f) as [tn|]; [|done].
  destruct (m !! sn) as [s|] eqn:Hs; [|done].
  destruct (m !! tn) as [t|] eqn:Ht; [|done].
  destruct (negb (can_add_connection g s)); [done|].
  destruct (negb (can_add_connection g t)); [done|].
  pose proof (post_append_new_connection s t (if_name f) (if_depth f) (if_width f)
                (Some (if_source_channel f)) (Some (if_dest_channel f)) m g HI) as Hp.
  destruct (append_new_connection_state s t (if_name f) (if_depth f)
              (if_width f) (Some (if_source_channel f)) (Some (if_dest_channel f)) g)
    as (sc' & dc' & _ & _ & Heq).
  rewrite Heq in *. simpl in *. apply Hp; by eapply (proj2 HI).
Qed.

Lemma well_formed_import_records m l : forall g r,
  well_formed g /\ map_live m g ->
  well_formed
    (foldl (fun '(g, r) f =>
              match import_record m f g with
              | (g', None) =>
                  (g', mkReport (S (imported_count r)) (skipped_count r) (error_messages r))
              | (g', Some msg) =>
                  (g', mkReport (imported_count r) (S (skipped_count r))
                         (error_messages r ++ [msg]))
              end) (g, r) l).1.
Proof.
  induction l as [|f l IH]; intros g r HI; [apply HI|]. simpl.
  pose proof (well_formed_import_record m f g HI) as HI'.
  destruct (import_record m f g) as [g' [msg|]]; by apply IH.
Qed.

Lemma well_formed_import_connections_json data g :
  well_formed g -> well_formed (import_connections_json data g).1.
Proof.
  intros Hwf. unfold import_connections_json.
  destruct (DesignData.fifo_infos data) as [l|].
  - unfold import_records. simpl.
    apply well_formed_import_records. split; [done|apply map_live_block_map_of].
  - destruct (DesignData.connections data) as [l|]; [|done].
    unfold import_records. simpl.
    apply well_formed_import_records. split; [done|apply map_live_block_map_of].
Qed.

Lemma post_import_fifo m fi g :
  well_formed g /\ map_live m g ->
  post (import_fifo m fi g) (fun _ g' => well_formed g' /\ map_live m g') well_formed.
Proof.
  intros HI. unfold import_fifo.
  apply post_key_bind; [apply HI|]; intros sn _.
  apply post_key_bind; [apply HI|]; intros tn _.
  destruct (m !! sn) as [s|] eqn:Hs; [|done].
  destruct (m !! tn) as [t|] eqn:Ht; [|done].
  eapply (post_bind _ _ _ (fun g0 g' => g0 = g /\ g' = g)); [done|].
  intros ? ? [-> ->].
  destruct (can_add_connection g s && can_add_connection g t).
  - repeat (apply post_key_bind; [apply HI|]; intros ? _).
    apply post_append_new_connection; [done|by eapply (proj2 HI)..].
  - apply post_key_bind; [apply HI|]; intros ? _. exact HI.
Qed.

Lemma post_grid_block cols m entry g :
  well_formed g /\ map_live m g ->
  post (grid_block cols m entry g)
    (fun m' g' => well_formed g' /\ map_live m' g') well_formed.
Proof.
  intros HI. unfold grid_block. destruct entry as [i block_name].
  eapply post_bind; [by apply post_append_new_block|].
  intros b g' HI'. exact HI'.
Qed.

Lemma well_formed_import_fifo_format answer data g :
  well_formed g -> well_formed (import_fifo_format answer data g).1.
Proof.
  intros Hwf. unfold import_fifo_format.
  destruct (DesignData.fifo_infos data) as [infos|]; [|done].
  assert (post (import_fifo_body answer infos g) (fun _ => well_formed) well_formed)
    as Hpost.
  { unfold import_fifo_body.
    eapply (post_bind _ _ _ (fun _ => well_formed)).
    { unfold lift, post. by apply well_formed_new_design. }
    intros _ g1 Hwf1.
    eapply (post_bind _ _ _ (fun _ => well_formed)).
    { apply (post_fold_each _ (fun _ => well_formed)); [|done].
      intros names fi g' Hwf'. unfold collect_names.
      apply post_key_bind; [done|]; intros ? _.
      apply post_key_bind; [done|]; intros ? _. exact Hwf'. }
    intros names g2 Hwf2.
    eapply post_bind.
    { apply (post_fold_each _ (fun m g' => well_formed g' /\ map_live m g')).
      - intros m entry g'. apply post_grid_block.
      - split; [done|]. intros name b. by rewrite lookup_empty. }
    intros m g3 HI3. simpl in HI3.
    eapply post_mono.
    - apply (post_for_each _ (fun g' => well_formed g' /\ map_live m g')); [|done].
      intros fi g'. apply post_import_fifo.
    - by intros _ g' [? _].
    - done. }
  apply post_well_formed in Hpost.
  by destruct (import_fifo_body answer infos g) as [g' [e|o]].
Qed.

Lemma well_formed_add_block name g : well_formed g -> well_formed (add_block name g).
Proof.
  intros Hwf. unfold add_block. destruct name as [[|a name]|]; try done.
  destruct (omap _ _) as [|b0 bs]; [by apply well_formed_append_block|].
  case_match; by apply well_formed_append_block.
Qed.

Lemma well_formed_create_connection s t g :
  well_formed g -> s ∈ blocks g -> t ∈ blocks g ->
  well_formed (create_connection_between_blocks s t g).1.
Proof.
  intros Hwf Hs Ht. unfold create_connection_between_blocks.
  destruct (_ && _); [|done].
  pose proof (well_formed_append_connection s t
                (fifo_name (existing_connections g s t)) 16 32 None None g Hwf Hs Ht)
    as [Hwf' _].
  unfold append_new_connection in Hwf'.
  by destruct (FIFOConnection_init _ _ _ _ _ _ _ g) as [conn g1].
Qed.

Lemma well_formed_run g cmd : well_formed g -> well_formed (run g cmd).
Proof.
  intros Hwf. destruct cmd; simpl; unfold on_block, on_connection;
    repeat case_bool_decide; try done.
  - by apply well_formed_add_block.
  - by apply well_formed_update_block.
  - by apply well_formed_update_block.
  - unfold apply_block_changes. repeat case_match; try done;
      by apply well_formed_update_block.
  - by apply well_formed_create_connection.
  - by apply well_formed_delete_connection.
  - by apply well_formed_delete_block.
  - by apply well_formed_apply_changes.
  - by apply well_formed_reassign_all_channels.
  - by apply well_formed_new_design.
  - by apply well_formed_load_json.
  - by apply well_formed_import_connections_json.
  - by apply well_formed_import_fifo_format.
Qed.

(** Every state of a session is well-formed. *)
Lemma reachable_well_formed g : reachable g -> well_formed g.
Proof.
  intros [cmds ->]. generalize well_formed_init. generalize init.
  induction cmds as [|cmd cmds IH]; intros g Hwf; [done|].
  simpl. by apply IH, well_formed_run.
Qed.

(** ** C2: where channel numbers stay unique *)

Lemma filter_fmap_comm {A B} (f : A -> B) (P : B -> Prop) `{!forall x, Decision (P x)}
    (l : list A) :
  filter P (f <$> l) = f <$> filter (fun x => P (f x)) l.
Proof.
  induction l as [|x l IH]; [done|]. rewrite fmap_cons, !filter_cons. simpl.
  destruct (decide (P (f x))); by rewrite IH.
Qed.

Lemma source_channels_assigned g b :
  source_channels g b = srcs_at b (assigned g (connections g)).
Proof.
  unfold source_channels, srcs_at, assigned, diagram_connections.
  rewrite filter_fmap_comm, <- list_fmap_compose. done.
Qed.

Lemma target_channels_assigned g b :
  target_channels g b = dsts_at b (assigned g (connections g)).
Proof.
  unfold target_channels, dsts_at, assigned, diagram_connections.
  rewrite filter_fmap_comm, <- list_fmap_compose. done.
Qed.

Lemma srcs_at_snoc b l s t sc dc :
  srcs_at b (l ++ [(s, t, (sc, dc))]) = srcs_at b l ++ (if decide (s = b) then [sc] else []).
Proof.
  unfold srcs_at. rewrite filter_app, fmap_app, filter_cons, filter_nil. simpl.
  by destruct (decide (s = b)).
Qed.

Lemma dsts_at_snoc b l s t sc dc :
  dsts_at b (l ++ [(s, t, (sc, dc))]) = dsts_at b l ++ (if decide (t = b) then [dc] else []).
Proof.
  unfold dsts_at. rewrite filter_app, fmap_app, filter_cons, filter_nil. simpl.
  by destruct (decide (t = b)).
Qed.

Lemma NoDup_snoc_lowest (l : list Z) :
  NoDup l -> NoDup (l ++ [lowest_available l]).
Proof.
  intros Hnd. apply NoDup_app. split; [done|]. split; [|apply NoDup_singleton].
  intros x Hx ->%list_elem_of_singleton.
  by destruct (lowest_available_spec l) as (_ & Hout & _).
Qed.

(** Adding a connection whose channels are the lowest unused ones at
    its two blocks keeps the channels distinct. *)
Lemma unique_snoc_lowest l s t :
  (forall b, NoDup (srcs_at b l) /\ NoDup (dsts_at b l)) ->
  forall b,
    NoDup (srcs_at b (l ++ [(s, t, (lowest_available (srcs_at s l),
                                    lowest_available (dsts_at t l)))])) /\
    NoDup (dsts_at b (l ++ [(s, t, (lowest_available (srcs_at s l),
                                    lowest_available (dsts_at t l)))])).
Proof.
  intros Hu b. rewrite srcs_at_snoc, dsts_at_snoc. split.
  - destruct (decide (s = b)) as [->|]; [|rewrite app_nil_r; apply Hu].
    apply NoDup_snoc_lowest, Hu.
  - destruct (decide (t = b)) as [->|]; [|rewrite app_nil_r; apply Hu].
    apply NoDup_snoc_lowest, Hu.
Qed.

Lemma assign_in_order_unique ends : forall earlier,
  (forall b, NoDup (srcs_at b earlier) /\ NoDup (dsts_at b earlier)) ->
  forall b,
    NoDup (srcs_at b (earlier ++ zip_with (fun e ch => (e.1, e.2, ch)) ends
                                   (assign_in_order earlier ends))) /\
    NoDup (dsts_at b (earlier ++ zip_with (fun e ch => (e.1, e.2, ch)) ends
                                   (assign_in_order earlier ends))).
Proof.
  induction ends as [|[s t] ends IH]; intros earlier Hu b.
  - simpl. rewrite app_nil_r. apply Hu.
  - simpl. rewrite (cons_middle _ earlier), app_assoc. apply IH.
    apply unique_snoc_lowest, Hu.
Qed.

Lemma assigned_zip g l :
  assigned g l =
  zip_with (fun e ch => (e.1, e.2, ch))
    (ends_of <$> omap (fun c => conn_heap g !! c) l) (chans g l).
Proof.
  unfold assigned, chans. generalize (omap (fun c => conn_heap g !! c) l).
  intros L. induction L as [|x L IH]; [done|].
  rewrite !fmap_cons. cbn [zip_with]. by rewrite <- IH.
Qed.

Lemma channels_unique_reassign g :
  well_formed g -> channels_unique (reassign_all_channels true g).
Proof.
  intros Hwf b.
  destruct (reassign_all_channels_in_order g Hwf) as (_ & Hends & Hch & _).
  rewrite source_channels_assigned, target_channels_assigned, assigned_zip.
  rewrite <- channels_chans, Hch. fold (diagram_connections (reassign_all_channels true g)).
  change (ends_of <$> diagram_connections (reassign_all_channels true g))
    with (endpoints (reassign_all_channels true g)).
  rewrite Hends. apply (assign_in_order_unique (endpoints g) []).
  intros b'. split; constructor.
Qed.

Lemma sublist_omap {A B} (f : A -> option B) (l k : list A) :
  l `sublist_of` k -> omap f l `sublist_of` omap f k.
Proof.
  induction 1 as [|x l k _ IH|x l k _ IH]; csimpl.
  - done.
  - destruct (f x); [by apply sublist_skip|done].
  - destruct (f x); [by apply sublist_cons|done].
Qed.

Lemma sublist_filter_mono {A} (P : A -> Prop) `{!forall x, Decision (P x)} (l k : list A) :
  l `sublist_of` k -> filter P l `sublist_of` filter P k.
Proof.
  induction 1 as [|x l k _ IH|x l k _ IH]; rewrite ?filter_cons.
  - done.
  - destruct (decide (P x)); [by apply sublist_skip|done].
  - destruct (decide (P x)); [by apply sublist_cons|done].
Qed.

Lemma py_remove_sublist c l : py_remove c l `sublist_of` l.
Proof.
  induction l as [|h t IH]; simpl; [done|]. case_bool_decide.
  - by apply sublist_cons.
  - by apply sublist_skip.
Qed.

Lemma channels_unique_sublist g g' :
  conn_heap g' = conn_heap g ->
  connections g' `sublist_of` connections g ->
  channels_unique g -> channels_unique g'.
Proof.
  intros Hh Hsub Hu b. destruct (Hu b) as [Hs Ht].
  unfold source_channels, target_channels, diagram_connections in *. rewrite Hh.
  split.
  - apply (sublist_NoDup _ _ Hs).
    by apply fmap_sublist, sublist_filter_mono, sublist_omap.
  - apply (sublist_NoDup _ _ Ht).
    by apply fmap_sublist, sublist_filter_mono, sublist_omap.
Qed.

Lemma delete_connection_sublist c confirm answer g :
  conn_heap (delete_connection c confirm answer g) = conn_heap g /\
  connections (delete_connection c confirm answer g) `sublist_of` connections g.
Proof.
  unfold delete_connection. destruct (confirm && negb answer); [done|].
  destruct (conn_heap g !! c); [|done]. split; [done|]. apply py_remove_sublist.
Qed.

Lemma foldl_delete_connection_sublist l : forall g,
  conn_heap (foldl (fun g c => delete_connection c false false g) g l) = conn_heap g /\
  connections (foldl (fun g c => delete_connection c false false g) g l)
    `sublist_of` connections g.
Proof.
  induction l as [|c l IH]; intros g; [done|]. simpl.
  destruct (IH (delete_connection c false false g)) as [Hh Hs].
  destruct (delete_connection_sublist c false false g) as [Hh1 Hs1].
  split; [by rewrite Hh|by etrans].
Qed.

Lemma create_connection_unfold s t g :
  create_connection_between_blocks s t g =
  if bool_decide (s <> t) && can_add_connection g s && can_add_connection g t
  then ((append_new_connection s t (fifo_name (existing_connections g s t)) 16 32
           None None g).1, true)
  else (g, false).
Proof.
  unfold create_connection_between_blocks, append_new_connection.
  destruct (_ && _); [|done]. by destruct (FIFOConnection_init _ _ _ _ _ _ _ g).
Qed.

Lemma channels_unique_create s t g :
  well_formed g -> s ∈ blocks g -> t ∈ blocks g ->
  channels_unique g -> channels_unique (create_connection_between_blocks s t g).1.
Proof.
  intros Hwf Hs Ht Hu. rewrite create_connection_unfold.
  destruct (_ && _); [|done].
  destruct (append_new_connection_state s t (fifo_name (existing_connections g s t))
              16 32 None None g) as (sc & dc & Hsc & Hdc & ->).
  simpl in Hsc, Hdc. cbn [fst].
  set (n := length (conn_heap g)).
  set (conn := FIFOConnection.mk s t _ 16 32 sc dc).
  set (g' := set_connections _ _).
  assert (forall c, c ∈ connections g -> conn_heap g' !! c = conn_heap g !! c) as Hold.
  { intros c Hc. unfold g'. simpl.
    by rewrite lookup_app_l by by apply well_formed_valid_connection. }
  assert (conn_heap g' !! n = Some conn) as Hnew.
  { unfold g', n. simpl. by rewrite lookup_app_r, Nat.sub_diag. }
  assert (assigned g' (connections g')
          = assigned g (connections g) ++ [(s, t, (sc, dc))]) as Hass.
  { change (connections g') with (connections g ++ [n]).
    rewrite (assigned_snoc g' _ n conn Hnew). f_equal. by apply assigned_ext. }
  assert (sc = lowest_available (srcs_at s (assigned g (connections g)))) as Hsc'.
  { rewrite Hsc. apply lowest_available_ext. intros k.
    apply used_src_channels_assigned. by apply (wf_incident g Hwf). }
  assert (dc = lowest_available (dsts_at t (assigned g (connections g)))) as Hdc'.
  { rewrite Hdc. apply lowest_available_ext. intros k.
    apply used_dst_channels_assigned. by apply (wf_incident g Hwf). }
  intros b. rewrite source_channels_assigned, target_channels_assigned, Hass, Hsc', Hdc'.
  apply unique_snoc_lowest. intros b'.
  rewrite <- source_channels_assigned, <- target_channels_assigned. apply Hu.
Qed.

Lemma channels_unique_run g cmd :
  automatic_channels cmd = true ->
  well_formed g -> channels_unique g -> channels_unique (run g cmd).
Proof.
  intros Hauto Hwf Hu. destruct cmd; try done; simpl;
    unfold on_block, on_connection; repeat case_bool_decide; try done.
  - apply (channels_unique_sublist g); [| |done];
      unfold add_block; repeat case_match; done.
  - unfold apply_block_changes. repeat case_match; done.
  - by apply channels_unique_create.
  - destruct (delete_connection_sublist connection true answer g).
    by apply (channels_unique_sublist g).
  - unfold delete_block. destruct answer; [|done].
    destruct (foldl_delete_connection_sublist
                (filter (fun c => touches_ref g block c = true) (connections g)) g).
    by apply (channels_unique_sublist g).
  - destruct answer; [by apply channels_unique_reassign|].
    unfold reassign_all_channels. by case_bool_decide.
  - unfold new_design. case_match; [done|].
    apply (channels_unique_sublist g); [done| |done]. apply sublist_nil_l.
Qed.

(** ** C10: what [import_fifo_format] builds *)

Lemma insert_name_Permutation s l : insert_name s l ≡ₚ s :: l.
Proof.
  induction l as [|h t IH]; [done|]. simpl. destruct (String.leb s h); [done|].
  rewrite IH. apply Permutation_swap.
Qed.

Lemma sorted_names_Permutation l : sorted_names l ≡ₚ remove_dups l.
Proof.
  unfold sorted_names. induction (remove_dups l) as [|h t IH]; [done|].
  simpl. by rewrite insert_name_Permutation, IH.
Qed.

Lemma sorted_names_NoDup l : NoDup (sorted_names l).
Proof. rewrite sorted_names_Permutation. apply NoDup_remove_dups. Qed.

Lemma elem_of_sorted_names l s : s ∈ sorted_names l <-> s ∈ l.
Proof. by rewrite sorted_names_Permutation, elem_of_remove_dups. Qed.

Lemma insert_name_Sorted s l :
  Sorted (fun a b => String.leb a b = true) l ->
  Sorted (fun a b => String.leb a b = true) (insert_name s l).
Proof.
  induction 1 as [|h t Hs IH Hh]; simpl.
  - by repeat constructor.
  - destruct (String.leb s h) eqn:Hle.
    + constructor; [by constructor|]. by constructor.
    + constructor; [done|].
      assert (String.leb h s = true) as Hhs.
      { destruct (String.leb_total s h); congruence. }
      destruct t as [|h' t']; simpl in *; [by constructor|].
      destruct (String.leb s h'); constructor; [done|]. by inversion Hh.
Qed.

Lemma sorted_names_Sorted l :
  Sorted (fun a b => String.leb a b = true) (sorted_names l).
Proof.
  unfold sorted_names. induction (remove_dups l) as [|h t IH]; simpl.
  - constructor.
  - by apply insert_name_Sorted.
Qed.

Lemma collect_names_tuples tl : forall acc g,
  fold_each collect_names acc (info_of_tuple <$> tl) g = (g, inr (acc ++ referenced tl)).
Proof.
  induction tl as [|[[[[[[name sn] tn] sc] dc] depth] width] tl IH]; intros acc g.
  - simpl. by rewrite app_nil_r.
  - rewrite fmap_cons, fold_each_cons.
    change (collect_names acc (info_of_tuple (name, sn, tn, sc, dc, depth, width)) g)
      with (g, @inr string _ (acc ++ [sn; tn])).
    cbv beta iota. rewrite IH. f_equal. f_equal. unfold referenced. rewrite bind_cons.
    simpl. by rewrite <- app_assoc.
Qed.

Lemma grid_blocks_state cols names : forall i0 m g,
  NoDup names ->
  exists g' m',
    fold_each (grid_block cols) m (zip (seq i0 (length names)) names) g = (g', inr m') /\
    block_heap g' =
      block_heap g ++ imap (fun j name => grid_object cols (i0 + j) name) names /\
    conn_heap g' = conn_heap g /\
    blocks g' = blocks g ++ seq (length (block_heap g)) (length names) /\
    connections g' = connections g /\
    (forall j name, names !! j = Some name ->
                    m' !! name = Some (length (block_heap g) + j)%nat) /\
    (forall name, name ∉ names -> m' !! name = m !! name).
Proof.
  induction names as [|nm names IH]; intros i0 m g Hnd.
  - exists g, m. simpl. rewrite !app_nil_r. split_and!; done.
  - apply NoDup_cons in Hnd as [Hnin Hnd].
    change (zip (seq i0 (length (nm :: names))) (nm :: names))
      with ((i0, nm) :: zip (seq (S i0) (length names)) names).
    rewrite fold_each_cons.
    change (grid_block cols m (i0, nm) g)
      with (set_blocks (blocks g ++ [length (block_heap g)])
              (set_block_heap (block_heap g ++ [grid_object cols i0 nm]) g),
            @inr string _ (<[nm := length (block_heap g)]> m)).
    cbv beta iota. set (g1 := set_blocks _ _).
    destruct (IH (S i0) (<[nm := length (block_heap g)]> m) g1 Hnd)
      as (g' & m' & Hrun & Hbh & Hch & Hbl & Hcl & Hin & Hout).
    exists g', m'. split; [done|]. rewrite Hbh, Hch, Hbl, Hcl.
    unfold g1. simpl. rewrite length_app. simpl. rewrite <- !app_assoc. simpl.
    rewrite Nat.add_1_r, Nat.add_0_r. split_and!; try done.
    + do 2 f_equal. apply imap_ext. intros j name _. simpl. f_equal. lia.
    + intros [|j] name Hj; simpl in Hj.
      * simplify_eq. rewrite Hout by done. rewrite lookup_insert_eq. f_equal. lia.
      * rewrite (Hin j name Hj). unfold g1. simpl. rewrite length_app. simpl.
        f_equal. lia.
    + intros name [Hne Hnin']%not_elem_of_cons. rewrite Hout by done.
      by rewrite lookup_insert_ne.
Qed.

Lemma imap_lookup_fresh_tuples cols (h : list Block.t) names :
  block_tuple <$>
    omap (fun b => (h ++ imap (fun j name => grid_object cols (0 + j) name) names) !! b)
         (seq (length h) (length names))
  = imap (grid_tuple cols) names.
Proof.
  rewrite <- (length_imap (fun j name => grid_object cols (0 + j) name) names).
  rewrite omap_lookup_fresh, fmap_imap. by apply imap_ext.
Qed.

Lemma can_add_connection_length g b :
  is_Some (block_heap g !! b) ->
  can_add_connection g b = (length (block_connections g b) <? 15)%nat.
Proof.
  intros [blk Hb]. unfold can_add_connection, block_connections. rewrite Hb. simpl.
  case_bool_decide; symmetry; [by apply Nat.ltb_lt|by apply Nat.ltb_ge; lia].
Qed.

Lemma import_fifo_tuple m name sn tn sc dc depth width bs bt g :
  m !! sn = Some bs -> m !! tn = Some bt ->
  import_fifo m (info_of_tuple (name, sn, tn, sc, dc, depth, width)) g =
  if can_add_connection g bs && can_add_connection g bt
  then append_new_connection bs bt name depth width (Some sc) (Some dc) g
  else (g, inr tt).
Proof.
  intros Hs Ht. unfold import_fifo, info_of_tuple, mbind, M_bind, key, current. simpl.
  rewrite Hs, Ht. by destruct (_ && _).
Qed.

Lemma import_fifos_tuples m (fresh : nat) tl : forall held g,
  holds m held g ->
  (forall t, t ∈ tl -> is_Some (m !! (tuple_ends t).1) /\ is_Some (m !! (tuple_ends t).2)) ->
  (fresh <= length (conn_heap g))%nat ->
  Forall (fun c => (fresh <= c)%nat) (connections g) ->
  exists g',
    for_each (import_fifo m) (info_of_tuple <$> tl) g = (g', inr tt) /\
    conn_tuples g' = conn_tuples g ++ within_capacity held tl /\
    block_tuples g' = block_tuples g /\
    blocks g' = blocks g /\
    Forall (fun c => (fresh <= c)%nat) (connections g').
Proof.
  induction tl as [|[[[[[[name sn] tn] sc] dc] depth] width] tl IH];
    intros held g Hholds Hdom Hfresh Hconns.
  - exists g. simpl. rewrite app_nil_r. split_and!; done.
  - destruct (Hdom (name, sn, tn, sc, dc, depth, width)) as [[bs Hbs] [bt Hbt]];
      [by left|]. simpl in Hbs, Hbt.
    destruct Hholds as (Hnames & Hinj & Hvalid).
    destruct (Hnames _ _ Hbs) as [Hsn Hls], (Hnames _ _ Hbt) as [Htn Hlt].
    assert (is_Some (block_heap g !! bs)) as Hvs by (by destruct (block_heap g !! bs)).
    assert (is_Some (block_heap g !! bt)) as Hvt by (by destruct (block_heap g !! bt)).
    rewrite fmap_cons. unfold for_each. rewrite fold_each_cons.
    rewrite (import_fifo_tuple m name sn tn sc dc depth width bs bt) by done.
    rewrite !can_add_connection_length, Hls, Hlt by done.
    cbn [within_capacity tuple_ends fst snd].
    destruct ((held sn <? 15)%nat && (held tn <? 15)%nat).
    + pose proof (append_new_connection_tuples bs bt name depth width sc dc g sn tn
                    Hvalid Hsn Htn) as Happ.
      cbv zeta in Happ. destruct Happ as (Hct & Hbt' & Hbl & Hnm & Hvalid').
      rewrite append_new_connection_given in *. cbn [fst] in *.
      set (n := length (conn_heap g)) in *.
      set (g1 := set_connections _ _) in *.
      set (held' := fun nm => (held nm + (if decide (nm = sn) then 1 else 0)
                               + (if decide (nm = tn) then 1 else 0))%nat).
      destruct (IH held' g1) as (g' & Hrun & Hct' & Hbt'' & Hbl' & Hfr').
      { split_and!; [|done|done]. intros nm b Hb.
        destruct (Hnames _ _ Hb) as [Hn Hl]. split; [by rewrite Hnm|].
        change (block_connections g1 b)
          with (block_connections
                  (attach bt n (attach bs n
                     (set_conn_heap (conn_heap g ++
                        [FIFOConnection.mk bs bt name depth width sc dc]) g))) b).
        rewrite block_connections_attach by by apply block_heap_attach_is_Some.
        rewrite block_connections_attach by done.
        rewrite !length_app. change (block_connections (set_conn_heap _ g) b)
          with (block_connections g b). rewrite Hl. unfold held'.
        assert ((nm = sn <-> bs = b) /\ (nm = tn <-> bt = b)) as [Hs' Ht'].
        { split; (split; [intros ->; congruence|intros ->; by eapply Hinj]). }
        repeat case_bool_decide; repeat case_decide; simpl; tauto || lia. }
      { intros t Ht. apply Hdom. by right. }
      { unfold g1. simpl. rewrite length_app. simpl. lia. }
      { unfold g1. simpl. apply Forall_app. split; [done|].
        apply Forall_singleton. by fold n. }
      exists g'. split; [done|].
      rewrite Hct', Hct, Hbt'', Hbt', Hbl', Hbl, <- app_assoc. done.
    + destruct (IH held g) as (g' & Hrun & Hct' & Hbt'' & Hbl' & Hfr').
      { by split_and!. }
      { intros t Ht. apply Hdom. by right. }
      { done. }
      { done. }
      exists g'. by split_and!.
Qed.

Lemma elem_of_referenced tl t :
  t ∈ tl -> (tuple_ends t).1 ∈ referenced tl /\ (tuple_ends t).2 ∈ referenced tl.
Proof.
  intros Ht. unfold referenced. split; apply list_elem_of_bind; exists t;
    (split; [|done]); [by left|by right; left].
Qed.

(** ** The claims on sessions *)



Lemma reassign_all_channels_in_order_witness :
  channels three_from_one_source = [(7, 7); (7, 7); (2, 1)] /\
  fst <$> channels (reassign_all_channels true three_from_one_source) = [0; 1; 2].
Proof.
  split; [by vm_compute|].
  refine (proj2 (proj2 (proj2 (proj2 (proj2
            (reassign_all_channels_in_order three_from_one_source _)))))
            0%nat 1%nat 2%nat 1%nat _).
  - apply reachable_well_formed. by eexists.
  - by vm_compute.
Defined.





(** * Further properties of the code *)

(** ** What the file commands keep

    The three readers of files change the diagram only through
    [new_design], [Block(...)] and [FIFOConnection(...)]: a property
    that these keep is kept by the readers, also when they stop on an
    exception. *)

Section file_commands_keep.
Variable I : HardwareDesignGUI -> Prop.
Hypothesis I_new_design : forall answer g, I g -> I (new_design answer g).
Hypothesis I_connection : forall s t name depth width sc dc g,
  I g -> I (append_new_connection s t name depth width sc dc g).1.

Lemma keep_append_new_connection s t name depth width sc dc g :
  I g -> post (append_new_connection s t name depth width sc dc g) (fun _ => I) I.
Proof.
  intros HI. pose proof (I_connection s t name depth width sc dc g HI) as H.
  destruct (append_new_connection_state s t name depth width sc dc g)
    as (? & ? & _ & _ & Heq).
  by rewrite Heq in *.
Qed.

Lemma keep_import_record m f g : I g -> I (import_record m f g).1.
Proof.
  intros HI. unfold import_record.
  repeat case_match; try done. by apply I_connection.
Qed.

Lemma keep_import_records m l : forall g r,
  I g -> I (foldl (fun '(g, r) f =>
                     match import_record m f g with
                     | (g', None) =>
                         (g', mkReport (S (imported_count r)) (skipped_count r)
                                (error_messages r))
                     | (g', Some msg) =>
                         (g', mkReport (imported_count r) (S (skipped_count r))
                                (error_messages r ++ [msg]))
                     end) (g, r) l).1.
Proof.
  induction l as [|f l IH]; intros g r HI; [done|].
  cbn [foldl]. pose proof (keep_import_record m f g HI) as HI'.
  destruct (import_record m f g) as [g' [msg|]]; by apply IH.
Qed.

Lemma keep_import_connections_json data g :
  I g -> I (import_connections_json data g).1.
Proof.
  intros HI. unfold import_connections_json.
  destruct (DesignData.fifo_infos data) as [l|];
    [|destruct (DesignData.connections data) as [l|]]; [| |done].
  - pose proof (keep_import_records (block_map_of g) (fields_of_fifo_info <$> l) g
                  (mkReport 0 0 []) HI) as H.
    unfold import_records. by destruct (foldl _ _ _).
  - pose proof (keep_import_records (block_map_of g) (fields_of_legacy <$> l) g
                  (mkReport 0 0 []) HI) as H.
    unfold import_records. by destruct (foldl _ _ _).
Qed.

Variable B : Block.t -> Prop.
Hypothesis I_block : forall blk g, B blk -> I g -> I (append_new_block blk g).1.

Lemma keep_import_fifo m fi g : I g -> post (import_fifo m fi g) (fun _ => I) I.
Proof.
  intros HI. unfold import_fifo.
  apply post_key_bind; [done|]; intros sn _.
  apply post_key_bind; [done|]; intros tn _.
  destruct (m !! sn) as [s|]; [|done].
  destruct (m !! tn) as [t|]; [|done].
  eapply (post_bind _ _ _ (fun g0 g' => g0 = g /\ g' = g)); [done|].
  intros ? ? [-> ->].
  destruct (can_add_connection g s && can_add_connection g t).
  - repeat (apply post_key_bind; [done|]; intros ? _).
    by apply keep_append_new_connection.
  - apply post_key_bind; [done|]; intros ? _. exact HI.
Qed.

Lemma keep_import_fifo_format answer data g :
  (forall x y name i,
     B (Block.mk (inject_Z x) (inject_Z y) 150 80 name (Some (Z.of_nat i + 1)) [])) ->
  I g -> I (import_fifo_format answer data g).1.
Proof.
  intros HB HI. unfold import_fifo_format.
  destruct (DesignData.fifo_infos data) as [infos|]; [|done].
  assert (post (import_fifo_body answer infos g) (fun _ => I) I) as Hpost.
  { unfold import_fifo_body.
    eapply (post_bind _ _ _ (fun _ => I)).
    { unfold lift, post. by apply I_new_design. }
    intros _ g1 HI1.
    eapply (post_bind _ _ _ (fun _ => I)).
    { apply (post_fold_each _ (fun _ => I)); [|done].
      intros names fi g' HI'. unfold collect_names.
      apply post_key_bind; [done|]; intros ? _.
      apply post_key_bind; [done|]; intros ? _. exact HI'. }
    intros names g2 HI2.
    eapply (post_bind _ _ _ (fun _ => I)).
    { apply (post_fold_each _ (fun _ => I)); [|done].
      intros m [i block_name] g' HI'. unfold grid_block.
      eapply (post_bind _ _ _ (fun _ => I)).
      - unfold post, append_new_block. eapply (I_block _ g'); [apply HB|done].
      - intros b g'' HI''. exact HI''. }
    intros m g3 HI3.
    apply (post_for_each _ I); [|done]. intros fi g'. apply keep_import_fifo. }
  unfold post in Hpost.
  by destruct (import_fifo_body answer infos g) as [g' [e|o]].
Qed.

Lemma keep_load_json answer design_data g :
  (forall blk, Block.connections blk = [] -> B blk) ->
  I g -> I (load_json answer design_data g).1.
Proof.
  intros HB HI. unfold load_json.
  assert (post (load_json_body answer design_data g) (fun _ => I) I) as Hpost.
  { unfold load_json_body.
    eapply (post_bind _ _ _ (fun _ => I)).
    { unfold lift, post. by apply I_new_design. }
    intros _ g1 HI1.
    destruct (DesignData.blocks design_data) as [bds|]; [|done].
    eapply (post_bind _ _ _ (fun _ => I)).
    { apply (post_fold_each _ (fun _ => I)); [|done].
      intros m bd g' HI'. unfold load_block.
      repeat (apply post_key_bind; [done|]; intros ? _).
      eapply (post_bind _ _ _ (fun _ => I)).
      - unfold post, append_new_block. eapply (I_block _ g'); [by apply HB|done].
      - intros b g'' HI''. exact HI''. }
    intros m g2 HI2.
    eapply (post_bind _ _ _ (fun _ => I)); [|by intros].
    destruct (DesignData.fifo_infos design_data) as [infos|].
    - apply (post_for_each _ I); [|done]. intros cd g' HI'. unfold load_fifo.
      apply post_key_bind; [done|]; intros sn _.
      apply post_key_bind; [done|]; intros tn _.
      destruct (m !! sn) as [s|]; [|done].
      destruct (m !! tn) as [t|]; [|done].
      repeat (apply post_key_bind; [done|]; intros ? _).
      by apply keep_append_new_connection.
    - apply (post_for_each _ I); [|done]. intros bd g' HI'.
      unfold load_nested_of_block.
      apply post_key_bind; [done|]; intros name _.
      apply post_key_bind; [done|]; intros s _.
      apply (post_for_each _ I); [|done]. intros cd g'' HI''. unfold load_nested.
      apply post_key_bind; [done|]; intros tn _.
      destruct (m !! tn) as [t|]; [|done].
      repeat (apply post_key_bind; [done|]; intros ? _).
      by apply keep_append_new_connection. }
  unfold post in Hpost.
  by destruct (load_json_body answer design_data g) as [g' [e|o]].
Qed.

End file_commands_keep.

(** ** No block is listed twice, no reference dangles *)

Lemma add_block_cases name g :
  add_block name g = g \/
  exists x y nm, name = Some nm /\ nm <> EmptyString /\
    add_block name g = (append_new_block (Block.mk x y 150 80 nm None []) g).1.
Proof.
  unfold add_block. destruct name as [[|a nm]|]; [by left| |by left]. right.
  destruct (omap _ _) as [|b0 bs]; [by eexists _, _, _|].
  case_match; by eexists _, _, _.
Qed.

Lemma length_block_heap_attach b c g :
  length (block_heap (attach b c g)) = length (block_heap g).
Proof. unfold attach. simpl. by rewrite length_alter. Qed.

Lemma length_block_heap_detach b c g :
  length (block_heap (detach b c g)) = length (block_heap g).
Proof. unfold detach. simpl. by rewrite length_alter. Qed.

Lemma append_new_connection_frame s t name depth width sc dc g :
  let g' := (append_new_connection s t name depth width sc dc g).1 in
  blocks g' = blocks g /\ length (block_heap g') = length (block_heap g) /\
  connections g' = connections g ++ [length (conn_heap g)].
Proof.
  destruct (append_new_connection_state s t name depth width sc dc g)
    as (? & ? & _ & _ & ->).
  cbn [fst]. split_and!; [done| |done].
  change (length (block_heap (attach t (length (conn_heap g))
            (attach s (length (conn_heap g))
               (set_conn_heap (conn_heap g ++
                  [FIFOConnection.mk s t name depth width x x0]) g))))
          = length (block_heap g)).
  by rewrite !length_block_heap_attach.
Qed.

Lemma delete_connection_frame c confirm answer g :
  let g' := delete_connection c confirm answer g in
  blocks g' = blocks g /\ length (block_heap g') = length (block_heap g).
Proof.
  unfold delete_connection. destruct (confirm && negb answer); [done|].
  destruct (conn_heap g !! c) as [conn|]; [|done]. cbv zeta. split; [done|].
  change (length (block_heap (detach (FIFOConnection.target_block conn) c
            (detach (FIFOConnection.source_block conn) c g)))
          = length (block_heap g)).
  by rewrite !length_block_heap_detach.
Qed.

Lemma foldl_delete_connection_frame l : forall g,
  let g' := foldl (fun g c => delete_connection c false false g) g l in
  blocks g' = blocks g /\ length (block_heap g') = length (block_heap g).
Proof.
  induction l as [|c l IH]; intros g; [done|]. cbn [foldl]. cbv zeta.
  destruct (IH (delete_connection c false false g)) as [-> ->].
  apply delete_connection_frame.
Qed.

Lemma reattach_frame g c :
  blocks (reattach g c) = blocks g /\
  length (block_heap (reattach g c)) = length (block_heap g).
Proof.
  unfold reattach. destruct (conn_heap g !! c) as [conn|]; [|done].
  cbv zeta. split; [done|]. by rewrite !length_block_heap_attach.
Qed.

Lemma foldl_reattach_frame l : forall g,
  blocks (foldl reattach g l) = blocks g /\
  length (block_heap (foldl reattach g l)) = length (block_heap g).
Proof.
  induction l as [|c l IH]; intros g; [done|]. cbn [foldl].
  destruct (IH (reattach g c)) as [-> ->]. apply reattach_frame.
Qed.

Lemma detach_all_frame g :
  blocks (detach_all g) = blocks g /\
  length (block_heap (detach_all g)) = length (block_heap g) /\
  connections (detach_all g) = connections g.
Proof.
  unfold detach_all. generalize (connections g) at 1 2 3 as l.
  intros l. revert g. induction l as [|c l IH]; intros g; [done|]. cbn [foldl].
  match goal with |- context [foldl ?f ?a l] => destruct (IH a) as (-> & -> & ->) end.
  destruct (conn_heap g !! c) as [conn|]; [|done].
  split_and!; [done| |done]. by rewrite !length_block_heap_detach.
Qed.

Lemma reassign_all_channels_frame answer g :
  let g' := reassign_all_channels answer g in
  blocks g' = blocks g /\ length (block_heap g') = length (block_heap g) /\
  connections g' = connections g.
Proof.
  unfold reassign_all_channels. case_bool_decide; [done|].
  destruct answer; [|done]. cbv zeta.
  destruct (foldl_reattach_frame (connections g) (detach_all g)) as [-> ->].
  destruct (detach_all_frame g) as (-> & -> & Hc). split_and!; [done..|].
  rewrite <- Hc at 2. generalize (detach_all g). generalize (connections g) as l.
  induction l as [|c l IH]; intros g1; [done|]. cbn [foldl]. rewrite IH.
  unfold reattach. by destruct (conn_heap g1 !! c).
Qed.

Lemma update_block_frame b f g :
  blocks (update_block b f g) = blocks g /\
  length (block_heap (update_block b f g)) = length (block_heap g) /\
  connections (update_block b f g) = connections g /\
  conn_heap (update_block b f g) = conn_heap g.
Proof. unfold update_block. simpl. by rewrite length_alter. Qed.

(** The blocks are listed once each and are objects. *)
Lemma listed_once_append_new_block blk g :
  NoDup (blocks g) /\ (forall b, b ∈ blocks g -> (b < length (block_heap g))%nat) ->
  let g' := (append_new_block blk g).1 in
  NoDup (blocks g') /\ (forall b, b ∈ blocks g' -> (b < length (block_heap g'))%nat).
Proof.
  intros [Hnd Hlt]. unfold append_new_block. simpl. split.
  - apply NoDup_app. split_and!; [done| |apply NoDup_singleton].
    intros b Hb ->%list_elem_of_singleton. apply Hlt in Hb. lia.
  - intros b [Hb| ->%list_elem_of_singleton]%elem_of_app; rewrite length_app; simpl.
    + apply Hlt in Hb. lia.
    + lia.
Qed.

Lemma listed_once_run g cmd :
  NoDup (blocks g) /\ (forall b, b ∈ blocks g -> (b < length (block_heap g))%nat) ->
  NoDup (blocks (run g cmd)) /\
  (forall b, b ∈ blocks (run g cmd) -> (b < length (block_heap (run g cmd)))%nat).
Proof.
  set (Inv := fun g : HardwareDesignGUI =>
              NoDup (blocks g) /\
              (forall b, b ∈ blocks g -> (b < length (block_heap g))%nat)).
  assert (forall answer g, Inv g -> Inv (new_design answer g)) as Hnew.
  { intros answer g0 HI. unfold new_design. case_match; [done|].
    split; [constructor|]. by intros b ?%elem_of_nil. }
  assert (forall s t name depth width sc dc g,
            Inv g -> Inv (append_new_connection s t name depth width sc dc g).1) as Hconn.
  { intros s t name depth width sc dc g0 HI.
    destruct (append_new_connection_frame s t name depth width sc dc g0)
      as (Hb & Hl & _).
    unfold Inv. by rewrite Hb, Hl. }
  change (Inv g -> Inv (run g cmd)). intros HI.
  destruct cmd; simpl; unfold on_block, on_connection;
    repeat case_bool_decide; try done.
  - destruct (add_block_cases name g) as [->|(x & y & nm & _ & _ & ->)]; [done|].
    by apply listed_once_append_new_block.
  - destruct (update_block_frame block (move dx dy) g) as (Hb & Hl & _).
    unfold Inv. by rewrite Hb, Hl.
  - destruct (update_block_frame block (resize new_width new_height) g) as (Hb & Hl & _).
    unfold Inv. by rewrite Hb, Hl.
  - unfold apply_block_changes. repeat case_match; try done.
    all: match goal with |- _ (update_block ?b ?f ?g0) =>
           destruct (update_block_frame b f g0) as (Hb & Hl & _) end;
         split; [rewrite Hb|rewrite Hb, Hl]; apply HI.
  - rewrite create_connection_unfold. case_match; [|done]. by apply Hconn.
  - destruct (delete_connection_frame connection true answer g) as [Hb Hl].
    unfold Inv. by rewrite Hb, Hl.
  - unfold delete_block. destruct answer; [|done].
    match goal with |- context [foldl ?f g ?l] =>
      destruct (foldl_delete_connection_frame l g) as [Hb Hl];
      set (g1 := foldl f g l) in * end.
    unfold Inv. simpl. rewrite Hl, Hb. destruct HI as [Hnd Hlt]. split.
    + by apply py_remove_NoDup.
    + intros b Hb'%py_remove_elem_of. by apply Hlt.
  - unfold apply_changes. by repeat case_match.
  - destruct (reassign_all_channels_frame answer g) as (Hb & Hl & _).
    unfold Inv. by rewrite Hb, Hl.
  - by apply Hnew.
  - apply (keep_load_json Inv Hnew Hconn (fun _ => True)); [|done..].
    intros blk g0 _ HI0. by apply listed_once_append_new_block.
  - by apply (keep_import_connections_json Inv Hconn).
  - apply (keep_import_fifo_format Inv Hnew Hconn (fun _ => True)); [|done..].
    intros blk g0 _ HI0. by apply listed_once_append_new_block.
Qed.

Lemma reachable_listed_once g : reachable g -> NoDup (blocks g).
Proof.
  intros [cmds ->].
  assert (NoDup (blocks init) /\
          (forall b, b ∈ blocks init -> (b < length (block_heap init))%nat)) as Hinit.
  { split; [constructor|]. by intros b ?%elem_of_nil. }
  revert Hinit. generalize init. induction cmds as [|cmd cmds IH]; intros g HI.
  - apply HI.
  - simpl. apply IH. by apply listed_once_run.
Qed.



(** ** Fifteen connections per block, away from files *)







Lemma block_connections_set_blocks l g b :
  block_connections (set_blocks l g) b = block_connections g b.
Proof. done. Qed.





(** ** What the editor makes of connections and blocks *)



Lemma conn_heap_append_new_connection s t name depth width sc dc g :
  conn_heap (append_new_connection s t name depth width sc dc g).1 =
  conn_heap g ++
    [FIFOConnection.mk s t name depth width
       (from_option id (get_next_available_src_channel g s) sc)
       (from_option id (get_next_available_dst_channel g t) dc)].
Proof.
  destruct (append_new_connection_state s t name depth width sc dc g)
    as (sc' & dc' & -> & -> & ->).
  cbn [fst conn_heap set_connections]. by rewrite !conn_heap_attach.
Qed.





Lemma valid_block_set_connections l blk :
  valid_block blk -> valid_block (Block.set_connections l blk).
Proof. done. Qed.











(** ** Deleting *)

Lemma filter_ext_in {A} (P Q : A -> Prop) `{!forall x, Decision (P x)}
    `{!forall x, Decision (Q x)} (l : list A) :
  (forall x, x ∈ l -> P x <-> Q x) -> filter P l = filter Q l.
Proof.
  induction l as [|x l IH]; intros Hext; [done|].
  rewrite !filter_cons. rewrite IH by (intros y Hy; apply Hext; by right).
  destruct (decide (P x)) as [HP|HP], (decide (Q x)) as [HQ|HQ]; try done.
  - destruct HQ. apply Hext; [by left|done].
  - destruct HP. apply Hext; [by left|done].
Qed.

Lemma filter_all {A} (P : A -> Prop) `{!forall x, Decision (P x)} (l : list A) :
  (forall x, x ∈ l -> P x) -> filter P l = l.
Proof.
  induction l as [|x l IH]; intros Hall; [done|].
  rewrite filter_cons_True by (apply Hall; by left).
  f_equal. apply IH. intros y Hy. apply Hall. by right.
Qed.

Lemma py_remove_filter c l : NoDup l -> py_remove c l = filter (fun x => x <> c) l.
Proof.
  induction 1 as [|h l Hh Hnd IH]; [done|]. simpl. rewrite filter_cons.
  case_bool_decide as Hc.
  - subst h. destruct (decide (c <> c)) as [?|_]; [done|].
    symmetry. apply filter_all. by intros x Hx ->.
  - destruct (decide (h <> c)); [|done]. by f_equal.
Qed.

Lemma py_remove_middle c (l1 l2 : list nat) :
  c ∉ l1 -> py_remove c (l1 ++ c :: l2) = l1 ++ l2.
Proof.
  induction l1 as [|h l1 IH]; intros Hc; simpl.
  - by rewrite bool_decide_eq_true_2.
  - apply not_elem_of_cons in Hc as [Hne Hc].
    rewrite bool_decide_eq_false_2 by done. by rewrite IH.
Qed.

Lemma connections_delete_connection c confirm g :
  is_Some (conn_heap g !! c) ->
  connections (delete_connection c confirm true g) = py_remove c (connections g).
Proof.
  intros [conn Hc]. unfold delete_connection. rewrite andb_false_r, Hc. done.
Qed.

Lemma block_heap_delete_connection_fmap {A} (f : Block.t -> A) c confirm answer g b :
  (forall l blk, f (Block.set_connections l blk) = f blk) ->
  f <$> block_heap (delete_connection c confirm answer g) !! b = f <$> block_heap g !! b.
Proof.
  intros Hf. unfold delete_connection. destruct (confirm && negb answer); [done|].
  destruct (conn_heap g !! c) as [conn|]; [|done]. cbv zeta.
  rewrite block_heap_set_connections. unfold detach. simpl.
  by rewrite !(alter_connections_fmap f (py_remove c)).
Qed.

Lemma foldl_delete_connection_fmap {A} (f : Block.t -> A) l b :
  (forall l blk, f (Block.set_connections l blk) = f blk) ->
  forall g,
    f <$> block_heap (foldl (fun g c => delete_connection c false false g) g l) !! b
    = f <$> block_heap g !! b.
Proof.
  intros Hf. induction l as [|c l IH]; intros g; [done|]. cbn [foldl].
  rewrite IH. by apply block_heap_delete_connection_fmap.
Qed.

Lemma foldl_delete_connection_connections l : forall g,
  NoDup (connections g) ->
  (forall c, c ∈ l -> is_Some (conn_heap g !! c)) ->
  connections (foldl (fun g c => delete_connection c false false g) g l)
  = filter (fun c => c ∉ l) (connections g).
Proof.
  induction l as [|c l IH]; intros g Hnd Hl.
  - simpl. symmetry. apply filter_all. by intros x _ ?%elem_of_nil.
  - cbn [foldl].
    assert (connections (delete_connection c false false g)
            = filter (fun x => x <> c) (connections g)) as Hc.
    { rewrite <- py_remove_filter by done. unfold delete_connection. simpl.
      destruct (Hl c) as [conn ->]; [by left|]. done. }
    rewrite IH.
    + rewrite Hc, list_filter_filter. apply list_filter_iff. intros x.
      rewrite not_elem_of_cons. tauto.
    + rewrite Hc. by apply NoDup_filter.
    + intros c' Hc'.
      rewrite (proj1 (delete_connection_sublist c false false g)).
      apply Hl. by right.
Qed.

(** [delete_block], once confirmed, takes the block off the list of
    blocks and takes off the list of connections exactly those with
    the block at one end, the others staying in their order; no
    connection object and no field of any block other than its
    connection list changes, and the lists still agree.  Declined, it
    changes nothing. *)
Theorem delete_block_removes_its_connections (g : HardwareDesignGUI) (block : block_ref) :
  well_formed g -> NoDup (blocks g) ->
  let g' := delete_block block true g in
  blocks g' = filter (fun b => b <> block) (blocks g) /\
  connections g' = filter (fun c => touches_ref g block c = false) (connections g) /\
  conn_heap g' = conn_heap g /\
  (forall b, block_tuple <$> block_heap g' !! b = block_tuple <$> block_heap g !! b) /\
  (forall c, c ∈ connections g' -> touches_ref g' block c = false) /\
  well_formed g' /\
  delete_block block false g = g.
Proof.
  intros Hwf Hnd. cbv zeta.
  assert (connections (delete_block block true g)
          = filter (fun c => touches_ref g block c = false) (connections g)) as Hconns.
  { unfold delete_block. simpl. rewrite foldl_delete_connection_connections.
    - apply filter_ext_in. intros c Hc. rewrite list_elem_of_filter.
      destruct (touches_ref g block c); split; try done.
      + intros []. by split.
      + by intros _ [? _].
    - apply Hwf.
    - intros c [_ Hc]%list_elem_of_filter.
      destruct (wf_connections g Hwf c Hc) as (conn & -> & _). by eexists. }
  assert (conn_heap (delete_block block true g) = conn_heap g) as Hheap.
  { unfold delete_block. simpl.
    match goal with |- context [foldl ?f g ?l] =>
      destruct (foldl_delete_connection l g Hwf) as (_ & _ & Hch & _) end.
    done. }
  split_and!.
  - unfold delete_block. simpl.
    match goal with |- context [foldl ?f g ?l] =>
      rewrite (proj1 (foldl_delete_connection_frame l g)) end.
    by apply py_remove_filter.
  - done.
  - done.
  - intros b. unfold delete_block. simpl.
    by apply foldl_delete_connection_fmap.
  - intros c. rewrite Hconns. intros [Ht _]%list_elem_of_filter.
    unfold touches_ref in *. by rewrite Hheap.
  - by apply well_formed_delete_block.
  - done.
Qed.

Lemma delete_block_removes_its_connections_witness :
  blocks (delete_block 1%nat true small_diagram) = [0; 2]%nat /\
  connections (delete_block 1%nat true small_diagram) = [1]%nat.
Proof.
  destruct (delete_block_removes_its_connections small_diagram 1%nat)
    as (H1 & H2 & _).
  - apply reachable_well_formed. by eexists.
  - apply reachable_listed_once. by eexists.
  - cbv zeta in H1, H2. rewrite H1, H2. clear H1 H2. by vm_compute.
Defined.

(** The channels in use at a block of a well-formed diagram are those
    of the listed connections leaving (resp. entering) it. *)
Lemma used_src_channels_listed g b n :
  well_formed g -> b ∈ blocks g ->
  n ∈ used_src_channels g b <-> n ∈ source_channels g b.
Proof.
  intros Hwf Hb. rewrite source_channels_assigned.
  apply used_src_channels_assigned. by apply (wf_incident g Hwf).
Qed.

Lemma used_dst_channels_listed g b n :
  well_formed g -> b ∈ blocks g ->
  n ∈ used_dst_channels g b <-> n ∈ target_channels g b.
Proof.
  intros Hwf Hb. rewrite target_channels_assigned.
  apply used_dst_channels_assigned. by apply (wf_incident g Hwf).
Qed.

Lemma lowest_available_without used used' k :
  0 <= k ->
  (forall n, n ∈ used' <-> n ∈ used /\ n <> k) ->
  lowest_available used' = Z.min k (lowest_available used).
Proof.
  intros Hk Hused.
  apply (least_unused_unique (fun n => n ∈ used')).
  - by apply lowest_available_least.
  - destruct (lowest_available_spec used) as (H0 & Hout & Hbelow). cbv zeta in *.
    split_and!.
    + lia.
    + rewrite Hused. intros [Hin Hne].
      destruct (Z.min_spec k (lowest_available used)) as [[_ Heq]|[_ Heq]];
        rewrite Heq in *; done.
    + intros m Hm. apply Hused. split; [apply Hbelow|]; lia.
Qed.

(** Deleting a connection frees its channels: in a diagram whose
    channel numbers are unique per block, the next channel offered at
    the source block is afterwards the smaller of the freed source
    channel and the one offered before, and likewise for the target
    channel at the target block. *)
Theorem delete_connection_frees_channels (g : HardwareDesignGUI) (c : conn_ref)
    (conn : FIFOConnection.t) :
  well_formed g -> channels_unique g ->
  c ∈ connections g -> conn_heap g !! c = Some conn ->
  0 <= FIFOConnection.src_ch_num conn -> 0 <= FIFOConnection.dst_ch_num conn ->
  let g' := delete_connection c true true g in
  get_next_available_src_channel g' (FIFOConnection.source_block conn) =
    Z.min (FIFOConnection.src_ch_num conn)
      (get_next_available_src_channel g (FIFOConnection.source_block conn)) /\
  get_next_available_dst_channel g' (FIFOConnection.target_block conn) =
    Z.min (FIFOConnection.dst_ch_num conn)
      (get_next_available_dst_channel g (FIFOConnection.target_block conn)).
Proof.
  intros Hwf Hu Hc Hconn Hsc Hdc. cbv zeta.
  pose proof (well_formed_delete_connection c true true g Hwf) as Hwf'.
  destruct (wf_connections g Hwf c Hc) as (conn' & Hconn' & Hs & Ht).
  rewrite Hconn in Hconn'. injection Hconn' as <-.
  destruct (list_elem_of_split _ _ Hc) as (l1 & l2 & Hsplit).
  pose proof (wf_NoDup g Hwf) as Hnd. rewrite Hsplit in Hnd.
  apply NoDup_app in Hnd as (_ & Hl1 & _).
  assert (c ∉ l1) as Hnotin by (intros Hin; apply (Hl1 c Hin); by left).
  assert (connections (delete_connection c true true g) = l1 ++ l2) as Hconns.
  { rewrite connections_delete_connection by by eexists.
    rewrite Hsplit. by apply py_remove_middle. }
  assert (conn_heap (delete_connection c true true g) = conn_heap g) as Hheap
    by apply delete_connection_sublist.
  assert (blocks (delete_connection c true true g) = blocks g) as Hblocks
    by apply delete_connection_frame.
  assert (diagram_connections g =
          omap (fun c => conn_heap g !! c) l1 ++ conn ::
          omap (fun c => conn_heap g !! c) l2) as Hdg.
  { unfold diagram_connections. rewrite Hsplit, omap_app. simpl. by rewrite Hconn. }
  assert (diagram_connections (delete_connection c true true g) =
          omap (fun c => conn_heap g !! c) l1 ++
          omap (fun c => conn_heap g !! c) l2) as Hdg'.
  { unfold diagram_connections. by rewrite Hconns, Hheap, omap_app. }
  set (d1 := omap (fun c => conn_heap g !! c) l1) in *.
  set (d2 := omap (fun c => conn_heap g !! c) l2) in *.
  assert (forall (A : Type) (l1 l2 : list A) k n,
            NoDup (l1 ++ k :: l2) ->
            n ∈ l1 ++ l2 <-> n ∈ l1 ++ k :: l2 /\ n <> k) as Hsets.
  { intros A k1 k2 k n (_ & H1 & [H2 _]%NoDup_cons)%NoDup_app.
    rewrite !elem_of_app, elem_of_cons. split; [|tauto].
    intros [Hn|Hn]; (split; [tauto|]); intros ->; [|done].
    apply (H1 _ Hn). by left. }
  split.
  - apply lowest_available_without; [done|]. intros n.
    rewrite !used_src_channels_listed by (by rewrite ?Hblocks).
    destruct (Hu (FIFOConnection.source_block conn)) as [Hsrc _].
    assert (source_channels g (FIFOConnection.source_block conn) =
            (FIFOConnection.src_ch_num <$>
               filter (fun conn0 => FIFOConnection.source_block conn0
                                    = FIFOConnection.source_block conn) d1)
            ++ FIFOConnection.src_ch_num conn ::
            (FIFOConnection.src_ch_num <$>
               filter (fun conn0 => FIFOConnection.source_block conn0
                                    = FIFOConnection.source_block conn) d2)) as Heq.
    { unfold source_channels. rewrite Hdg, filter_app, filter_cons_True by done.
      by rewrite fmap_app, fmap_cons. }
    assert (source_channels (delete_connection c true true g)
              (FIFOConnection.source_block conn) =
            (FIFOConnection.src_ch_num <$>
               filter (fun conn0 => FIFOConnection.source_block conn0
                                    = FIFOConnection.source_block conn) d1)
            ++
            (FIFOConnection.src_ch_num <$>
               filter (fun conn0 => FIFOConnection.source_block conn0
                                    = FIFOConnection.source_block conn) d2)) as Heq'.
    { unfold source_channels. by rewrite Hdg', filter_app, fmap_app. }
    rewrite Heq in Hsrc |- *. rewrite Heq'. by apply Hsets.
  - apply lowest_available_without; [done|]. intros n.
    rewrite !used_dst_channels_listed by (by rewrite ?Hblocks).
    destruct (Hu (FIFOConnection.target_block conn)) as [_ Hdst].
    assert (target_channels g (FIFOConnection.target_block conn) =
            (FIFOConnection.dst_ch_num <$>
               filter (fun conn0 => FIFOConnection.target_block conn0
                                    = FIFOConnection.target_block conn) d1)
            ++ FIFOConnection.dst_ch_num conn ::
            (FIFOConnection.dst_ch_num <$>
               filter (fun conn0 => FIFOConnection.target_block conn0
                                    = FIFOConnection.target_block conn) d2)) as Heq.
    { unfold target_channels. rewrite Hdg, filter_app, filter_cons_True by done.
      by rewrite fmap_app, fmap_cons. }
    assert (target_channels (delete_connection c true true g)
              (FIFOConnection.target_block conn) =
            (FIFOConnection.dst_ch_num <$>
               filter (fun conn0 => FIFOConnection.target_block conn0
                                    = FIFOConnection.target_block conn) d1)
            ++
            (FIFOConnection.dst_ch_num <$>
               filter (fun conn0 => FIFOConnection.target_block conn0
                                    = FIFOConnection.target_block conn) d2)) as Heq'.
    { unfold target_channels. by rewrite Hdg', filter_app, fmap_app. }
    rewrite Heq in Hdst |- *. rewrite Heq'. by apply Hsets.
Qed.

Lemma channels_unique_session cmds :
  forallb automatic_channels cmds = true -> channels_unique (foldl run init cmds).
Proof.
  intros Hauto.
  assert (well_formed (foldl run init cmds) /\ channels_unique (foldl run init cmds))
    as [_ Hu]; [|done].
  revert Hauto. generalize well_formed_init.
  assert (channels_unique init) as Hinit by (intros b; split; constructor).
  revert Hinit. generalize init.
  induction cmds as [|cmd cmds IH]; intros g Hu Hwf Hauto; [done|].
  simpl in *. apply andb_true_iff in Hauto as [Hcmd Hauto].
  apply IH; [by apply channels_unique_run|by apply well_formed_run|done].
Qed.

Lemma delete_connection_frees_channels_witness :
  get_next_available_src_channel small_diagram 0%nat = 2 /\
  get_next_available_src_channel (delete_connection 0%nat true true small_diagram) 0%nat
  = 0.
Proof.
  split; [reflexivity|].
  refine (proj1 (delete_connection_frees_channels small_diagram 0%nat
                   (FIFOConnection.mk 0%nat 1%nat "FIFO" 16 32 0 0) _ _ _ _ _ _)).
  - apply reachable_well_formed. by eexists.
  - apply (channels_unique_session
             (three_blocks ++ [Connect 0%nat 1%nat; Connect 0%nat 2%nat; Connect 1%nat 0%nat])).
    reflexivity.
  - refine (bool_decide_unpack _ _). by vm_compute.
  - reflexivity.
  - done.
  - done.
Defined.

(** ** Connecting and deleting again *)

Lemma py_remove_snoc c l : c ∉ l -> py_remove c (l ++ [c]) = l.
Proof.
  intros Hc. rewrite (py_remove_middle c l []) by done. by rewrite app_nil_r.
Qed.

Lemma detach_attach b c g :
  c ∉ block_connections g b -> detach b c (attach b c g) = g.
Proof.
  intros Hc. unfold detach, attach, block_connections in *. simpl.
  destruct g as [bh ch bl cl]. unfold set_block_heap. simpl in *. f_equal.
  apply list_eq. intros i.
  destruct (decide (b = i)) as [->|Hne].
  - rewrite !list_lookup_alter_eq. destruct (bh !! i) as [blk|] eqn:Hblk; simpl; [|done].
    rewrite py_remove_snoc by done. by destruct blk.
  - by rewrite !list_lookup_alter_ne.
Qed.

Lemma detach_attach_other b b' c g :
  b <> b' -> detach b c (attach b' c g) = attach b' c (detach b c g).
Proof.
  intros Hne. unfold detach, attach. simpl. unfold set_block_heap. simpl. f_equal.
  apply list_eq. intros i.
  destruct (decide (b = i)) as [->|Hi], (decide (b' = i)) as [->|Hi']; try done.
  - rewrite list_lookup_alter_eq. rewrite !(list_lookup_alter_ne _ _ b' i) by done.
    by rewrite list_lookup_alter_eq.
  - rewrite (list_lookup_alter_ne _ _ b i) by done. rewrite !list_lookup_alter_eq.
    by rewrite (list_lookup_alter_ne _ _ b i) by done.
  - by rewrite !list_lookup_alter_ne.
Qed.

(** A connection made by [create_connection_between_blocks] and
    deleted right away leaves the diagram as it was: the same lists,
    the same blocks with the same connection lists, the same
    connection objects. *)
Theorem connect_then_delete_restores (g g1 : HardwareDesignGUI) (s t : block_ref) :
  well_formed g -> s ∈ blocks g -> t ∈ blocks g ->
  create_connection_between_blocks s t g = (g1, true) ->
  let g2 := delete_connection (length (conn_heap g)) true true g1 in
  connections g1 = connections g ++ [length (conn_heap g)] /\
  blocks g2 = blocks g /\ connections g2 = connections g /\
  block_heap g2 = block_heap g /\
  (forall c, (c < length (conn_heap g))%nat -> conn_heap g2 !! c = conn_heap g !! c).
Proof.
  intros Hwf Hs Ht Hcreate. cbv zeta.
  rewrite create_connection_unfold in Hcreate.
  destruct (bool_decide (s <> t) && can_add_connection g s && can_add_connection g t)
    eqn:Hguard; [|done].
  apply andb_true_iff in Hguard as [[Hne _]%andb_true_iff _].
  apply bool_decide_eq_true in Hne.
  injection Hcreate as <-.
  set (c := length (conn_heap g)).
  set (conn := FIFOConnection.mk s t (fifo_name (existing_connections g s t)) 16 32
                 (get_next_available_src_channel g s)
                 (get_next_available_dst_channel g t)).
  set (g0 := set_conn_heap (conn_heap g ++ [conn]) g).
  assert (forall b, b ∈ blocks g -> c ∉ block_connections g b) as Hfresh.
  { intros b Hb Hc. rewrite (wf_incident g Hwf b Hb) in Hc.
    apply elem_of_incident_among_iff in Hc as [Hc _].
    apply (well_formed_valid_connection g c Hwf) in Hc. unfold c in Hc. lia. }
  assert (c ∉ connections g) as Hfresh'.
  { intros Hc. apply (well_formed_valid_connection g c Hwf) in Hc. unfold c in Hc. lia. }
  set (g1 := set_connections (connections g ++ [c]) (attach t c (attach s c g0))).
  assert (conn_heap g1 !! c = Some conn) as Hc.
  { unfold g1. cbn [conn_heap set_connections]. rewrite !conn_heap_attach.
    unfold g0. cbn [conn_heap set_conn_heap].
    by rewrite lookup_app_r, Nat.sub_diag by done. }
  assert (delete_connection c true true g1 = set_connections (connections g) g0) as ->.
  { unfold delete_connection. cbn [andb negb]. rewrite Hc. cbv zeta.
    cbn [FIFOConnection.source_block FIFOConnection.target_block conn].
    change (detach t c (detach s c g1))
      with (set_connections (connections g ++ [c])
              (detach t c (detach s c (attach t c (attach s c g0))))).
    rewrite detach_attach_other by done.
    rewrite (detach_attach s) by (by apply Hfresh).
    rewrite (detach_attach t) by (by apply Hfresh).
    cbn [connections set_connections]. by rewrite py_remove_snoc. }
  split_and!; try done.
  intros c' Hc'. unfold g0. cbn [conn_heap set_connections set_conn_heap].
  by rewrite lookup_app_l.
Qed.

Lemma connect_then_delete_restores_witness :
  connections (delete_connection 3%nat true true
                 (create_connection_between_blocks 2%nat 1%nat small_diagram).1)
  = connections small_diagram.
Proof.
  refine (proj1 (proj2 (proj2
            (connect_then_delete_restores small_diagram
               (create_connection_between_blocks 2%nat 1%nat small_diagram).1
               2%nat 1%nat _ _ _ _)))).
  - apply reachable_well_formed. by eexists.
  - refine (bool_decide_unpack _ _). by vm_compute.
  - refine (bool_decide_unpack _ _). by vm_compute.
  - reflexivity.
Defined.

(** ** Reassigning twice *)

Lemma connections_eq_by_parts (l l' : list FIFOConnection.t) :
  sans_channels <$> l = sans_channels <$> l' ->
  (fun conn => (FIFOConnection.src_ch_num conn, FIFOConnection.dst_ch_num conn)) <$> l
  = (fun conn => (FIFOConnection.src_ch_num conn, FIFOConnection.dst_ch_num conn)) <$> l' ->
  l = l'.
Proof.
  revert l'. induction l as [|[s t n d w sc dc] l IH]; intros [|[s' t' n' d' w' sc' dc'] l'];
    try done.
  rewrite !fmap_cons. intros [= -> -> -> -> -> Hl] [= -> -> Hl']. f_equal. by apply IH.
Qed.

(** Reassigning the channels a second time changes nothing: the
    connections come out of the second pass as they came out of the
    first. *)
Theorem reassign_all_channels_idempotent (g : HardwareDesignGUI) :
  well_formed g ->
  let g1 := reassign_all_channels true g in
  let g2 := reassign_all_channels true g1 in
  blocks g2 = blocks g1 /\ connections g2 = connections g1 /\
  diagram_connections g2 = diagram_connections g1.
Proof.
  intros Hwf. cbv zeta.
  pose proof (well_formed_reassign_all_channels true g Hwf) as Hwf1.
  destruct (reassign_all_channels_state g Hwf) as (Hb & Hc & Hsans & _ & _ & Hch).
  destruct (reassign_all_channels_state _ Hwf1) as (Hb1 & Hc1 & Hsans1 & _ & _ & Hch1).
  cbv zeta in *. split_and!; [done..|].
  apply connections_eq_by_parts.
  - unfold diagram_connections. rewrite Hc1. by apply fmap_omap_lookup_ext.
  - change (channels (reassign_all_channels true (reassign_all_channels true g))
            = channels (reassign_all_channels true g)).
    rewrite Hch1, Hch. f_equal. unfold endpoints, diagram_connections. rewrite Hc.
    apply (fmap_omap_lookup_ext ends_of). intros c.
    specialize (Hsans c).
    destruct (conn_heap (reassign_all_channels true g) !! c) as [[]|],
             (conn_heap g !! c) as [[]|];
      unfold sans_channels, ends_of in *; simpl in *; congruence.
Qed.

Lemma reassign_all_channels_idempotent_witness :
  diagram_connections
    (reassign_all_channels true (reassign_all_channels true three_from_one_source))
  = diagram_connections (reassign_all_channels true three_from_one_source).
Proof.
  refine (proj2 (proj2 (reassign_all_channels_idempotent three_from_one_source _))).
  apply reachable_well_formed. by eexists.
Defined.

(** ** Renumbering the blocks *)

Lemma renumber_loop (l : list (nat * nat)) : forall g,
  NoDup l.*2 ->
  let g' := foldl (fun g '(i, block) =>
                     update_block block (set_number (Some (Z.of_nat i + 1))) g) g l in
  blocks g' = blocks g /\ connections g' = connections g /\ conn_heap g' = conn_heap g /\
  (forall i b, (i, b) ∈ l ->
     block_heap g' !! b = set_number (Some (Z.of_nat i + 1)) <$> block_heap g !! b) /\
  (forall b, b ∉ l.*2 -> block_heap g' !! b = block_heap g !! b) /\
  (well_formed g -> well_formed g').
Proof.
  induction l as [|[i0 b0] l IH]; intros g Hnd.
  - cbv zeta. simpl. split_and!; try done. by intros i b ?%elem_of_nil.
  - rewrite fmap_cons in Hnd. apply NoDup_cons in Hnd as [Hb0 Hnd]. simpl in Hb0.
    cbn [foldl]. cbv zeta.
    set (g1 := update_block b0 (set_number (Some (Z.of_nat i0 + 1))) g).
    destruct (IH g1 Hnd) as (Hb & Hc & Hch & Hin & Hout & Hwf). cbv zeta in *.
    split_and!; [by rewrite Hb|by rewrite Hc|by rewrite Hch| | |].
    + intros i b [[= -> ->]|Hib]%elem_of_cons.
      * rewrite (Hout b0 Hb0). unfold g1, update_block. simpl.
        by rewrite list_lookup_alter_eq.
      * rewrite (Hin i b Hib). unfold g1, update_block. simpl.
        rewrite list_lookup_alter_ne; [done|]. intros ->. apply Hb0.
        apply list_elem_of_fmap. by exists (i, b).
    + intros b Hb'. rewrite fmap_cons in Hb'. apply not_elem_of_cons in Hb' as [Hne Hb'].
      rewrite (Hout b Hb'). unfold g1, update_block. simpl.
      by rewrite list_lookup_alter_ne.
    + intros Hwf0. apply Hwf. by apply well_formed_update_block.
Qed.

Lemma numbers_in_order (h h' : list Block.t) (bs : list nat) : forall k,
  (forall j b, bs !! j = Some b ->
     is_Some (h !! b) /\
     h' !! b = set_number (Some (Z.of_nat (k + j) + 1)) <$> h !! b) ->
  Block.number <$> omap (fun b => h' !! b) bs
  = (fun i : nat => Some (Z.of_nat i + 1)) <$> seq k (length bs).
Proof.
  induction bs as [|b bs IH]; intros k Hbs; [done|].
  destruct (Hbs 0%nat b eq_refl) as [[blk Hblk] Hb].
  simpl. rewrite Hb, Hblk. simpl. rewrite Nat.add_0_r. f_equal.
  apply IH. intros j b' Hj. destruct (Hbs (S j) b' Hj) as [? Heq].
  split; [done|]. rewrite Heq. do 4 f_equal. lia.
Qed.

(** [renumber_blocks], once confirmed, gives the blocks the numbers
    1, 2, 3, ... in the order of the list of blocks and changes
    nothing else: every block keeps its place, size, name and
    connection list, and the lists and the connections are as
    before.  Declined, it changes nothing. *)
Theorem renumber_blocks_in_list_order (g : HardwareDesignGUI) :
  well_formed g -> NoDup (blocks g) ->
  let g' := renumber_blocks true g in
  blocks g' = blocks g /\ connections g' = connections g /\ conn_heap g' = conn_heap g /\
  (forall i b, blocks g !! i = Some b ->
     block_heap g' !! b = set_number (Some (Z.of_nat i + 1)) <$> block_heap g !! b) /\
  Block.number <$> diagram_blocks g'
    = (fun i : nat => Some (Z.of_nat i + 1)) <$> seq 0 (length (blocks g)) /\
  well_formed g' /\
  renumber_blocks false g = g.
Proof.
  intros Hwf Hnd. cbv zeta. unfold renumber_blocks.
  assert ((zip (seq 0 (length (blocks g))) (blocks g)).*2 = blocks g) as Hsnd.
  { apply snd_zip. by rewrite length_seq. }
  destruct (renumber_loop (zip (seq 0 (length (blocks g))) (blocks g)) g)
    as (Hb & Hc & Hch & Hin & _ & Hwf'); [by rewrite Hsnd|].
  cbv zeta in *.
  assert (forall i b, blocks g !! i = Some b ->
            (i, b) ∈ zip (seq 0 (length (blocks g))) (blocks g)) as Hzip.
  { intros i b Hi. apply list_elem_of_lookup. exists i.
    apply lookup_zip_with_Some. exists i, b. split_and!; [done| |done].
    apply lookup_seq. split; [done|]. by eapply lookup_lt_Some. }
  split_and!; [done..| | |by apply Hwf'|done].
  - intros i b Hi. by apply Hin, Hzip.
  - unfold diagram_blocks. rewrite Hb. apply (numbers_in_order (block_heap g)).
    intros j b Hj. split.
    + apply (wf_blocks g Hwf). by eapply list_elem_of_lookup_2.
    + by apply Hin, Hzip.
Qed.

Lemma renumber_blocks_in_list_order_witness :
  Block.number <$> diagram_blocks (renumber_blocks true small_diagram)
  = [Some 1; Some 2; Some 3].
Proof.
  refine (proj1 (proj2 (proj2 (proj2 (proj2
            (renumber_blocks_in_list_order small_diagram _ _)))))).
  - apply reachable_well_formed. by eexists.
  - apply reachable_listed_once. by eexists.
Defined.

(** ** Where things are put *)

Lemma Block_contains_point_spec self x y :
  Block_contains_point self x y = true <->
  (Block.x self <= x /\ x <= Block.x self + Block.width self /\
   Block.y self <= y /\ y <= Block.y self + Block.height self)%Q.
Proof.
  unfold Block_contains_point. rewrite !andb_true_iff, !Qle_bool_iff. tauto.
Qed.

Lemma is_resize_handle_spec self x y :
  is_resize_handle self x y = true <->
  (Block.x self + Block.width self - 10 <= x /\
   x <= Block.x self + Block.width self - 10 + 10 /\
   Block.y self + Block.height self - 10 <= y /\
   y <= Block.y self + Block.height self - 10 + 10)%Q.
Proof.
  unfold is_resize_handle. cbv zeta. rewrite !andb_true_iff, !Qle_bool_iff. tauto.
Qed.

Lemma py_max_ge_first first rest : (first <= py_max first rest)%Q.
Proof.
  unfold py_max. revert first. induction rest as [|v rest IH]; intros first; simpl.
  - apply Qle_refl.
  - destruct (Qltb first v) eqn:Hv.
    + apply Qltb_lt in Hv. eapply Qle_trans; [|apply IH]. by apply Qlt_le_weak.
    + apply IH.
Qed.

Lemma py_max_ge first rest v : v ∈ first :: rest -> (v <= py_max first rest)%Q.
Proof.
  revert first. induction rest as [|w rest IH]; intros first Hv.
  - apply list_elem_of_singleton in Hv. rewrite Hv. apply Qle_refl.
  - apply elem_of_cons in Hv as [Hv|Hv]; [rewrite Hv; apply py_max_ge_first|].
    unfold py_max. simpl. fold (py_max (if Qltb first w then w else first) rest).
    apply elem_of_cons in Hv as [Hv|Hv].
    + rewrite Hv. destruct (Qltb first w) eqn:Hw.
      * apply py_max_ge_first.
      * apply Qltb_ge in Hw. eapply Qle_trans; [exact Hw|]. apply py_max_ge_first.
    + apply IH. by right.
Qed.

(** [add_block] with a name adds one block of 150 by 80, without
    number and without connections, and puts it clear of every block
    already there: to the right of all of them, or, past x = 800,
    below all of them, so that no point of the canvas lies in the new
    block and in an old one.  Nothing else changes. *)
Theorem add_block_clear_of_the_others (g : HardwareDesignGUI) (name : string) :
  name <> EmptyString ->
  let g' := add_block (Some name) g in
  exists x y,
    blocks g' = blocks g ++ [length (block_heap g)] /\
    block_heap g' = block_heap g ++ [Block.mk x y 150 80 name None []] /\
    connections g' = connections g /\ conn_heap g' = conn_heap g /\
    (diagram_blocks g = [] -> x = 100%Q /\ y = 100%Q) /\
    forall blk px py, blk ∈ diagram_blocks g ->
      Block_contains_point blk px py = true ->
      Block_contains_point (Block.mk x y 150 80 name None []) px py = false.
Proof.
  intros Hname. cbv zeta. unfold add_block. destruct name as [|a name]; [done|].
  fold (diagram_blocks g). destruct (diagram_blocks g) as [|b0 bs] eqn:Hlive.
  - exists 100%Q, 100%Q. split_and!; try done. by intros blk px py ?%elem_of_nil.
  - set (rights := (fun b => Block.x b + Block.width b)%Q <$> bs).
    set (bottoms := (fun b => Block.y b + Block.height b)%Q <$> bs).
    assert (forall blk, blk ∈ b0 :: bs ->
              (Block.x blk + Block.width blk
               <= py_max (Block.x b0 + Block.width b0) rights)%Q) as Hright.
    { intros blk Hblk. apply py_max_ge.
      apply (list_elem_of_fmap_2 (fun b => Block.x b + Block.width b)%Q) in Hblk.
      by rewrite fmap_cons in Hblk. }
    assert (forall blk, blk ∈ b0 :: bs ->
              (Block.y blk + Block.height blk
               <= py_max (Block.y b0 + Block.height b0) bottoms)%Q) as Hbottom.
    { intros blk Hblk. apply py_max_ge.
      apply (list_elem_of_fmap_2 (fun b => Block.y b + Block.height b)%Q) in Hblk.
      by rewrite fmap_cons in Hblk. }
    destruct (Qltb 800 (py_max (Block.x b0 + Block.width b0) rights + 50)).
    + eexists _, _. split_and!; try done.
      intros blk px py Hblk (_ & _ & _ & Hpy)%Block_contains_point_spec.
      apply not_true_is_false. intros (_ & _ & Hy & _)%Block_contains_point_spec.
      simpl in Hy. specialize (Hbottom blk Hblk). lra.
    + eexists _, _. split_and!; try done.
      intros blk px py Hblk (_ & Hpx & _ & _)%Block_contains_point_spec.
      apply not_true_is_false. intros (Hx & _ & _ & _)%Block_contains_point_spec.
      simpl in Hx. specialize (Hright blk Hblk). lra.
Qed.

Lemma add_block_clear_of_the_others_witness :
  blocks (add_block (Some "D") small_diagram) = [0; 1; 2; 3]%nat.
Proof.
  destruct (add_block_clear_of_the_others small_diagram "D") as (x & y & H & _).
  - done.
  - exact H.
Defined.

(** The resize handle of a block of at least 10 by 10, as all the
    blocks the editor makes are, lies within the block: a point on
    the handle is a point of the block. *)
Theorem resize_handle_within_block (self : Block.t) (x y : Q) :
  (10 <= Block.width self)%Q -> (10 <= Block.height self)%Q ->
  is_resize_handle self x y = true -> Block_contains_point self x y = true.
Proof.
  intros Hw Hh (H1 & H2 & H3 & H4)%is_resize_handle_spec.
  apply Block_contains_point_spec. split_and!; lra.
Qed.

Lemma resize_handle_within_block_witness :
  Block_contains_point (Block.mk 100 100 150 80 "A" None []) 245 175 = true.
Proof.
  apply (resize_handle_within_block (Block.mk 100 100 150 80 "A" None []) 245 175);
    [by vm_compute..|reflexivity].
Defined.







(** ** Importing connections *)

Lemma import_record_cases m f g :
  (exists msg, import_record m f g = (g, Some msg)) \/
  (exists sn tn s t,
     if_source f = Some sn /\ if_dest f = Some tn /\
     m !! sn = Some s /\ m !! tn = Some t /\
     import_record m f g =
     ((append_new_connection s t (if_name f) (if_depth f) (if_width f)
         (Some (if_source_channel f)) (Some (if_dest_channel f)) g).1, None)).
Proof.
  unfold import_record.
  destruct (if_source f) as [sn|]; [|left; by eexists].
  destruct (if_dest f) as [tn|]; [|left; by eexists].
  destruct (m !! sn) as [s|] eqn:Hs; [|left; by eexists].
  destruct (m !! tn) as [t|] eqn:Ht; [|left; by eexists].
  destruct (negb (can_add_connection g s)); [left; by eexists|].
  destruct (negb (can_add_connection g t)); [left; by eexists|].
  right. by exists sn, tn, s, t.
Qed.

Lemma block_heap_append_new_connection_fmap {A} (f : Block.t -> A)
    s t name depth width sc dc g b :
  (forall l blk, f (Block.set_connections l blk) = f blk) ->
  f <$> block_heap (append_new_connection s t name depth width sc dc g).1 !! b
  = f <$> block_heap g !! b.
Proof.
  intros Hf.
  destruct (append_new_connection_state s t name depth width sc dc g)
    as (sc' & dc' & _ & _ & ->).
  cbn [fst]. rewrite block_heap_set_connections. by rewrite !attach_lookup_fmap.
Qed.

Lemma import_records_report m l : forall g r,
  let res := foldl (fun '(g, r) f =>
                      match import_record m f g with
                      | (g', None) =>
                          (g', mkReport (S (imported_count r)) (skipped_count r)
                                 (error_messages r))
                      | (g', Some msg) =>
                          (g', mkReport (imported_count r) (S (skipped_count r))
                                 (error_messages r ++ [msg]))
                      end) (g, r) l in
  exists k new,
    (k <= length l)%nat /\
    imported_count res.2 = (imported_count r + k)%nat /\
    skipped_count res.2 = (skipped_count r + (length l - k))%nat /\
    length (error_messages res.2) = (length (error_messages r) + (length l - k))%nat /\
    blocks res.1 = blocks g /\
    connections res.1 = connections g ++ seq (length (conn_heap g)) k /\
    conn_heap res.1 = conn_heap g ++ new /\ length new = k /\
    (forall b, block_tuple <$> block_heap res.1 !! b = block_tuple <$> block_heap g !! b).
Proof.
  induction l as [|f l IH]; intros g r; cbv zeta.
  - exists 0%nat, []. simpl. rewrite !Nat.add_0_r, !app_nil_r. by split_and!.
  - cbn [foldl].
    destruct (import_record_cases m f g)
      as [[msg ->]|(sn & tn & s & t & _ & _ & _ & _ & ->)].
    + destruct (IH g (mkReport (imported_count r) (S (skipped_count r))
                        (error_messages r ++ [msg])))
        as (k & new & Hk & H1 & H2 & H3 & H4 & H5 & H6 & H7 & H8).
      cbv zeta in *. exists k, new. simpl in H1, H2, H3.
      rewrite length_app in H3. simpl in H3. simpl.
      split_and!; try done; lia.
    + set (g1 := (append_new_connection s t (if_name f) (if_depth f) (if_width f)
                    (Some (if_source_channel f)) (Some (if_dest_channel f)) g).1).
      destruct (IH g1 (mkReport (S (imported_count r)) (skipped_count r)
                         (error_messages r)))
        as (k & new & Hk & H1 & H2 & H3 & H4 & H5 & H6 & H7 & H8).
      cbv zeta in *. simpl in H1, H2, H3.
      destruct (append_new_connection_frame s t (if_name f) (if_depth f) (if_width f)
                  (Some (if_source_channel f)) (Some (if_dest_channel f)) g)
        as (Hb1 & _ & Hc1).
      pose proof (conn_heap_append_new_connection s t (if_name f) (if_depth f)
                    (if_width f) (Some (if_source_channel f))
                    (Some (if_dest_channel f)) g) as Hh1.
      cbv zeta in Hb1, Hc1. fold g1 in Hb1, Hc1, Hh1.
      eexists (S k), (_ :: new). simpl.
      split_and!; try lia.
      * by rewrite H4.
      * rewrite H5, Hc1, Hh1, length_app, <- (assoc_L (++)). simpl.
        by rewrite Nat.add_1_r.
      * rewrite H6, Hh1, <- (assoc_L (++)). done.
      * intros b. rewrite H8. by apply block_heap_append_new_connection_fmap.
Qed.

(** [import_connections_json] on a file with one of its two keys
    accounts for every record, imported or skipped, with one message
    per skipped record; it appends one new connection object per
    imported record to the list of connections and touches neither
    the older connections nor the blocks' names, places, sizes and
    numbers. *)
Theorem import_connections_json_accounts (data : DesignData.t)
    (g g' : HardwareDesignGUI) (r : import_report) :
  import_connections_json data g = (g', inr r) ->
  (imported_count r + skipped_count r = length (import_fields_of data))%nat /\
  length (error_messages r) = skipped_count r /\
  blocks g' = blocks g /\
  connections g' = connections g ++ seq (length (conn_heap g)) (imported_count r) /\
  (exists new, conn_heap g' = conn_heap g ++ new /\ length new = imported_count r) /\
  block_tuples g' = block_tuples g.
Proof.
  unfold import_connections_json, import_fields_of, import_records.
  intros Hrun.
  assert (exists l, (g', r) =
            foldl (fun '(g0, r) f =>
                     match import_record (block_map_of g) f g0 with
                     | (g', None) =>
                         (g', mkReport (S (imported_count r)) (skipped_count r)
                                (error_messages r))
                     | (g', Some msg) =>
                         (g', mkReport (imported_count r) (S (skipped_count r))
                                (error_messages r ++ [msg]))
                     end) (g, mkReport 0 0 []) l /\
            l = match DesignData.fifo_infos data, DesignData.connections data with
                | Some l, _ => fields_of_fifo_info <$> l
                | None, Some l => fields_of_legacy <$> l
                | None, None => []
                end) as (l & Hres & <-).
  { destruct (DesignData.fifo_infos data) as [l|];
      [|destruct (DesignData.connections data) as [l|]]; [| |done];
      eexists; (split; [|done]);
      match type of Hrun with prod_map _ _ ?X = _ =>
        destruct X as [g1 r1] eqn:HX end;
      injection Hrun as <- <-; first [done|symmetry; exact HX]. }
  destruct (import_records_report (block_map_of g) l g (mkReport 0 0 []))
    as (k & new & Hk & H1 & H2 & H3 & H4 & H5 & H6 & H7 & H8).
  cbv zeta in *. rewrite <- Hres in *. simpl in *.
  split_and!; [lia|lia|done|by rewrite H1|exists new; by rewrite H1|].
  by apply block_tuples_ext.
Qed.

Lemma import_connections_json_accounts_witness :
  (imported_count (mkReport 0 1 ["Source block 'P' not found"])
   + skipped_count (mkReport 0 1 ["Source block 'P' not found"]) = 1)%nat.
Proof.
  refine (proj1 (import_connections_json_accounts one_fifo_file small_diagram
                   small_diagram (mkReport 0 1 ["Source block 'P' not found"]) _)).
  reflexivity.
Defined.

Lemma names_resolve_block_map_of g : names_resolve g (block_map_of g).
Proof.
  unfold block_map_of.
  assert (forall l (m : gmap string nat),
            names_resolve g m ->
            (forall b, b ∈ l -> b ∈ blocks g) ->
            names_resolve g
              (foldl (fun m b => match block_heap g !! b with
                                 | Some blk => <[Block.name blk := b]> m
                                 | None => m
                                 end) m l)) as Hgen.
  { induction l as [|b0 l IH]; intros m Hm Hl; [done|]. simpl. apply IH.
    - destruct (block_heap g !! b0) as [blk|] eqn:Hblk; [|done].
      intros name b. rewrite lookup_insert. case_decide as Hname.
      + intros [= <-]. split; [apply Hl; by left|]. by rewrite Hblk, <- Hname.
      + apply Hm.
    - intros b Hb. apply Hl. by right. }
  apply Hgen; [|done]. intros name b. by rewrite lookup_empty.
Qed.

Lemma import_records_tuples m l : forall g r,
  names_resolve g m ->
  (forall c, c ∈ connections g -> (c < length (conn_heap g))%nat) ->
  let res := foldl (fun '(g, r) f =>
                      match import_record m f g with
                      | (g', None) =>
                          (g', mkReport (S (imported_count r)) (skipped_count r)
                                 (error_messages r))
                      | (g', Some msg) =>
                          (g', mkReport (imported_count r) (S (skipped_count r))
                                 (error_messages r ++ [msg]))
                      end) (g, r) l in
  skipped_count res.2 = skipped_count r ->
  conn_tuples res.1 = conn_tuples g ++ omap fields_tuple l /\
  length (omap fields_tuple l) = length l.
Proof.
  induction l as [|f l IH]; intros g r Hm Hvalid; cbv zeta.
  - simpl. by rewrite app_nil_r.
  - cbn [foldl].
    destruct (import_record_cases m f g)
      as [[msg ->]|(sn & tn & s & t & Hsn & Htn & Hs & Ht & ->)].
    + intros Hskip.
      destruct (import_records_report m l g
                  (mkReport (imported_count r) (S (skipped_count r))
                     (error_messages r ++ [msg])))
        as (k & new & _ & _ & H2 & _).
      cbv zeta in H2. simpl in H2. lia.
    + intros Hskip.
      destruct (Hm sn s Hs) as [_ Hsname], (Hm tn t Ht) as [_ Htname].
      destruct (append_new_connection_tuples s t (if_name f) (if_depth f) (if_width f)
                  (if_source_channel f) (if_dest_channel f) g sn tn Hvalid Hsname Htname)
        as (Hct & _ & Hb & Hnames & Hvalid').
      cbv zeta in *.
      set (g1 := (append_new_connection s t (if_name f) (if_depth f) (if_width f)
                    (Some (if_source_channel f)) (Some (if_dest_channel f)) g).1) in *.
      destruct (IH g1 (mkReport (S (imported_count r)) (skipped_count r)
                         (error_messages r))) as [Hres Hlen]; [| |done|].
      * intros name b Hname. destruct (Hm name b Hname) as [Hin Hnm].
        split; [by rewrite Hb|]. by rewrite Hnames.
      * done.
      * assert (fields_tuple f =
                Some (if_name f, sn, tn, if_source_channel f, if_dest_channel f,
                      if_depth f, if_width f)) as Hf
          by (unfold fields_tuple; by rewrite Hsn, Htn).
        rewrite Hres, Hct, <- (assoc_L (++)). csimpl. rewrite Hf. csimpl.
        split; [done|]. by rewrite Hlen.
Qed.

(** When [import_connections_json] skips nothing, every record of the
    file named both of its blocks, and the connections of the diagram
    are afterwards the old ones followed by one per record, in file
    order, between the blocks bearing the two names and with the
    record's name, channels, depth and width, the defaults of the
    importer standing in for absent keys. *)
Theorem import_connections_json_nothing_skipped (data : DesignData.t)
    (g g' : HardwareDesignGUI) (r : import_report) :
  well_formed g ->
  import_connections_json data g = (g', inr r) ->
  skipped_count r = 0%nat ->
  conn_tuples g' = conn_tuples g ++ omap fields_tuple (import_fields_of data) /\
  length (omap fields_tuple (import_fields_of data)) = length (import_fields_of data).
Proof.
  intros Hwf Hrun Hskip.
  unfold import_connections_json, import_fields_of, import_records in *.
  assert (exists l, (g', r) =
            foldl (fun '(g0, r) f =>
                     match import_record (block_map_of g) f g0 with
                     | (g', None) =>
                         (g', mkReport (S (imported_count r)) (skipped_count r)
                                (error_messages r))
                     | (g', Some msg) =>
                         (g', mkReport (imported_count r) (S (skipped_count r))
                                (error_messages r ++ [msg]))
                     end) (g, mkReport 0 0 []) l /\
            l = match DesignData.fifo_infos data, DesignData.connections data with
                | Some l, _ => fields_of_fifo_info <$> l
                | None, Some l => fields_of_legacy <$> l
                | None, None => []
                end) as (l & Hres & <-).
  { destruct (DesignData.fifo_infos data) as [l|];
      [|destruct (DesignData.connections data) as [l|]]; [| |done];
      eexists; (split; [|done]);
      match type of Hrun with prod_map _ _ ?X = _ =>
        destruct X as [g1 r1] eqn:HX end;
      injection Hrun as <- <-; first [done|symmetry; exact HX]. }
  pose proof (import_records_tuples (block_map_of g) l g (mkReport 0 0 [])
                (names_resolve_block_map_of g)
                (fun c => well_formed_valid_connection g c Hwf)) as Htuples.
  cbv zeta in Htuples. rewrite <- Hres in Htuples. by apply Htuples.
Qed.

Lemma import_connections_json_nothing_skipped_witness :
  conn_tuples (import_connections_json one_connection_file small_diagram).1
  = conn_tuples small_diagram ++ [("X", "A", "B", 5, 6, 16, 32)].
Proof.
  refine (proj1 (import_connections_json_nothing_skipped one_connection_file
                   small_diagram
                   (import_connections_json one_connection_file small_diagram).1
                   (mkReport 1 0 []) _ _ _)).
  - apply reachable_well_formed. by eexists.
  - by vm_compute.
  - reflexivity.
Defined.

Lemma export_fifo_infos_tuples g :
  export_fifo_infos g = info_of_tuple <$> conn_tuples g.
Proof.
  pose proof (save_json_fifo_infos g) as H. unfold save_json in H. simpl in H.
  by injection H.
Qed.

Lemma fields_tuple_info_of_tuple t :
  fields_tuple (fields_of_fifo_info (info_of_tuple t)) = Some t.
Proof. by destruct t as [[[[[[name sn] tn] sc] dc] depth] width]. Qed.

Lemma omap_fields_tuple_info_of_tuple (tl : list (string * string * string * Z * Z * Z * Z)) :
  omap fields_tuple (fields_of_fifo_info <$> (info_of_tuple <$> tl)) = tl.
Proof.
  induction tl as [|t tl IH]; [done|]. rewrite !fmap_cons. csimpl.
  rewrite fields_tuple_info_of_tuple. csimpl. by rewrite IH.
Qed.

(** What [export_connections_json] writes, [import_connections_json]
    reads back: imported into a diagram where no record is skipped,
    the exported connections are appended with their names, the names
    of their blocks, their channels, depths and widths.  A design
    without connections exports nothing. *)
Theorem export_then_import_connections (g g0 g' : HardwareDesignGUI)
    (data : DesignData.t) (r : import_report) :
  well_formed g0 ->
  export_connections_json g = Some data ->
  import_connections_json data g0 = (g', inr r) ->
  skipped_count r = 0%nat ->
  conn_tuples g' = conn_tuples g0 ++ conn_tuples g /\
  (connections g = [] -> export_connections_json g = None).
Proof.
  intros Hwf Hexport Hrun Hskip. split.
  - destruct (import_connections_json_nothing_skipped data g0 g' r Hwf Hrun Hskip)
      as [-> _].
    unfold export_connections_json in Hexport. case_bool_decide; [done|].
    injection Hexport as <-. unfold import_fields_of. simpl.
    by rewrite export_fifo_infos_tuples, omap_fields_tuple_info_of_tuple.
  - intros Hnil. unfold export_connections_json. by rewrite bool_decide_eq_true_2.
Qed.

Lemma export_then_import_connections_witness :
  conn_tuples
    (import_connections_json
       (DesignData.mk None (Some (export_fifo_infos small_diagram)) None)
       small_diagram).1
  = conn_tuples small_diagram ++ conn_tuples small_diagram.
Proof.
  refine (proj1 (export_then_import_connections small_diagram small_diagram
                   (import_connections_json
                      (DesignData.mk None (Some (export_fifo_infos small_diagram)) None)
                      small_diagram).1
                   (DesignData.mk None (Some (export_fifo_infos small_diagram)) None)
                   (mkReport 3 0 []) _ _ _ _)).
  - apply reachable_well_formed. by eexists.
  - by vm_compute.
  - by vm_compute.
  - reflexivity.
Defined.

(** ** Loading a design *)

Lemma load_block_complete m bd g name x y width height number :
  record_tuple bd = Some (name, x, y, width, height, number) ->
  load_block m bd g =
  (set_blocks (blocks g ++ [length (block_heap g)])
     (set_block_heap (block_heap g ++ [Block.mk x y width height name number []]) g),
   inr (<[name := length (block_heap g)]> m)).
Proof.
  destruct bd as [[x0|] [y0|] [w0|] [h0|] [n0|] num conns]; try done.
  simpl. by intros [= -> -> -> -> -> ->].
Qed.

Lemma load_block_incomplete m bd g :
  record_tuple bd = None ->
  load_block m bd g = (g, inl ("'" +:+ missing_key bd +:+ "'")).
Proof. by destruct bd as [[x0|] [y0|] [w0|] [h0|] [n0|] num conns]. Qed.

Lemma load_blocks_complete bds : forall m g,
  Forall (fun bd => is_Some (record_tuple bd)) bds ->
  names_resolve g m ->
  (forall b, b ∈ blocks g -> (b < length (block_heap g))%nat) ->
  exists g' m' blks,
    fold_each load_block m bds g = (g', inr m') /\
    block_heap g' = block_heap g ++ blks /\
    block_tuple <$> blks = omap record_tuple bds /\
    length blks = length bds /\
    conn_heap g' = conn_heap g /\
    blocks g' = blocks g ++ seq (length (block_heap g)) (length bds) /\
    connections g' = connections g /\
    names_resolve g' m' /\
    (forall name, is_Some (m' !! name) <->
                  is_Some (m !! name) \/ name ∈ omap BlockData.name bds).
Proof.
  induction bds as [|bd bds IH]; intros m g Hall Hm Hvalid.
  - exists g, m, []. simpl. rewrite !app_nil_r. split_and!; try done.
    intros name. split; [by left|]. intros [?|Hin]; [done|]. by apply elem_of_nil in Hin.
  - apply Forall_cons in Hall as [[[[[[[name x] y] w] h] num] Hbd] Hall].
    rewrite fold_each_cons, (load_block_complete m bd g name x y w h num Hbd).
    set (g1 := set_blocks _ _).
    destruct (IH (<[name := length (block_heap g)]> m) g1 Hall)
      as (g' & m' & blks & Hrun & Hbh & Hbt & Hlen & Hch & Hbl & Hcl & Hres & Hdom).
    { intros nm b. rewrite lookup_insert. case_decide as Hn.
      - intros [= <-]. subst nm. simpl. split.
        + apply elem_of_app. right. by left.
        + by rewrite lookup_app_r, Nat.sub_diag.
      - intros Hb. destruct (Hm _ _ Hb) as [Hin Hname]. simpl. split.
        + apply elem_of_app. by left.
        + rewrite lookup_app_l; [done|]. by apply Hvalid. }
    { simpl. intros b [Hb| ->%list_elem_of_singleton]%elem_of_app;
        rewrite length_app; simpl; [|lia].
      specialize (Hvalid _ Hb). lia. }
    exists g', m', (Block.mk x y w h name num [] :: blks).
    assert (BlockData.name bd = Some name) as Hname.
    { destruct bd as [[x0|] [y0|] [w0|] [h0|] [n0|] ? ?]; try done.
      simpl in Hbd. by injection Hbd as ->. }
    split_and!.
    + done.
    + rewrite Hbh. unfold g1. cbn [block_heap set_blocks set_block_heap].
      by rewrite <- app_assoc.
    + rewrite fmap_cons, Hbt. csimpl. by rewrite Hbd.
    + simpl. by rewrite Hlen.
    + by rewrite Hch.
    + rewrite Hbl. unfold g1. cbn [block_heap blocks set_blocks set_block_heap].
      rewrite length_app, <- app_assoc. simpl. by rewrite Nat.add_1_r.
    + by rewrite Hcl.
    + done.
    + intros nm. rewrite Hdom, lookup_insert. csimpl. rewrite Hname. csimpl.
      rewrite elem_of_cons.
      case_decide as Hn; [subst nm|].
      * split; [intros _; right; by left|]. intros _. left. by eexists.
      * split; [tauto|]. intros [?|[?|?]]; [tauto|congruence|tauto].
Qed.

Lemma load_fifo_complete m fi g t :
  fifo_tuple fi = Some t -> load_fifo m fi g = load_fifo m (info_of_tuple t) g.
Proof.
  destruct fi as [[name|] [src|] sc [dst|] dc [qd|] [width|]]; try done.
  simpl. by intros [= <-].
Qed.

Lemma load_fifo_unknown m name sn tn sc dc depth width g :
  m !! sn = None \/ m !! tn = None ->
  load_fifo m (info_of_tuple (name, sn, tn, sc, dc, depth, width)) g = (g, inr tt).
Proof.
  intros Hunknown. unfold load_fifo, info_of_tuple, mbind, M_bind, key. simpl.
  destruct (m !! sn), (m !! tn); try done. by destruct Hunknown.
Qed.

Lemma load_fifos_known m names infos : forall g,
  Forall (fun fi => is_Some (fifo_tuple fi)) infos ->
  names_resolve g m ->
  (forall name, is_Some (m !! name) <-> name ∈ names) ->
  (forall c, c ∈ connections g -> (c < length (conn_heap g))%nat) ->
  exists g',
    for_each (load_fifo m) infos g = (g', inr tt) /\
    conn_tuples g' =
      conn_tuples g ++ filter (fun t => known names t = true) (omap fifo_tuple infos) /\
    block_tuples g' = block_tuples g /\
    blocks g' = blocks g.
Proof.
  induction infos as [|fi infos IH]; intros g Hall Hm Hdom Hvalid.
  - exists g. simpl. by rewrite app_nil_r.
  - apply Forall_cons in Hall as [[t Hfi] Hall].
    unfold for_each. rewrite fold_each_cons, (load_fifo_complete m fi g t Hfi).
    csimpl. rewrite Hfi. csimpl. rewrite filter_cons.
    destruct t as [[[[[[name sn] tn] sc] dc] depth] width].
    destruct (decide (known names (name, sn, tn, sc, dc, depth, width) = true))
      as [Hknown|Hunknown].
    + unfold known in Hknown. simpl in Hknown.
      apply andb_true_iff in Hknown as [Hs%bool_decide_eq_true Ht%bool_decide_eq_true].
      apply Hdom in Hs as [bs Hbs], Ht as [bt Hbt].
      destruct (Hm _ _ Hbs) as [_ Hsn], (Hm _ _ Hbt) as [_ Htn].
      pose proof (append_new_connection_tuples bs bt name depth width sc dc g sn tn
                    Hvalid Hsn Htn) as Happ.
      cbv zeta in Happ. destruct Happ as (Hct & Hbt' & Hbl & Hnames & Hvalid').
      rewrite (load_fifo_tuple m name sn tn sc dc depth width bs bt) by done.
      rewrite append_new_connection_given in *. cbn [fst] in *.
      set (g1 := set_connections _ _) in *.
      destruct (IH g1) as (g' & Hrun & Hct' & Hbt'' & Hbl'); [done| |done|done|].
      { intros nm b Hb. destruct (Hm _ _ Hb) as [Hin Hnm].
        rewrite Hbl, Hnames. done. }
      exists g'. split; [done|].
      rewrite Hct', Hct, Hbt'', Hbt', Hbl', Hbl, <- app_assoc. done.
    + rewrite load_fifo_unknown.
      * destruct (IH g) as (g' & Hrun & Hct' & Hbt'' & Hbl'); [done..|].
        by exists g'.
      * unfold known in Hunknown. simpl in Hunknown.
        apply not_true_is_false, andb_false_iff in Hunknown
          as [Hs%bool_decide_eq_false|Ht%bool_decide_eq_false].
        -- left. apply eq_None_not_Some. by rewrite Hdom.
        -- right. apply eq_None_not_Some. by rewrite Hdom.
Qed.

(** [load_json] on a design file in the current format, the clearing
    confirmed or nothing to clear: when every entry of [blocks] has
    its five keys and every entry of [fifo_infos] its name, blocks,
    depth and width, the diagram is afterwards made of one block per
    entry, in file order and as the file describes it, and of one
    connection per entry of [fifo_infos] whose two block names are
    names of blocks of the file, in file order, with the channels of
    the file or 0; the other entries are passed over in silence, and
    no limit on the connections of a block applies. *)
Theorem load_json_reads_the_file (g : HardwareDesignGUI) (answer : bool)
    (data : DesignData.t) (bds : list BlockData.t) (infos : list FifoInfo.t) :
  DesignData.blocks data = Some bds ->
  DesignData.fifo_infos data = Some infos ->
  Forall (fun bd => is_Some (record_tuple bd)) bds ->
  Forall (fun fi => is_Some (fifo_tuple fi)) infos ->
  answer = true \/ (blocks g = [] /\ connections g = []) ->
  let r := load_json answer data g in
  r.2 = Success /\
  block_tuples r.1 = omap record_tuple bds /\
  conn_tuples r.1 =
    filter (fun t => known (omap BlockData.name bds) t = true) (omap fifo_tuple infos).
Proof.
  intros Hblocks Hinfos Hbds Hfis Hclear. cbv zeta.
  set (g1 := set_connections [] (set_blocks [] g)).
  assert (new_design answer g = g1) as Hnew.
  { unfold new_design. destruct Hclear as [->|[Hb Hc]].
    - by rewrite andb_false_r.
    - by rewrite Hb, Hc. }
  destruct (load_blocks_complete bds ∅ g1 Hbds)
    as (g2 & m & blks & Hrun2 & Hbh & Hbt & Hlen & Hch & Hbl & Hcl & Hres & Hdom).
  { intros name b. by rewrite lookup_empty. }
  { intros b Hb. by apply elem_of_nil in Hb. }
  destruct (load_fifos_known m (omap BlockData.name bds) infos g2 Hfis Hres)
    as (g3 & Hrun3 & Hct & Hbt3 & Hbl3).
  { intros name. rewrite Hdom, lookup_empty. split; [|by right].
    intros [[? [=]]|?]; done. }
  { rewrite Hcl. by intros c ?%elem_of_nil. }
  assert (load_json_body answer data g = (g3, inr Success)) as Hbody.
  { unfold load_json_body.
    rewrite (M_bind_ok _ _ g g1 tt) by (unfold lift; by rewrite Hnew).
    rewrite Hblocks, Hinfos.
    rewrite (M_bind_ok _ _ _ _ _ Hrun2).
    by rewrite (M_bind_ok _ _ _ _ _ Hrun3). }
  unfold load_json. rewrite Hbody. cbn [fst snd]. split; [done|].
  split.
  - rewrite Hbt3. unfold block_tuples, diagram_blocks.
    rewrite Hbl, Hbh. simpl. rewrite <- Hlen, omap_lookup_fresh. done.
  - rewrite Hct. unfold conn_tuples at 1, diagram_connections. by rewrite Hcl.
Qed.

Lemma load_json_reads_the_file_witness :
  (load_json true design_with_stray small_diagram).2 = Success /\
  conn_tuples (load_json true design_with_stray small_diagram).1
  = [("FIFO", "A", "B", 0, 0, 16, 32)].
Proof.
  assert (Forall (fun bd => is_Some (record_tuple bd))
            [block_record "A" (100 # 1); block_record "B" (300 # 1)]) as Hbds
    by (repeat (constructor; [by eexists|]); constructor).
  assert (Forall (fun fi => is_Some (fifo_tuple fi))
            [fifo_record "FIFO" "A" "B" 0 0; fifo_record "FIFO" "A" "Z" 1 0]) as Hfis
    by (repeat (constructor; [by eexists|]); constructor).
  destruct (load_json_reads_the_file small_diagram true design_with_stray
              _ _ eq_refl eq_refl Hbds Hfis (or_introl eq_refl)) as (H1 & _ & H3).
  split; [exact H1|exact H3].
Defined.

(** [load_json] is not all-or-nothing.  When the entries of [blocks]
    are complete up to one that lacks a key, the design on the canvas
    has been cleared, the blocks of the entries before that one have
    been made, and the call ends there with the missing key in its
    error message: no further block and no connection is read. *)
Theorem load_json_stops_at_incomplete_block (g : HardwareDesignGUI) (answer : bool)
    (data : DesignData.t) (good rest : list BlockData.t) (bad : BlockData.t) :
  DesignData.blocks data = Some (good ++ bad :: rest) ->
  Forall (fun bd => is_Some (record_tuple bd)) good ->
  record_tuple bad = None ->
  answer = true \/ (blocks g = [] /\ connections g = []) ->
  let r := load_json answer data g in
  r.2 = Error ("Failed to load: '" +:+ missing_key bad +:+ "'") /\
  block_tuples r.1 = omap record_tuple good /\
  connections r.1 = [].
Proof.
  intros Hblocks Hgood Hbad Hclear. cbv zeta.
  set (g1 := set_connections [] (set_blocks [] g)).
  assert (new_design answer g = g1) as Hnew.
  { unfold new_design. destruct Hclear as [->|[Hb Hc]].
    - by rewrite andb_false_r.
    - by rewrite Hb, Hc. }
  destruct (load_blocks_complete good ∅ g1 Hgood)
    as (g2 & m & blks & Hrun2 & Hbh & Hbt & Hlen & Hch & Hbl & Hcl & Hres & Hdom).
  { intros name b. by rewrite lookup_empty. }
  { intros b Hb. by apply elem_of_nil in Hb. }
  assert (forall l m0 g0,
            fold_each load_block m0 (good ++ l) g0 =
            match fold_each load_block m0 good g0 with
            | (g', inr m') => fold_each load_block m' l g'
            | (g', inl e) => (g', inl e)
            end) as Happ.
  { clear. induction good as [|bd good IH]; intros l m0 g0; [done|].
    rewrite <- app_comm_cons, !fold_each_cons.
    destruct (load_block m0 bd g0) as [g' [e|m']]; [done|]. apply IH. }
  assert (load_json_body answer data g
          = (g2, inl ("'" +:+ missing_key bad +:+ "'"))) as Hbody.
  { unfold load_json_body.
    rewrite (M_bind_ok _ _ g g1 tt) by (unfold lift; by rewrite Hnew).
    rewrite Hblocks. apply M_bind_raise.
    rewrite Happ, Hrun2, fold_each_cons. by rewrite load_block_incomplete. }
  unfold load_json. rewrite Hbody. cbn [fst snd]. split_and!; [done| |done].
  unfold block_tuples, diagram_blocks.
  rewrite Hbl, Hbh. simpl. rewrite <- Hlen, omap_lookup_fresh. done.
Qed.

Lemma load_json_stops_at_incomplete_block_witness :
  (load_json true design_with_gap small_diagram).2 = Error "Failed to load: 'y'" /\
  block_tuples (load_json true design_with_gap small_diagram).1
  = [("A", 100 # 1, 100 # 1, 150 # 1, 80 # 1, None)].
Proof.
  assert (Forall (fun bd => is_Some (record_tuple bd)) [block_record "A" (100 # 1)])
    as Hgood by (repeat (constructor; [by eexists|]); constructor).
  destruct (load_json_stops_at_incomplete_block small_diagram true design_with_gap
              [block_record "A" (100 # 1)] [block_record "C" (500 # 1)]
              (BlockData.mk (Some (300 # 1)) None (Some (150 # 1)) (Some (80 # 1))
                 (Some "B") None None)
              eq_refl Hgood eq_refl (or_introl eq_refl)) as (H1 & H2 & _).
  split; [exact H1|exact H2].
Defined.

(** ** Loading a design in the older format *)










(** ** The FIFO format *)

Lemma collect_names_complete good : forall acc g,
  Forall (fun fi => is_Some (FifoInfo.src fi) /\ is_Some (FifoInfo.dst fi)) good ->
  exists acc', fold_each collect_names acc good g = (g, inr acc').
Proof.
  induction good as [|fi good IH]; intros acc g Hall; [by eexists|].
  apply Forall_cons in Hall as [[[src Hsrc] [dst Hdst]] Hall].
  rewrite fold_each_cons. unfold collect_names at 1, mbind, M_bind, key.
  rewrite Hsrc, Hdst. cbv beta iota. by apply IH.
Qed.

Lemma fold_each_app {X A} (body : A -> X -> M A) (l1 l2 : list X) : forall acc g,
  fold_each body acc (l1 ++ l2) g =
  match fold_each body acc l1 g with
  | (g', inr acc') => fold_each body acc' l2 g'
  | (g', inl e) => (g', inl e)
  end.
Proof.
  induction l1 as [|x l1 IH]; intros acc g; [done|].
  rewrite <- app_comm_cons, !fold_each_cons.
  destruct (body acc x g) as [g' [e|acc']]; [done|]. apply IH.
Qed.

(** A FIFO-format file with a record that lacks [src] or [dst] costs
    the design on the canvas: [import_fifo_format] has cleared it (the
    user agreeing) before it reads the records, and stops at the
    first such record without having made a block or a connection. *)
Theorem import_fifo_format_incomplete_record (g : HardwareDesignGUI) (answer : bool)
    (data : DesignData.t) (good rest : list FifoInfo.t) (bad : FifoInfo.t) :
  DesignData.fifo_infos data = Some (good ++ bad :: rest) ->
  Forall (fun fi => is_Some (FifoInfo.src fi) /\ is_Some (FifoInfo.dst fi)) good ->
  FifoInfo.src bad = None \/ FifoInfo.dst bad = None ->
  import_fifo_format answer data g =
  (new_design answer g,
   Error ("Failed to import FIFO format: '"
          +:+ (if FifoInfo.src bad is None then "src" else "dst") +:+ "'")).
Proof.
  intros Hdata Hgood Hbad. unfold import_fifo_format. rewrite Hdata.
  assert (import_fifo_body answer (good ++ bad :: rest) g =
          (new_design answer g,
           inl ("'" +:+ (if FifoInfo.src bad is None then "src" else "dst") +:+ "'")))
    as ->; [|done].
  unfold import_fifo_body.
  rewrite (M_bind_ok _ _ g (new_design answer g) tt) by done.
  apply M_bind_raise. rewrite fold_each_app.
  destruct (collect_names_complete good [] (new_design answer g) Hgood) as [acc ->].
  rewrite fold_each_cons. unfold collect_names, mbind, M_bind, key.
  destruct (FifoInfo.src bad) as [src|]; [|done].
  destruct Hbad as [?| ->]; done.
Qed.

Lemma import_fifo_format_incomplete_record_witness :
  import_fifo_format true
    (DesignData.mk None (Some [FifoInfo.mk (Some "FIFO") (Some "P") None None None None None])
       None)
    small_diagram
  = (new_design true small_diagram, Error "Failed to import FIFO format: 'dst'").
Proof.
  apply (import_fifo_format_incomplete_record small_diagram true
           (DesignData.mk None
              (Some [FifoInfo.mk (Some "FIFO") (Some "P") None None None None None]) None)
           [] [] (FifoInfo.mk (Some "FIFO") (Some "P") None None None None None)).
  - reflexivity.
  - constructor.
  - by right.
Defined.

Lemma import_fifo_format_builds (g : HardwareDesignGUI) (answer : bool)
    (data : DesignData.t) (tl : list (string * string * string * Z * Z * Z * Z)) :
  DesignData.fifo_infos data = Some (info_of_tuple <$> tl) ->
  answer = true \/ (blocks g = [] /\ connections g = []) ->
  let names := sorted_names (referenced tl) in
  let r := import_fifo_format answer data g in
  r.2 = Success /\
  Forall (fun b => (length (block_heap g) <= b)%nat) (blocks r.1) /\
  Forall (fun c => (length (conn_heap g) <= c)%nat) (connections r.1) /\
  block_tuples r.1 = grid_tuples names /\
  conn_tuples r.1 = within_capacity (fun _ => 0%nat) tl /\
  NoDup names /\
  Sorted (fun a b => String.leb a b = true) names /\
  (forall s, s ∈ names <-> s ∈ referenced tl).
Proof.
  intros Hdata Hclear. cbv zeta.
  set (names := sorted_names (referenced tl)).
  set (cols := ceil_sqrt (Z.of_nat (length names))).
  set (g1 := set_connections [] (set_blocks [] g)).
  assert (new_design answer g = g1) as Hnew.
  { unfold new_design. destruct Hclear as [->|[Hb Hc]].
    - by rewrite andb_false_r.
    - by rewrite Hb, Hc. }
  destruct (grid_blocks_state cols names 0 ∅ g1 (sorted_names_NoDup _))
    as (g2 & m & Hrun2 & Hbh & Hch & Hbl & Hcl & Hin & Hout).
  assert (forall name b, m !! name = Some b ->
            exists j, names !! j = Some name /\ b = (length (block_heap g) + j)%nat)
    as Hm.
  { intros name b Hb. destruct (decide (name ∈ names)) as [Hn|Hn].
    - apply list_elem_of_lookup in Hn as [j Hj]. exists j. split; [done|].
      rewrite (Hin j name Hj) in Hb. by injection Hb as <-.
    - rewrite (Hout name Hn), lookup_empty in Hb. done. }
  destruct (import_fifos_tuples m (length (conn_heap g)) tl (fun _ => 0%nat) g2)
    as (g3 & Hrun3 & Hct & Hbt & Hbl3 & Hfresh).
  { split_and!.
    - intros name b Hb. destruct (Hm name b Hb) as (j & Hj & ->).
      unfold block_connections. rewrite Hbh.
      change (block_heap g1) with (block_heap g).
      rewrite lookup_app_r, Nat.add_comm, Nat.add_sub by lia.
      rewrite list_lookup_imap, Hj. done.
    - intros n1 n2 b H1 H2.
      destruct (Hm n1 b H1) as (j1 & Hj1 & ->), (Hm n2 _ H2) as (j2 & Hj2 & Heq).
      assert (j1 = j2) as -> by lia. congruence.
    - rewrite Hcl. by intros c ?%elem_of_nil. }
  { intros t Ht. destruct (elem_of_referenced tl t Ht) as [Hs Hd].
    apply (elem_of_sorted_names (referenced tl)) in Hs, Hd.
    apply list_elem_of_lookup in Hs as [js Hjs], Hd as [jd Hjd].
    rewrite (Hin js _ Hjs), (Hin jd _ Hjd). by split; eexists. }
  { by rewrite Hch. }
  { rewrite Hcl. constructor. }
  assert (import_fifo_body answer (info_of_tuple <$> tl) g = (g3, inr tt)) as Hbody.
  { unfold import_fifo_body.
    rewrite (M_bind_ok _ _ g g1 tt) by (unfold lift; by rewrite Hnew).
    rewrite (M_bind_ok _ _ _ _ _ (collect_names_tuples tl [] g1)).
    rewrite app_nil_l. fold names. fold cols.
    rewrite (M_bind_ok _ _ _ _ _ Hrun2). done. }
  unfold import_fifo_format. rewrite Hdata, Hbody. cbn [fst snd].
  split_and!.
  - done.
  - rewrite Hbl3, Hbl. simpl. apply Forall_forall. intros b Hb%elem_of_seq. lia.
  - done.
  - rewrite Hbt. unfold block_tuples, diagram_blocks. rewrite Hbl, Hbh. simpl.
    apply imap_lookup_fresh_tuples.
  - rewrite Hct. unfold conn_tuples at 1, diagram_connections. by rewrite Hcl.
  - apply sorted_names_NoDup.
  - apply sorted_names_Sorted.
  - intros s. apply elem_of_sorted_names.
Qed.




Lemma ceil_sqrt_pos n : 0 < n -> 0 < ceil_sqrt n.
Proof.
  intros Hn. unfold ceil_sqrt. cbv zeta.
  pose proof (proj2 (Z.sqrt_pos n) Hn). case_match; lia.
Qed.

Lemma grid_cells_apart cols i j :
  0 < cols -> i <> j ->
  (i mod cols) * 200 + 200 <= (j mod cols) * 200 \/
  (j mod cols) * 200 + 200 <= (i mod cols) * 200 \/
  (i / cols) * 150 + 150 <= (j / cols) * 150 \/
  (j / cols) * 150 + 150 <= (i / cols) * 150.
Proof.
  intros Hcols Hij.
  pose proof (Z.div_mod i cols ltac:(lia)) as Hi.
  pose proof (Z.div_mod j cols ltac:(lia)) as Hj.
  destruct (Z.eq_dec (i mod cols) (j mod cols)) as [Hmod|Hmod]; [|lia].
  destruct (Z.eq_dec (i / cols) (j / cols)) as [Hdiv|Hdiv]; [|lia].
  rewrite Hmod, Hdiv in Hi. congruence.
Qed.

Lemma inject_Z_le_shift a b k :
  a + k <= b -> (inject_Z a + inject_Z k <= inject_Z b)%Q.
Proof. intros H. rewrite <- inject_Z_plus. by rewrite <- Zle_Qle. Qed.

(** The blocks [import_fifo_format] lays out on its grid do not
    overlap: in the diagram it makes of a complete file, no point of
    the canvas lies in two blocks. *)
Theorem import_fifo_format_blocks_apart (g : HardwareDesignGUI) (answer : bool)
    (data : DesignData.t) (tl : list (string * string * string * Z * Z * Z * Z)) :
  DesignData.fifo_infos data = Some (info_of_tuple <$> tl) ->
  answer = true \/ (blocks g = [] /\ connections g = []) ->
  let r := import_fifo_format answer data g in
  forall i j bi bj px py,
    diagram_blocks r.1 !! i = Some bi -> diagram_blocks r.1 !! j = Some bj ->
    i <> j ->
    Block_contains_point bi px py = true -> Block_contains_point bj px py = false.
Proof.
  intros Hdata Hclear. cbv zeta. intros i j bi bj px py Hi Hj Hij Hin.
  destruct (import_fifo_format_builds g answer data tl Hdata Hclear)
    as (_ & _ & _ & Hgrid & _).
  cbv zeta in Hgrid. unfold block_tuples, grid_tuples in Hgrid.
  set (names := sorted_names (referenced tl)) in *.
  set (cols := ceil_sqrt (Z.of_nat (length names))) in *.
  assert (forall k bk, diagram_blocks (import_fifo_format answer data g).1 !! k = Some bk ->
            (k < length names)%nat /\
            Block.x bk = inject_Z (50 + (Z.of_nat k mod cols) * 200) /\
            Block.y bk = inject_Z (50 + (Z.of_nat k / cols) * 150) /\
            Block.width bk = 150%Q /\ Block.height bk = 80%Q) as Hcell.
  { intros k bk Hk.
    pose proof (f_equal (fun l => l !! k) Hgrid) as Hlk. simpl in Hlk.
    rewrite list_lookup_fmap, Hk, list_lookup_imap in Hlk. simpl in Hlk.
    destruct (names !! k) as [name|] eqn:Hname; [|done].
    apply lookup_lt_Some in Hname. simpl in Hlk. unfold block_tuple, grid_tuple in Hlk.
    by injection Hlk as _ -> -> -> -> _. }
  destruct (Hcell i bi Hi) as (Hlen & Hxi & Hyi & Hwi & Hhi).
  destruct (Hcell j bj Hj) as (_ & Hxj & Hyj & Hwj & Hhj).
  assert (0 < cols) as Hcols by (apply ceil_sqrt_pos; lia).
  apply Block_contains_point_spec in Hin as (H1 & H2 & H3 & H4).
  apply not_true_is_false. intros (H5 & H6 & H7 & H8)%Block_contains_point_spec.
  rewrite Hxi, Hwi, Hyi, Hhi in *. rewrite Hxj, Hwj, Hyj, Hhj in *.
  destruct (grid_cells_apart cols (Z.of_nat i) (Z.of_nat j) Hcols ltac:(lia))
    as [H|[H|[H|H]]];
    [pose proof (inject_Z_le_shift (50 + Z.of_nat i mod cols * 200)
                   (50 + Z.of_nat j mod cols * 200) 200 ltac:(lia)) as H'
    |pose proof (inject_Z_le_shift (50 + Z.of_nat j mod cols * 200)
                   (50 + Z.of_nat i mod cols * 200) 200 ltac:(lia)) as H'
    |pose proof (inject_Z_le_shift (50 + Z.of_nat i / cols * 150)
                   (50 + Z.of_nat j / cols * 150) 150 ltac:(lia)) as H'
    |pose proof (inject_Z_le_shift (50 + Z.of_nat j / cols * 150)
                   (50 + Z.of_nat i / cols * 150) 150 ltac:(lia)) as H'];
    change (inject_Z 200) with 200%Q in H'; change (inject_Z 150) with 150%Q in H';
    repeat match goal with
           | H0 : context [inject_Z ?z] |- _ =>
               let q := fresh "q" in set (q := inject_Z z) in *; clearbody q
           end;
    lra.
Qed.

Lemma import_fifo_format_blocks_apart_witness :
  Block_contains_point (Block.mk 250 50 150 80 "Q" (Some 2) [3%nat]) 60 60 = false.
Proof.
  apply (import_fifo_format_blocks_apart small_diagram true one_fifo_file
           [("FIFO", "P", "Q", 0, 0, 16, 32)] eq_refl (or_introl eq_refl)
           0%nat 1%nat (Block.mk 50 50 150 80 "P" (Some 1) [3%nat])
           (Block.mk 250 50 150 80 "Q" (Some 2) [3%nat]) 60 60).
  - by vm_compute.
  - by vm_compute.
  - done.
  - by vm_compute.
Defined.
